(** * Trac version control API: repository registry, cache and notification

    A shallow embedding of [trac/versioncontrol/api.py]: the
    [DbRepositoryProvider] component, the [RepositoryManager] component and
    the [Repository] / [Changeset] base classes, followed by the properties
    established about them. *)

From stdpp Require Import base option list gmap strings sorting.
From Stdlib Require Import ZArith Ascii Lia DecimalString.

(** ** Python values and string helpers *)

(** The values stored in a repository information dictionary: text for every
    attribute read from the database or from [trac.ini], an integer for the
    surrogate key stored under ["id"]. *)
Inductive pyval : Type :=
  | PStr (s : string)
  | PInt (n : Z).

#[global] Instance pyval_eq_dec : EqDecision pyval.
Proof. solve_decision. Defined.

(** Python truthiness: the empty string and zero are false. *)
Definition truthy (v : pyval) : bool :=
  match v with
  | PStr EmptyString => false
  | PStr (String _ _) => true
  | PInt n => negb (n =? 0)%Z
  end.

(** [str(v)], as used by [%(name)s] in message templates. *)
Definition py_str (v : pyval) : string :=
  match v with
  | PStr s => s
  | PInt n => NilZero.string_of_int (Z.to_int n)
  end.

(** [x or ''] for an argument that is [None] or a string. *)
Definition or_empty (x : option string) : string :=
  match x with
  | Some (String c r) => String c r
  | _ => ""
  end.

(** Falsy arguments among [None] and strings. *)
Definition falsy (x : option string) : Prop := x = None ∨ x = Some "".

Definition slash : ascii := "/"%char.

Definition is_slash (c : ascii) : bool := Ascii.eqb c slash.

(** [s.lstrip('/')] *)
Fixpoint lstrip_slash (s : string) : string :=
  match s with
  | EmptyString => EmptyString
  | String c r => if is_slash c then lstrip_slash r else s
  end.

(** [s.rstrip('/')] *)
Fixpoint rstrip_slash (s : string) : string :=
  match s with
  | EmptyString => EmptyString
  | String c r =>
      match rstrip_slash r with
      | EmptyString => if is_slash c then EmptyString else String c EmptyString
      | r' => String c r'
      end
  end.

(** [s.strip('/')] *)
Definition strip_slash (s : string) : string := rstrip_slash (lstrip_slash s).

(** [s.startswith(p)] *)
Definition startswith (s p : string) : bool := String.prefix p s.

(** [s[n:]] *)
Fixpoint str_drop (n : nat) (s : string) : string :=
  match n, s with
  | O, _ => s
  | S n', String _ r => str_drop n' r
  | S _, EmptyString => EmptyString
  end.

(** [os.path.isabs] (POSIX flavour). *)
Definition isabs (p : string) : bool :=
  match p with
  | String c _ => is_slash c
  | EmptyString => false
  end.

(** [s.endswith('/')] *)
Fixpoint ends_with_slash (s : string) : bool :=
  match s with
  | EmptyString => false
  | String c EmptyString => is_slash c
  | String _ r => ends_with_slash r
  end.

(** [os.path.join(a, b)] (POSIX flavour). *)
Definition path_join (a b : string) : string :=
  if isabs b then b
  else match a with
       | EmptyString => b
       | _ => if ends_with_slash a then a +:+ b else a +:+ "/" +:+ b
       end.

(** The double quote character, for message templates. *)
Definition dquote : string := String "034"%char EmptyString.

(** [is_default(reponame)]; the translation [_] is the identity. *)
Definition is_default (reponame : string) : bool :=
  match reponame with
  | EmptyString => true
  | _ => String.eqb reponame "(default)"
  end.

(** ** The [repository] table *)

(** One row of [repository(id INTEGER, name TEXT, value TEXT)]; [value] may
    be [NULL]. *)
Record row : Type := Row {
  row_id : Z;
  row_name : string;
  row_value : option string
}.

#[global] Instance row_eq_dec : EqDecision row.
Proof. solve_decision. Defined.

(** The table in insertion order, which is also the order in which a
    [SELECT] without [ORDER BY] is taken to return its rows. *)
Abbreviation table := (list row).

(** [SELECT id FROM repository WHERE name='name' AND value=%s] *)
Definition is_name_row (reponame : string) (r : row) : bool :=
  String.eqb (row_name r) "name" &&
  match row_value r with
  | Some v => String.eqb v reponame
  | None => false
  end.

Definition select_id (reponame : string) (t : table) : list Z :=
  row_id <$> List.filter (is_name_row reponame) t.

(** [SELECT COALESCE(MAX(id), 0) FROM repository] *)
Definition coalesce_max_id (t : table) : Z :=
  match t with
  | [] => 0%Z
  | r :: t' => foldl Z.max (row_id r) (row_id <$> t')
  end.

(** [RepositoryManager.get_repository_id], as a committed transaction on the
    table: the id read, or the id allocated together with the table holding
    its new [name] row. *)
Definition get_repository_id (reponame : string) (t : table) : Z * table :=
  match select_id reponame t with
  | id :: _ => (id, t)
  | [] =>
      let id := (coalesce_max_id t + 1)%Z in
      (id, t ++ [Row id "name" (Some reponame)])
  end.

(** A run of [get_repository_id] calls, one per name, left to right. *)
Definition get_repository_ids (names : list string) (t : table) : table :=
  foldl (λ t n, (get_repository_id n t).2) t names.

(** No id carries two different names. *)
Definition name_rows_functional (t : table) : Prop :=
  ∀ r1 r2 n1 n2,
    r1 ∈ t → r2 ∈ t →
    is_name_row n1 r1 = true → is_name_row n2 r2 = true →
    row_id r1 = row_id r2 → n1 = n2.

(** ** Changesets *)

(** [Changeset.__init__]: [repos] is a reference to the owning repository
    object, [date] a timestamp. The [message] and [author] attributes are
    Python attributes and could hold [None]. *)
Record Changeset : Type := mkChangeset {
  cs_repos : nat;
  cs_rev : pyval;
  cs_message : option string;
  cs_author : option string;
  cs_date : Z
}.

Definition Changeset_init (repos : nat) (rev : pyval)
    (message author : option string) (date : Z) : Changeset :=
  {| cs_repos := repos;
     cs_rev := rev;
     cs_message := Some (or_empty message);
     cs_author := Some (or_empty author);
     cs_date := date |}.

(** ** Exceptions and outcomes *)

Inductive exn : Type :=
  | TracError (msg : string)
  | NoSuchChangeset (rev : pyval)
  | KeyError (key : string)
  | TypeError
  | AssertionError
  | OtherError (msg : string).

(** [except TracError] also catches [NoSuchChangeset], a [ResourceNotFound]
    and through it a [TracError]. *)
Definition is_TracError (e : exn) : bool :=
  match e with
  | TracError _ | NoSuchChangeset _ => true
  | _ => false
  end.

Definition is_NoSuchChangeset (e : exn) : bool :=
  match e with
  | NoSuchChangeset _ => true
  | _ => false
  end.

Inductive result (A : Type) : Type :=
  | Ok (a : A)
  | Raise (e : exn).

Arguments Ok {A} a.
Arguments Raise {A} e.

(** ** Connectors, providers, listeners *)

(** An [IRepositoryConnector]: the [(repotype, priority)] pairs of
    [get_supported_types()], the text of its [error] attribute, and the
    [name] its [get_repository] hands to [Repository.__init__] for a type
    and a directory. *)
Record Connector : Type := mkConnector {
  conn_types : list (string * Z);
  conn_error : string;
  conn_repos_name : string → string → string
}.

(** An [IRepositoryProvider]: the provider reading the [repository] table,
    or any other provider (the [trac.ini] one of [RepositoryManager]
    included), given by the entries its [get_repositories()] yields. *)
Inductive Provider : Type :=
  | DbProvider
  | StaticProvider (entries : list (string * gmap string pyval)).

(** An [IRepositoryChangeListener]: what calling the method named [event]
    with [(repos, changeset, *args)] raises, if anything. *)
Record Listener : Type := mkListener {
  listener_call :
    string → nat → Changeset → list (option Changeset) → option exn
}.

(** A recorded listener invocation. *)
Record Call : Type := mkCall {
  call_listener : nat;
  call_event : string;
  call_repos : nat;
  call_changeset : Changeset;
  call_args : list (option Changeset)
}.

(** The environment of the component: extension points and options. *)
Record Env : Type := mkEnv {
  connectors : list Connector;
  providers : list Provider;
  change_listeners : list Listener;
  repository_type : string;
  env_path : string;
  abspath : string → string
}.

(** What a version control backend implements behind the [Repository]
    contract, over its private state [store]. *)
Class Backend (store : Type) : Type := mkBackend {
  bk_open : string → string → gmap string pyval → store;
  bk_sync : store → result unit * store;
  bk_sync_changeset : pyval → store → result (option Changeset) * store;
  bk_get_changeset : pyval → store → result Changeset
}.

(** [DbRepositoryProvider.repository_attrs] *)
Definition repository_attrs : list string :=
  ["alias"; "description"; "dir"; "hidden"; "name"; "type"; "url"].

(** First loop of [DbRepositoryProvider.get_repositories]: group the
    non-null attribute rows by id. *)
Definition group_row (repos : gmap Z (gmap string pyval)) (r : row)
    : gmap Z (gmap string pyval) :=
  if bool_decide (row_name r ∈ repository_attrs) then
    match row_value r with
    | Some v =>
        <[row_id r := <[row_name r := PStr v]> (default ∅ (repos !! row_id r))]>
          repos
    | None => repos
    end
  else repos.

Definition group_rows (t : table) : gmap Z (gmap string pyval) :=
  foldl group_row ∅ t.

(** ['dir' in info or 'alias' in info] *)
Definition eligible (info : gmap string pyval) : Prop :=
  is_Some (info !! "dir") ∨ is_Some (info !! "alias").

(** Second loop: keep the ids that have a name and a directory or an alias,
    keyed by name. *)
Definition index_by_name (reponames : gmap string (gmap string pyval))
    (e : Z * gmap string pyval) : gmap string (gmap string pyval) :=
  let '(id, info) := e in
  match info !! "name" with
  | Some (PStr n) =>
      if bool_decide (eligible info)
      then <[n := <["id" := PInt id]> info]> reponames
      else reponames
  | _ => reponames
  end.

Definition db_get_repositories (t : table)
    : list (string * gmap string pyval) :=
  map_to_list (foldl index_by_name ∅ (map_to_list (group_rows t))).




(** [get_repositories()] of a provider, the table being read when the
    provider is reached. *)
Definition provider_entries (p : Provider) (t : table)
    : list (string * gmap string pyval) :=
  match p with
  | DbProvider => db_get_repositories t
  | StaticProvider entries => entries
  end.

(** Inner loop body of [get_all_repositories]. *)
Definition add_entry (acc : gmap string (gmap string pyval) * table)
    (e : string * gmap string pyval)
    : gmap string (gmap string pyval) * table :=
  let '(all_repositories, t) := acc in
  let '(reponame, info) := e in
  match all_repositories !! reponame with
  | Some _ => acc
  | None =>
      let info := <["name" := PStr reponame]> info in
      match info !! "id" with
      | Some _ => (<[reponame := info]> all_repositories, t)
      | None =>
          let '(id, t') := get_repository_id reponame t in
          (<[reponame := <["id" := PInt id]> info]> all_repositories, t')
      end
  end.

Definition collect_repositories (ps : list Provider) (t : table)
    : gmap string (gmap string pyval) * table :=
  foldl (λ acc p, foldl add_entry acc (provider_entries p acc.2)) (∅, t) ps.

(** [RepositoryManager._get_connector]: the table of preferred connectors. *)
Definition keep_connector (c : Connector)
    (tbl : gmap string (Connector * Z)) (tp : string * Z)
    : gmap string (Connector * Z) :=
  let '(type_, prio) := tp in
  match tbl !! type_ with
  | Some (_, p0) => if (prio <=? p0)%Z then tbl else <[type_ := (c, prio)]> tbl
  | None => <[type_ := (c, prio)]> tbl
  end.

Definition build_connectors (cs : list Connector)
    : gmap string (Connector * Z) :=
  foldl (λ tbl c, foldl (keep_connector c) tbl (conn_types c)) ∅ cs.

(** ['Unsupported version control system "%(name)s": %(error)s'] *)
Definition unsupported_message (rtype : pyval) (error : string) : string :=
  "Unsupported version control system " +:+ dquote +:+ py_str rtype
    +:+ dquote +:+ ": " +:+ error.

Definition no_component : string :=
  "Can't find an appropriate component, maybe the corresponding plugin was not enabled? ".

(** [RepositoryManager.get_supported_types], as the set it builds. *)
Definition supported_types (cs : list Connector) : gset string :=
  list_to_set
    (c ← cs; tp ← conn_types c; if (0 <=? tp.2)%Z then [tp.1] else []).

(** ** Path matching of [get_repository_by_path] *)

(** Order of the [(length, reponame)] tuples under [matches.sort()]. *)
Definition match_leb (a b : nat * string) : bool :=
  (a.1 <? b.1) || ((a.1 =? b.1) && String.leb a.2 b.2).

Definition match_le (a b : nat * string) : Prop := match_leb a b.

#[global] Instance match_le_dec : RelDecision match_le.
Proof. intros a b. unfold match_le. apply _. Defined.

(** [path.strip('/') + '/' if path else '/'] *)
Definition normalize_path (path : string) : string :=
  match path with
  | EmptyString => "/"
  | _ => strip_slash path +:+ "/"
  end.

Definition stripped_reponame (reponame : string) : string :=
  strip_slash reponame +:+ "/".

Definition path_matches (npath : string) (names : list string)
    : list (nat * string) :=
  (λ n, (String.length (stripped_reponame n), n)) <$>
    List.filter (λ n, startswith npath (stripped_reponame n)) names.

(** [path.rstrip('/') or '/'] *)
Definition rest_of_path (path : string) : string :=
  match rstrip_slash path with
  | EmptyString => "/"
  | p => p
  end.

(** The name and remainder [get_repository_by_path] settles on. *)
Definition split_repository_path (names : list string) (path : string)
    : string * string :=
  let path := normalize_path path in
  match last (merge_sort match_le (path_matches path names)) with
  | Some (length, reponame) => (reponame, rest_of_path (str_drop length path))
  | None => ("", rest_of_path path)
  end.

(** ** The repository manager *)

Section manager.
Context {store : Type} `{!Backend store}.
Variable env : Env.

(** A [Repository] object as [Repository.__init__] leaves it, with the
    backend's private state and a flag recording that [close()] ran. *)
Record Repository : Type := mkRepository {
  repo_name : string;
  repo_params : gmap string pyval;
  reponame : pyval;
  repo_id : pyval;
  repo_closed : bool;
  repo_store : store
}.

(** The state of the process: the [repository] table, the attributes of
    the [RepositoryManager] singleton, the repository objects allocated so
    far (an object is referred to by its index) and the listener
    invocations made so far. *)
Record State : Type := mkState {
  db : table;
  _cache : gmap positive (gmap string nat);
  _connectors : option (gmap string (Connector * Z));
  _all_repositories : option (gmap string (gmap string pyval));
  heap : list Repository;
  calls : list Call
}.

(** [RepositoryManager.__init__] over a given table. *)
Definition initial_state (t : table) : State :=
  mkState t ∅ None None [] [].

Definition set_db (t : table) (s : State) : State :=
  mkState t (_cache s) (_connectors s) (_all_repositories s) (heap s) (calls s).
Definition set_cache (c : gmap positive (gmap string nat)) (s : State)
    : State :=
  mkState (db s) c (_connectors s) (_all_repositories s) (heap s) (calls s).
Definition set_connectors (c : option (gmap string (Connector * Z)))
    (s : State) : State :=
  mkState (db s) (_cache s) c (_all_repositories s) (heap s) (calls s).
Definition set_all_repositories
    (a : option (gmap string (gmap string pyval))) (s : State) : State :=
  mkState (db s) (_cache s) (_connectors s) a (heap s) (calls s).
Definition set_heap (h : list Repository) (s : State) : State :=
  mkState (db s) (_cache s) (_connectors s) (_all_repositories s) h (calls s).
Definition set_calls (c : list Call) (s : State) : State :=
  mkState (db s) (_cache s) (_connectors s) (_all_repositories s) (heap s) c.

(** Computations over the state that return or raise; the state reached
    is kept in both cases. *)
Definition M (A : Type) : Type := State → result A * State.

Definition ret {A} (a : A) : M A := λ s, (Ok a, s).
Definition raise {A} (e : exn) : M A := λ s, (Raise e, s).
Definition bind {A B} (m : M A) (f : A → M B) : M B :=
  λ s, match m s with
       | (Ok a, s') => f a s'
       | (Raise e, s') => (Raise e, s')
       end.

(** [try: m  except <handled>: h] *)
Definition try_except {A} (m : M A) (handled : exn → bool) (h : M A) : M A :=
  λ s, match m s with
       | (Raise e, s') => if handled e then h s' else (Raise e, s')
       | r => r
       end.

Notation "'let!' x ':=' m 'in' k" := (bind m (λ x, k))
  (at level 10, x pattern, m at level 100, k at level 200).

Fixpoint for_each {A} (l : list A) (f : A → M unit) : M unit :=
  match l with
  | [] => ret tt
  | x :: l' => let! _ := f x in for_each l' f
  end.

(** [Repository.__init__(name, params, log)] *)
Definition Repository_init (name : string) (params : gmap string pyval)
    (st : store) : result Repository :=
  match params !! "name" with
  | None => Raise (KeyError "name")
  | Some n =>
      match params !! "id" with
      | None => Raise (KeyError "id")
      | Some i => Ok (mkRepository name params n i false st)
      end
  end.

(** [connector.get_repository(rtype, rdir, params)]: the connector builds
    an object of its repository class, initialised by
    [Repository.__init__] with the parameters it was given. *)
Definition connector_get_repository (c : Connector) (rtype rdir : string)
    (params : gmap string pyval) : M nat :=
  λ s, match Repository_init (conn_repos_name c rtype rdir) params
               (bk_open rtype rdir params) with
       | Ok r => (Ok (length (heap s)), set_heap (heap s ++ [r]) s)
       | Raise e => (Raise e, s)
       end.

(** [RepositoryManager.get_all_repositories] *)
Definition get_all_repositories : M (gmap string (gmap string pyval)) :=
  λ s,
    let recompute :=
      let '(all_repositories, t) := collect_repositories (providers env) (db s) in
      (Ok all_repositories,
       set_all_repositories (Some all_repositories) (set_db t s)) in
    match _all_repositories s with
    | Some all_repositories =>
        if bool_decide (all_repositories = ∅) then recompute
        else (Ok all_repositories, s)
    | None => recompute
    end.

(** The registry a lookup made in state [s] works with: what
    [get_all_repositories] returns there. *)
Definition registry_in (s : State) : gmap string (gmap string pyval) :=
  match (get_all_repositories s).1 with
  | Ok all_repositories => all_repositories
  | Raise _ => ∅
  end.

(** The name and the information [get_repository] settles on for
    [reponame], an alias being followed once. *)
Definition resolve_alias (all_repositories : gmap string (gmap string pyval))
    (reponame : string) : string * gmap string pyval :=
  let repoinfo := default ∅ (all_repositories !! reponame) in
  match repoinfo !! "alias" with
  | Some (PStr target) => (target, default ∅ (all_repositories !! target))
  | Some (PInt _) => (reponame, ∅)
  | None => (reponame, repoinfo)
  end.

(** [RepositoryManager.reload_repositories] *)
Definition reload_repositories : M unit :=
  λ s, (Ok tt, set_all_repositories None (set_cache ∅ s)).

(** [RepositoryManager._get_connector] *)
Definition _get_connector (rtype : pyval) : M Connector :=
  λ s,
    let tbl := match _connectors s with
               | Some tbl => tbl
               | None => build_connectors (connectors env)
               end in
    let s := set_connectors (Some tbl) s in
    let found := match rtype with
                 | PStr t => tbl !! t
                 | PInt _ => None
                 end in
    match found with
    | Some (connector, prio) =>
        if (0 <=? prio)%Z then (Ok connector, s)
        else (Raise (TracError (unsupported_message rtype
                                  (conn_error connector))), s)
    | None =>
        (Raise (TracError (unsupported_message rtype no_component)), s)
    end.

(** The memoised connector table, when present, is the one built from
    the registered connectors. *)
Definition connectors_settled (s : State) : Prop :=
  ∀ tbl, _connectors s = Some tbl → tbl = build_connectors (connectors env).

(** Some registered connector supports [rtype] with a non-negative
    priority. *)
Definition usable_connector (rtype : string) : Prop :=
  ∃ c prio, c ∈ connectors env ∧ (rtype, prio) ∈ conn_types c ∧ (0 ≤ prio)%Z.

(** The repository type in force: [repoinfo.get('type') or
    self.repository_type]. *)
Definition effective_type (repoinfo : gmap string pyval) : pyval :=
  match repoinfo !! "type" with
  | Some t => if truthy t then t else PStr (repository_type env)
  | None => PStr (repository_type env)
  end.

(** The thread-level cache part of [get_repository], run by thread
    [tid] under the lock. *)
Definition cached_repository (tid : positive) (reponame : string)
    (repoinfo : gmap string pyval) (rdir rtype : pyval) : M (option nat) :=
  λ s,
    let repositories := default ∅ (_cache s !! tid) in
    let s := set_cache (<[tid := repositories]> (_cache s)) s in
    match repositories !! reponame with
    | Some repos => (Ok (Some repos), s)
    | None =>
        match rdir with
        | PInt _ => (Raise TypeError, s)
        | PStr rdir =>
            let rdir :=
              if isabs rdir then rdir else path_join (env_path env) rdir in
            (let! connector := _get_connector rtype in
             let! repos :=
               connector_get_repository connector (py_str rtype) rdir repoinfo in
             λ s, (Ok (Some repos),
                   set_cache
                     (<[tid := <[reponame := repos]>
                                 (default ∅ (_cache s !! tid))]> (_cache s)) s)) s
        end
    end.

(** [RepositoryManager.get_repository], called by thread [tid]. *)
Definition get_repository (tid : positive) (reponame : option string)
    : M (option nat) :=
  let reponame := or_empty reponame in
  let! all_repositories := get_all_repositories in
  let repoinfo := default ∅ (all_repositories !! reponame) in
  let finish (reponame : string) (repoinfo : gmap string pyval) :=
    match repoinfo !! "dir" with
    | None => ret None
    | Some rdir =>
        if truthy rdir then
          cached_repository tid reponame repoinfo rdir (effective_type repoinfo)
        else ret None
    end in
  match repoinfo !! "alias" with
  | Some (PStr reponame) =>
      let! all_repositories := get_all_repositories in
      finish reponame (default ∅ (all_repositories !! reponame))
  | Some (PInt _) =>
      let! _ := get_all_repositories in
      ret None
  | None => finish reponame repoinfo
  end.

(** The state once the registry has been looked up. *)
Definition settled (s : State) : State := (get_all_repositories s).2.

(** What [get_repository] does once the name is resolved. *)
Definition lookup_resolved (tid : positive)
    (r : string * gmap string pyval) : M (option nat) :=
  match r.2 !! "dir" with
  | None => ret None
  | Some rdir =>
      if truthy rdir then
        cached_repository tid r.1 r.2 rdir (effective_type r.2)
      else ret None
  end.

(** A run of [get_repository] calls by thread [tid], one per name. *)
Fixpoint get_repository_run (tid : positive) (names : list string)
    (s : State) : list (result (option nat)) * State :=
  match names with
  | [] => ([], s)
  | reponame :: names' =>
      let '(r, s1) := get_repository tid (Some reponame) s in
      let '(rs, s2) := get_repository_run tid names' s1 in
      (r :: rs, s2)
  end.

(** [RepositoryManager.get_repository_by_path] *)
Definition get_repository_by_path (tid : positive) (path : string)
    : M (string * option nat * string) :=
  let! all_repositories := get_all_repositories in
  let '(reponame, rest) :=
    split_repository_path (map_to_list all_repositories).*1 path in
  let! repos := get_repository tid (Some reponame) in
  ret (reponame, repos, rest).

(** [RepositoryManager.shutdown(tid)], called by thread [cur]; thread
    identifiers are non-zero integers, so [if tid:] only tells [None]
    apart. *)
Definition close_repository (s : State) (h : nat) : State :=
  set_heap
    (alter (λ r, mkRepository (repo_name r) (repo_params r) (reponame r)
                   (repo_id r) true (repo_store r)) h (heap s)) s.

Definition shutdown (tid : option positive) (cur : positive) : M unit :=
  match tid with
  | None => ret tt
  | Some tid =>
      if bool_decide (tid = cur) then
        λ s,
          let repositories := default ∅ (_cache s !! tid) in
          let s := set_cache (delete tid (_cache s)) s in
          (Ok tt, foldl close_repository s (map_to_list repositories).*2)
      else raise AssertionError
  end.

(** [close()] has run on the object at [h], if there is one. *)
Definition closed_at (s : State) (h : nat) : Prop :=
  ∀ r, heap s !! h = Some r → repo_closed r = true.

(** Every object cached for the thread was made at index [n0] or later,
    and the objects from [n0] on are open. *)
Definition made_since (tid : positive) (n0 : nat) (s : State) : Prop :=
  n0 ≤ length (heap s) ∧
  (∀ name h, default ∅ (_cache s !! tid) !! name = Some h →
             n0 ≤ h < length (heap s)) ∧
  (∀ h r, n0 ≤ h → heap s !! h = Some r → repo_closed r = false).

(** Computations that invoke no listener. *)
Definition quiet {A} (m : M A) : Prop :=
  ∀ s, calls (m s).2 = calls s.



(** Backend calls on a repository object. *)
Definition with_repository {A} (h : nat) (f : Repository → M A) : M A :=
  λ s, match heap s !! h with
       | Some r => f r s
       | None => (Raise (OtherError "no such object"), s)
       end.

Definition set_store (h : nat) (r : Repository) (st : store) (s : State)
    : State :=
  set_heap
    (<[h := mkRepository (repo_name r) (repo_params r) (reponame r)
              (repo_id r) (repo_closed r) st]> (heap s)) s.

Definition get_base (h : nat) : M string :=
  with_repository h (λ r, ret (repo_name r)).

Definition sync (h : nat) : M unit :=
  with_repository h (λ r s,
    let '(res, st) := bk_sync (repo_store r) in (res, set_store h r st s)).

Definition sync_changeset (h : nat) (rev : pyval) : M (option Changeset) :=
  with_repository h (λ r s,
    let '(res, st) := bk_sync_changeset rev (repo_store r) in
    (res, set_store h r st s)).

Definition get_changeset (h : nat) (rev : pyval) : M Changeset :=
  with_repository h (λ r s, (bk_get_changeset rev (repo_store r), s)).

(** The revision is unknown to the backend in state [st], and still is
    after a resync attempt (which may itself report it as unknown). *)
Definition changeset_missing (rev : pyval) (st : store) : Prop :=
  (∃ r, bk_get_changeset rev st = Raise (NoSuchChangeset r)) ∧
  match bk_sync_changeset rev st with
  | (Ok _, st') => ∃ r, bk_get_changeset rev st' = Raise (NoSuchChangeset r)
  | (Raise e, _) => is_NoSuchChangeset e = true
  end.

(** [RepositoryManager.get_repositories_by_dir] *)
Definition get_repositories_by_dir (tid : positive) (directory : string)
    : M (list nat) :=
  let directory := path_join directory "" in
  let! all_repositories := get_all_repositories in
  let fix go (l : list (string * gmap string pyval)) : M (list nat) :=
    match l with
    | [] => ret []
    | (reponame, repoinfo) :: l' =>
        let! found :=
          match repoinfo !! "dir" with
          | Some (PStr dir) =>
              if truthy (PStr dir) && startswith (path_join dir "") directory
              then get_repository tid (Some reponame)
              else ret None
          | Some (PInt n) =>
              if truthy (PInt n) then raise TypeError else ret None
          | None => ret None
          end in
        let! rest := go l' in
        ret (match found with Some h => h :: rest | None => rest end)
    end in
  go (map_to_list all_repositories).

(** [RepositoryManager.get_real_repositories] *)
Definition get_real_repositories (tid : positive) : M (gset nat) :=
  let! all_repositories := get_all_repositories in
  let fix go (l : list string) : M (gset nat) :=
    match l with
    | [] => ret ∅
    | reponame :: l' =>
        let! found :=
          try_except (get_repository tid (Some reponame)) is_TracError
            (ret None) in
        let! rest := go l' in
        ret (match found with Some h => {[h]} ∪ rest | None => rest end)
    end in
  go (map_to_list all_repositories).*1.

(** Order of [sorted(repositories, key=lambda r: r.reponame)]: numbers
    before strings. *)
Definition pyval_leb (a b : pyval) : bool :=
  match a, b with
  | PInt x, PInt y => (x <=? y)%Z
  | PInt _, PStr _ => true
  | PStr _, PInt _ => false
  | PStr x, PStr y => String.leb x y
  end.

Definition key_le (a b : pyval * nat) : Prop := pyval_leb a.1 b.1.

#[global] Instance key_le_dec : RelDecision key_le.
Proof. intros a b. unfold key_le. apply _. Defined.

Fixpoint with_keys (hs : list nat) : M (list (pyval * nat)) :=
  match hs with
  | [] => ret []
  | h :: hs' =>
      let! k := with_repository h (λ r, ret (reponame r)) in
      let! rest := with_keys hs' in
      ret ((k, h) :: rest)
  end.

(** The listeners' loop. *)
Fixpoint call_listeners (ls : list Listener) (idx : nat) (event : string)
    (h : nat) (changeset : Changeset) (args : list (option Changeset))
    : M unit :=
  match ls with
  | [] => ret tt
  | l :: ls' =>
      λ s,
        let s := set_calls (calls s ++ [mkCall idx event h changeset args]) s in
        match listener_call l event h changeset args with
        | Some e => (Raise e, s)
        | None => call_listeners ls' (S idx) event h changeset args s
        end
  end.

(** The changeset of a revision, looked up again after one resync; [None]
    stands for the [continue] of the loop. *)
Definition fetch_changeset (h : nat) (rev : pyval) : M (option Changeset) :=
  try_except
    (let! changeset := get_changeset h rev in ret (Some changeset))
    is_NoSuchChangeset
    (try_except
       (let! _ := sync_changeset h rev in
        let! changeset := get_changeset h rev in
        ret (Some changeset))
       is_NoSuchChangeset
       (ret None)).

(** Body of the loop over [revs] in [notify]. *)
Definition notify_rev (event : string) (h : nat) (rev : pyval) : M unit :=
  let! args :=
    (if String.eqb event "changeset_modified"
     then let! old := sync_changeset h rev in ret [old]
     else ret []) in
  let! changeset := fetch_changeset h rev in
  match changeset with
  | None => ret tt
  | Some changeset =>
      call_listeners (change_listeners env) 0 event h changeset args
  end.

(** Body of the loop over the repositories in [notify]. *)
Definition notify_repository (event : string) (revs : list pyval) (h : nat)
    : M unit :=
  let! _ := sync h in
  for_each revs (notify_rev event h).

(** The repositories an event on [reponame] concerns. *)
Definition notify_targets (tid : positive) (reponame : string)
    : M (list nat) :=
  let! repos := get_repository tid (Some reponame) in
  let! (base, repositories) :=
    match repos with
    | Some h => let! base := get_base h in ret (Some base, [])
    | None =>
        let dir := abspath env reponame in
        let! repositories := get_repositories_by_dir tid dir in
        match repositories with
        | [] => ret (Some reponame, repositories)
        | _ => ret (None, repositories)
        end
    end in
  match base with
  | Some (String c b) =>
      let! real := get_real_repositories tid in
      let fix keep (hs : list nat) : M (list nat) :=
        match hs with
        | [] => ret []
        | h :: hs' =>
            let! b' := get_base h in
            let! rest := keep hs' in
            ret (if String.eqb b' (String c b) then h :: rest else rest)
        end in
      keep (elements real)
  | _ => ret repositories
  end.

(** [RepositoryManager.notify], called by thread [tid]. *)
Definition notify (tid : positive) (event : string) (reponame : string)
    (revs : list pyval) : M unit :=
  let! repositories := notify_targets tid reponame in
  match repositories with
  | [] => ret tt
  | _ =>
      let! keyed := with_keys repositories in
      for_each (merge_sort key_le keyed).*2 (notify_repository event revs)
  end.

End manager.

Arguments Repository store : clear implicits.
Arguments State store : clear implicits.
Arguments M store A : clear implicits.

(** ** Administration of the [repository] table *)

(** A row of the [revision] or of the [node_change] table: the repository
    id of its [repos] column, and its other columns. *)
Record cache_row : Type := CacheRow {
  cr_repos : Z;
  cr_columns : list string
}.

(** [DELETE FROM repository WHERE id=%s] *)
Definition delete_id (id : Z) (t : table) : table :=
  List.filter (λ r, negb (row_id r =? id)%Z) t.

(** [DELETE FROM revision WHERE repos=%s], and the same on [node_change] *)
Definition delete_repos (id : Z) (c : list cache_row) : list cache_row :=
  List.filter (λ r, negb (cr_repos r =? id)%Z) c.

(** [UPDATE repository SET value=%s WHERE id=%s AND name=%s] *)
Definition is_attribute_row (id : Z) (k : string) (r : row) : bool :=
  (row_id r =? id)%Z && String.eqb (row_name r) k.

Definition update_value (id : Z) (k v : string) (t : table) : table :=
  (λ r, if is_attribute_row id k r
        then Row (row_id r) (row_name r) (Some v) else r) <$> t.

(** [SELECT value FROM repository WHERE id=%s AND name=%s] returns a row. *)
Definition has_attribute (id : Z) (k : string) (t : table) : bool :=
  existsb (is_attribute_row id k) t.

(** Attribute [k] of [id] is present, with text [w] in all its rows. *)
Definition attribute_is (id : Z) (k w : string) (t : table) : Prop :=
  has_attribute id k t = true ∧
  ∀ r, r ∈ t → is_attribute_row id k r = true → row_value r = Some w.

(** The value written for key [k]: the default repository is stored as
    the empty name. *)
Definition stored_value (k v : string) : string :=
  if (String.eqb k "alias" || String.eqb k "name") && is_default v then ""
  else v.

(** Body of the loop of [modify_repository] over [changes.iteritems()]. *)
Definition modify_step (id : Z) (t : table) (kv : string * string)
    : result table :=
  let '(k, v) := kv in
  if bool_decide (k ∈ repository_attrs) then
    let v := stored_value k v in
    if String.eqb k "dir" && negb (isabs v) then
      Raise (TracError "The repository directory must be absolute")
    else
      let t := update_value id k v t in
      Ok (if has_attribute id k t then t else t ++ [Row id k (Some v)])
  else Ok t.

Fixpoint modify_rows (id : Z) (changes : list (string * string)) (t : table)
    : result table :=
  match changes with
  | [] => Ok t
  | kv :: changes' =>
      match modify_step id t kv with
      | Ok t' => modify_rows id changes' t'
      | Raise e => Raise e
      end
  end.

Section provider_admin.
Context {store : Type}.

(** [DbRepositoryProvider.remove_repository], given the [revision] and
    [node_change] tables beside the state. *)
Definition remove_repository (reponame : string)
    (revision node_change : list cache_row) (s : State store)
    : result unit * State store * (list cache_row * list cache_row) :=
  let reponame := if is_default reponame then "" else reponame in
  let '(id, t) := get_repository_id reponame (db s) in
  let '(res, s') := reload_repositories (set_db (delete_id id t) s) in
  (res, s', (delete_repos id revision, delete_repos id node_change)).

(** [DbRepositoryProvider.modify_repository]; an exception raised inside
    the transaction rolls the table back, and the repositories are not
    reloaded. *)
Definition modify_repository (reponame : string)
    (changes : gmap string string) : M store unit :=
  λ s,
    let reponame := if is_default reponame then "" else reponame in
    let '(id, t) := get_repository_id reponame (db s) in
    match modify_rows id (map_to_list changes) t with
    | Ok t' => reload_repositories (set_db t' s)
    | Raise e => (Raise e, s)
    end.

End provider_admin.

(** ** Path helpers of [svn_authz.py] *)

Definition nonempty (s : string) : bool :=
  match s with
  | EmptyString => false
  | String _ _ => true
  end.

(** [join] of [svn_authz.py]: the stripped arguments that are not empty, joined by
    ['/']. *)
Definition authz_join (args : list string) : string :=
  String.concat "/" (List.filter nonempty (strip_slash <$> args)).

(** [s[:n]] for an index [n] that is not negative *)
Fixpoint str_take (n : nat) (s : string) : string :=
  match n, s with
  | S n', String c r => String c (str_take n' r)
  | _, _ => EmptyString
  end.

(** [s[:-1]] *)
Definition str_init (s : string) : string :=
  str_take (String.length s - 1) s.

(** [s.rfind('/')] *)
Fixpoint rfind_slash (s : string) : Z :=
  match s with
  | EmptyString => (-1)%Z
  | String c r =>
      let i := rfind_slash r in
      if (0 <=? i)%Z then (i + 1)%Z
      else if is_slash c then 0%Z else (-1)%Z
  end.

(** [parent_iter(path)]: the paths yielded, when the loop ends within
    [fuel] rounds. *)
Fixpoint parent_iter (fuel : nat) (path : string) : option (list string) :=
  match fuel with
  | O => None
  | S fuel' =>
      if String.eqb path "/" then Some [path]
      else
        let path1 := str_init path in
        let idx := rfind_slash path1 in
        let path2 := str_take (Z.to_nat (idx + 1)) path1 in
        match parent_iter fuel' path2 with
        | Some l => Some (path :: path1 :: l)
        | None => None
        end
  end.

(** ** Nodes *)

(** [Node.DIRECTORY] and [Node.FILE] *)
Definition DIRECTORY : string := "dir".
Definition FILE : string := "file".

(** A [Node] as [Node.__init__] leaves it; [repos] refers to the
    repository object. *)
Record Node : Type := mkNode {
  node_repos : nat;
  node_path : string;
  node_rev : pyval;
  node_kind : string
}.

(** [Node.__init__(repos, path, rev, kind)], with its assertion on the
    kind. *)
Definition Node_init (repos : nat) (path : string) (rev : pyval)
    (kind : string) : result Node :=
  if bool_decide (kind ∈ [DIRECTORY; FILE]) then Ok (mkNode repos path rev kind)
  else Raise AssertionError.

(** The [isdir] and [isfile] properties. *)
Definition isdir (n : Node) : bool := String.eqb (node_kind n) DIRECTORY.
Definition isfile (n : Node) : bool := String.eqb (node_kind n) FILE.

(** The permission [Node.is_viewable] looks for. *)
Definition view_permission (n : Node) : string :=
  if isdir n then "BROWSER_VIEW" else "FILE_VIEW".

(** [s.split('/')] *)
Fixpoint split_slash (s : string) : list string :=
  match s with
  | EmptyString => [EmptyString]
  | String c r =>
      if is_slash c then EmptyString :: split_slash r
      else match split_slash r with
           | x :: l => String c x :: l
           | [] => [String c EmptyString]
           end
  end.

(** [Node.get_name]: [self.path.split('/')[-1]] *)
Definition get_name (n : Node) : string :=
  default "" (last (split_slash (node_path n))).

(** ['/' in s] *)
Fixpoint has_slash (s : string) : bool :=
  match s with
  | EmptyString => false
  | String c r => is_slash c || has_slash r
  end.

(** ** Changesets of a period *)

Section changesets.
(** [self.get_changeset] and [self.previous_rev] of the backend. *)
Variable get_changeset_at : pyval → result Changeset.
Variable previous_rev : pyval → option pyval.

(** How a run of the generator ends. *)
Inductive ending : Type :=
  | Finished
  | Raised (e : exn)
  | OutOfFuel.

(** [Repository.get_changesets(start, stop)], from the revision [rev]
    ([None] when there is none): the changesets yielded within [fuel]
    rounds of the loop, and how the run ends. *)
Fixpoint get_changesets (fuel : nat) (rev : option pyval) (start stop : Z)
    : list Changeset * ending :=
  match fuel with
  | O => ([], OutOfFuel)
  | S fuel' =>
      match rev with
      | None => ([], Finished)
      | Some r =>
          if truthy r then
            match get_changeset_at r with
            | Raise e => ([], Raised e)
            | Ok chgset =>
                if (cs_date chgset <? start)%Z then ([], Finished)
                else
                  let '(l, e) :=
                    get_changesets fuel' (previous_rev r) start stop in
                  (if (cs_date chgset <? stop)%Z then chgset :: l else l, e)
            end
          else ([], Finished)
      end
  end.

End changesets.

(** ** The [trac.ini] provider *)

(** [s.endswith(suffix)] *)
Definition endswith (s suffix : string) : bool :=
  (String.length suffix <=? String.length s) &&
  String.eqb (str_drop (String.length s - String.length suffix) s) suffix.

Definition is_dot (c : ascii) : bool := Ascii.eqb c "."%char.

(** ['.' in s] *)
Fixpoint has_dot (s : string) : bool :=
  match s with
  | EmptyString => false
  | String c r => is_dot c || has_dot r
  end.

(** [s.rsplit('.', 1)] of a string with a dot: what precedes and what
    follows the last dot. *)
Fixpoint rsplit_dot (s : string) : option (string * string) :=
  match s with
  | EmptyString => None
  | String c r =>
      match rsplit_dot r with
      | Some (name, detail) => Some (String c name, detail)
      | None => if is_dot c then Some (EmptyString, r) else None
      end
  end.

(** [repositories.get(option)] on the [[repositories]] section, given as
    its options with their values. *)
Fixpoint section_get (section : list (string * string)) (opt : string)
    : string :=
  match section with
  | [] => ""
  | (k, v) :: section' =>
      if String.eqb k opt then v else section_get section' opt
  end.

(** First pass: the [<name>.dir] entries. *)
Definition gather_dir (reponames : gmap string (gmap string pyval))
    (opt : string) : gmap string (gmap string pyval) :=
  if endswith opt ".dir"
  then <[str_take (String.length opt - 4) opt := ∅]> reponames
  else reponames.

(** Second pass: the aliases. *)
Definition gather_alias (section : list (string * string))
    (reponames : gmap string (gmap string pyval)) (opt : string)
    : gmap string (gmap string pyval) :=
  let alias := section_get section opt in
  let opt := if has_dot opt then opt else opt +:+ ".alias" in
  if endswith opt ".alias" && bool_decide (is_Some (reponames !! alias))
  then
    let name := str_take (String.length opt - 6) opt in
    <[name := <["alias" := PStr alias]> (default ∅ (reponames !! name))]>
      reponames
  else reponames.

(** Third pass: the [<name>.<detail>] entries. *)
Definition gather_detail (section : list (string * string))
    (reponames : gmap string (gmap string pyval)) (opt : string)
    : gmap string (gmap string pyval) :=
  if has_dot opt then
    match rsplit_dot opt with
    | Some (name, detail) =>
        if bool_decide (is_Some (reponames !! name)) &&
           negb (String.eqb detail "alias")
        then alter (insert detail (PStr (section_get section opt))) name
               reponames
        else reponames
    | None => reponames
    end
  else reponames.

(** [RepositoryManager.get_repositories]: the repositories of [trac.ini],
    from the [repository_dir] option and the [[repositories]] section. *)
Definition ini_reponames (repository_dir : string)
    (section : list (string * string)) : gmap string (gmap string pyval) :=
  let options := section.*1 in
  let reponames :=
    if nonempty repository_dir
    then {[ "" := {[ "dir" := PStr repository_dir ]} ]} else ∅ in
  let reponames := foldl gather_dir reponames options in
  let reponames := foldl (gather_alias section) reponames options in
  foldl (gather_detail section) reponames options.

Definition ini_get_repositories (repository_dir : string)
    (section : list (string * string)) : list (string * gmap string pyval) :=
  map_to_list (ini_reponames repository_dir section).


(** Where the directory and the alias of an entry of [trac.ini] come
    from. *)
Definition dir_origin (repository_dir : string)
    (section : list (string * string)) (name : string) (v : pyval) : Prop :=
  (name = "" ∧ nonempty repository_dir = true ∧ v = PStr repository_dir) ∨
  ((name +:+ ".dir") ∈ section.*1 ∧
   v = PStr (section_get section (name +:+ ".dir"))).

Definition alias_origin (section : list (string * string))
    (name target : string) : Prop :=
  ((name +:+ ".alias") ∈ section.*1 ∧
   target = section_get section (name +:+ ".alias")) ∨
  (name ∈ section.*1 ∧ has_dot name = false ∧
   target = section_get section name).

(** What holds of the dictionary being built by [get_repositories], the
    options of [pending] still awaiting the third pass. *)
Definition gathered (repository_dir : string)
    (section : list (string * string)) (pending : list string)
    (m : gmap string (gmap string pyval)) : Prop :=
  ∀ n info, m !! n = Some info →
    (eligible info ∨ (n +:+ ".dir") ∈ pending) ∧
    (∀ v, info !! "dir" = Some v → dir_origin repository_dir section n v) ∧
    (∀ t, info !! "alias" = Some t →
          ∃ w, t = PStr w ∧ is_Some (m !! w) ∧ alias_origin section n w).

(** ** Synchronisation on each request *)

Section request_filter.
Context {store : Type} `{!Backend store}.
Variable env : Env.




End request_filter.

(** ** Path checks of [AuthzSourcePolicy.check_permission] *)

(** The parsed authz file: module, then path, then user. *)
Abbreviation authz_rules := (gmap string (gmap string (gmap string bool))).

(** The user names a request is checked under. *)
Definition authz_usernames (username : string) : list string :=
  if String.eqb username "anonymous" then ["$anonymous"; "*"]
  else [username; "$authenticated"; "*"].

(** The modules looked at: [resource.parent.id or self.authz_module_name],
    then the global one unless the first is already it. *)
Definition authz_modules (parent_id authz_module_name : string)
    : list string :=
  let first := if nonempty parent_id then parent_id else authz_module_name in
  if nonempty first then [first; ""] else [first].

(** ['/' + join(repos.scope, path)], with a ['/'] appended unless it is
    ['/'] itself. *)
Definition scoped_path (scope path : string) : string :=
  let path := "/" +:+ authz_join [scope; path] in
  if String.eqb path "/" then path else path +:+ "/".

(** Some section of a path below [path] grants a user of [usernames]. *)
Definition allowed_below (authz : authz_rules) (modules usernames : list string)
    (path : string) : bool :=
  existsb (λ module,
    existsb (λ e : string * gmap string bool,
      startswith e.1 path &&
      existsb (λ user, bool_decide (e.2 !! user = Some true)) usernames)
      (map_to_list (default ∅ (authz !! module))))
    modules.

(** The first of [usernames] the section has an entry for decides. *)
Fixpoint section_result (section : gmap string bool) (usernames : list string)
    : option bool :=
  match usernames with
  | [] => None
  | user :: usernames' =>
      match section !! user with
      | Some result => Some result
      | None => section_result section usernames'
      end
  end.

Fixpoint modules_result (authz : authz_rules) (modules usernames : list string)
    (spath : string) : option bool :=
  match modules with
  | [] => None
  | module :: modules' =>
      let next := modules_result authz modules' usernames spath in
      match default ∅ (authz !! module) !! spath with
      | Some section =>
          if bool_decide (section ≠ ∅) then
            match section_result section usernames with
            | Some result => Some result
            | None => next
            end
          else next
      | None => next
      end
  end.

Fixpoint parents_result (authz : authz_rules) (modules usernames : list string)
    (spaths : list string) : option bool :=
  match spaths with
  | [] => None
  | spath :: spaths' =>
      match modules_result authz modules usernames spath with
      | Some result => Some result
      | None => parents_result authz modules usernames spaths'
      end
  end.

(** [check_path(path)]: [Some None] when the function falls off its end,
    [None] when the walk up the parent directories does not end within
    as many rounds as the path has characters. *)
Definition check_path (authz : authz_rules) (modules usernames : list string)
    (scope path : string) : option (option bool) :=
  let path := scoped_path scope path in
  if allowed_below authz modules usernames path then Some (Some true)
  else
    match parent_iter (String.length path) path with
    | Some spaths => Some (parents_result authz modules usernames spaths)
    | None => None
    end.

(** A rule of the file that applies to one of the users. *)
Definition authz_rule (authz : authz_rules) (modules usernames : list string)
    (spath : string) (result : bool) : Prop :=
  ∃ module paths section user,
    module ∈ modules ∧ user ∈ usernames ∧ authz !! module = Some paths ∧
    paths !! spath = Some section ∧ section !! user = Some result.

(** ** A sample installation *)

(** A backend that knows a list of revision numbers and learns nothing from
    a resync. *)
#[global] Instance sample_backend : Backend (list Z) := {|
  bk_open := λ _ _ _, [1; 2; 3]%Z;
  bk_sync := λ st, (Ok tt, st);
  bk_sync_changeset := λ _ st, (Ok None, st);
  bk_get_changeset := λ rev st,
    match rev with
    | PInt n =>
        if bool_decide (n ∈ st) then Ok (Changeset_init 0 rev None None 0)
        else Raise (NoSuchChangeset rev)
    | PStr _ => Raise (NoSuchChangeset rev)
    end
|}.

Definition svn_connector : Connector :=
  mkConnector [("svn", 1%Z)] "" (λ rtype rdir, rtype +:+ ":" +:+ rdir).

Definition hg_connector : Connector :=
  mkConnector [("hg", (-1)%Z)] "mercurial is not installed"
    (λ rtype rdir, rtype +:+ ":" +:+ rdir).

Definition quiet_listener : Listener := mkListener (λ _ _ _ _, None).

(** An environment with the two connectors, one listener, the entries of
    [trac.ini] given and the database provider after them. *)
Definition sample_env (ini : list (string * gmap string pyval)) : Env :=
  mkEnv [svn_connector; hg_connector] [StaticProvider ini; DbProvider]
    [quiet_listener] "svn" "/srv/trac" (path_join "/srv").

(** [A] is an alias of [B]; [B] has a directory and is itself an alias of
    [C], which is not defined. *)
Definition chained_ini : list (string * gmap string pyval) :=
  [("A", {["alias" := PStr "B"]});
   ("B", <["alias" := PStr "C"]> {["dir" := PStr "/path"]})].

(** [A] is an alias of [B], a repository; [hgrepo] is of a type whose only
    connector has a negative priority; [nodir] has no directory. *)
Definition plain_ini : list (string * gmap string pyval) :=
  [("A", {["alias" := PStr "B"]});
   ("B", {["dir" := PStr "/path"]});
   ("hgrepo", <["type" := PStr "hg"]> {["dir" := PStr "/hg"]});
   ("nodir", {["description" := PStr "nothing here"]})].

(* ================================================================== *)
(** * Properties *)

(** ** String helpers *)

Lemma is_name_row_spec reponame r :
  is_name_row reponame r = true ↔
  row_name r = "name" ∧ row_value r = Some reponame.
Proof.
  unfold is_name_row. rewrite andb_true_iff, String.eqb_eq.
  destruct (row_value r) as [v|]; [rewrite String.eqb_eq|];
    intuition congruence.
Qed.

(** ** Id allocation *)

Lemma foldl_max_le (l : list Z) (a : Z) :
  (a ≤ foldl Z.max a l)%Z ∧ ∀ x, x ∈ l → (x ≤ foldl Z.max a l)%Z.
Proof.
  revert a. induction l as [|y l IH]; intros a; simpl.
  - split; [lia|]. intros x Hx. inversion Hx.
  - destruct (IH (Z.max a y)) as [H1 H2]. split; [lia|].
    intros x Hx. apply elem_of_cons in Hx as [->|Hx]; [lia|]. by apply H2.
Qed.

Lemma coalesce_max_id_ge (t : table) (r : row) :
  r ∈ t → (row_id r ≤ coalesce_max_id t)%Z.
Proof.
  destruct t as [|r0 t]; [intros H; inversion H|].
  intros Hr. simpl. destruct (foldl_max_le (row_id <$> t) (row_id r0)) as [H1 H2].
  apply elem_of_cons in Hr as [->|Hr]; [done|].
  apply H2. by apply list_elem_of_fmap_2.
Qed.

Lemma select_id_elem (reponame : string) (t : table) (i : Z) :
  i ∈ select_id reponame t ↔
  ∃ r, r ∈ t ∧ is_name_row reponame r = true ∧ row_id r = i.
Proof.
  unfold select_id. rewrite list_elem_of_fmap. split.
  - intros (r & -> & Hr). apply list_elem_of_In, filter_In in Hr as [Hr Hb].
    exists r. by rewrite list_elem_of_In.
  - intros (r & Hr & Hb & <-). exists r. split; [done|].
    apply list_elem_of_In, filter_In. by rewrite <- list_elem_of_In.
Qed.

Lemma select_id_app (reponame : string) (t1 t2 : table) :
  select_id reponame (t1 ++ t2) = select_id reponame t1 ++ select_id reponame t2.
Proof. unfold select_id. by rewrite List.filter_app, fmap_app. Qed.

Lemma get_repository_id_found reponame t i l :
  select_id reponame t = i :: l → get_repository_id reponame t = (i, t).
Proof. unfold get_repository_id. by intros ->. Qed.

Lemma get_repository_id_fresh reponame t :
  select_id reponame t = [] →
  get_repository_id reponame t =
    ((coalesce_max_id t + 1)%Z,
     t ++ [Row (coalesce_max_id t + 1) "name" (Some reponame)]).
Proof. unfold get_repository_id. by intros ->. Qed.

Lemma is_name_row_new reponame i :
  is_name_row reponame (Row i "name" (Some reponame)) = true.
Proof. apply is_name_row_spec. done. Qed.

(** After a call the name is bound: the first matching row carries the id
    returned. *)
Lemma get_repository_id_bound reponame t :
  ∃ l, select_id reponame (get_repository_id reponame t).2
       = (get_repository_id reponame t).1 :: l.
Proof.
  unfold get_repository_id.
  destruct (select_id reponame t) as [|i l] eqn:E; simpl.
  - rewrite select_id_app, E. simpl. unfold select_id. simpl.
    rewrite is_name_row_new. simpl. by eexists.
  - rewrite E. by eexists.
Qed.

(** A call for any name keeps the binding of a name already bound. *)
Lemma get_repository_id_keeps reponame other t i l :
  select_id reponame t = i :: l →
  ∃ l', select_id reponame (get_repository_id other t).2 = i :: l'.
Proof.
  intros E. unfold get_repository_id.
  destruct (select_id other t); simpl; [|by eexists].
  rewrite select_id_app, E. simpl. by eexists.
Qed.

Lemma get_repository_ids_keeps names reponame t i l :
  select_id reponame t = i :: l →
  ∃ l', select_id reponame (get_repository_ids names t) = i :: l'.
Proof.
  revert t l. induction names as [|n names IH]; intros t l E; simpl.
  - by eexists.
  - destruct (get_repository_id_keeps reponame n t i l E) as [l' E'].
    by apply (IH _ l').
Qed.

Lemma name_rows_functional_nil : name_rows_functional [].
Proof. intros r1 r2 n1 n2 H. inversion H. Qed.

Lemma get_repository_id_functional reponame t :
  name_rows_functional t →
  name_rows_functional (get_repository_id reponame t).2.
Proof.
  intros Hf. unfold get_repository_id.
  destruct (select_id reponame t) as [|i l] eqn:E; simpl; [|done].
  intros r1 r2 n1 n2 H1 H2 Hn1 Hn2 Hid.
  apply elem_of_app in H1 as [H1|H1]; apply elem_of_app in H2 as [H2|H2].
  - by apply (Hf r1 r2).
  - apply list_elem_of_singleton in H2 as ->. simpl in Hid.
    pose proof (coalesce_max_id_ge t r1 H1). lia.
  - apply list_elem_of_singleton in H1 as ->. simpl in Hid.
    pose proof (coalesce_max_id_ge t r2 H2). lia.
  - apply list_elem_of_singleton in H1 as ->.
    apply list_elem_of_singleton in H2 as ->.
    apply is_name_row_spec in Hn1 as [_ Hn1].
    apply is_name_row_spec in Hn2 as [_ Hn2]. simpl in *. congruence.
Qed.

Lemma get_repository_id_elem reponame t :
  ∃ r, r ∈ (get_repository_id reponame t).2 ∧
       is_name_row reponame r = true ∧
       row_id r = (get_repository_id reponame t).1.
Proof.
  destruct (get_repository_id_bound reponame t) as [l E].
  apply (select_id_elem reponame). rewrite E. by left.
Qed.

Lemma get_repository_id_incl reponame t r :
  r ∈ t → r ∈ (get_repository_id reponame t).2.
Proof.
  unfold get_repository_id. destruct (select_id reponame t); simpl; [|done].
  intros H. apply elem_of_app. by left.
Qed.

(** C9: [get_repository_id] is idempotent and its allocation is stable.
    The first call for a name that has no [name] row returns one more than
    the current maximum id (zero for the empty table), an id no row carries
    yet, and stores it in a new [name] row; a later call with that name,
    after any number of calls for any names, returns the id of the first
    call and leaves the table as it is; and, in a table where no id carries
    two names, calls for two distinct names return distinct ids. *)
Theorem get_repository_id_stable :
  (∀ reponame t,
     select_id reponame t = [] →
     let '(i, t') := get_repository_id reponame t in
     i = (coalesce_max_id t + 1)%Z ∧
     (∀ r, r ∈ t → (row_id r < i)%Z) ∧
     t' = t ++ [Row i "name" (Some reponame)]) ∧
  (∀ reponame names t,
     let '(i, t1) := get_repository_id reponame t in
     let t2 := get_repository_ids names t1 in
     get_repository_id reponame t2 = (i, t2)) ∧
  (∀ n1 n2 t,
     name_rows_functional t → n1 ≠ n2 →
     let '(i1, t1) := get_repository_id n1 t in
     let '(i2, _) := get_repository_id n2 t1 in
     i1 ≠ i2).
Proof.
  split; [|split].
  - intros reponame t E. rewrite (get_repository_id_fresh _ _ E).
    split; [done|]. split; [|done].
    intros r Hr. pose proof (coalesce_max_id_ge t r Hr). lia.
  - intros reponame names t.
    destruct (get_repository_id reponame t) as [i t1] eqn:E.
    destruct (get_repository_id_bound reponame t) as [l Hl].
    rewrite E in Hl. simpl in Hl.
    destruct (get_repository_ids_keeps names reponame t1 i l Hl) as [l' Hl'].
    simpl. by apply (get_repository_id_found _ _ _ l').
  - intros n1 n2 t Hf Hne.
    destruct (get_repository_id n1 t) as [i1 t1] eqn:E1.
    destruct (get_repository_id n2 t1) as [i2 t2] eqn:E2.
    pose proof (get_repository_id_functional n1 t Hf) as Hf1.
    pose proof (get_repository_id_functional n2 (get_repository_id n1 t).2 Hf1) as Hf2.
    destruct (get_repository_id_elem n1 t) as (r1 & Hr1 & Hb1 & Hi1).
    destruct (get_repository_id_elem n2 (get_repository_id n1 t).2)
      as (r2 & Hr2 & Hb2 & Hi2).
    rewrite E1 in *. simpl in *. rewrite E2 in *. simpl in *.
    intros ->. apply Hne.
    apply (Hf2 r1 r2 n1 n2); [|done|done|done|congruence].
    pose proof (get_repository_id_incl n2 t1 r1 Hr1) as H. by rewrite E2 in H.
Qed.

Lemma get_repository_id_stable_witness :
  name_rows_functional [Row 4 "name" (Some "trunk")] ∧
  "trunk" ≠ "tags" ∧
  select_id "tags" [Row 4 "name" (Some "trunk")] = [] ∧
  (get_repository_id "tags" [Row 4 "name" (Some "trunk")]).1 = 5%Z.
Proof.
  pose proof get_repository_id_stable as (H1 & _ & H3).
  assert (Hf : name_rows_functional [Row 4 "name" (Some "trunk")]).
  { intros r1 r2 n1 n2 Hr1 Hr2 Hn1 Hn2 _.
    apply list_elem_of_singleton in Hr1 as ->.
    apply list_elem_of_singleton in Hr2 as ->.
    apply is_name_row_spec in Hn1 as [_ Hn1].
    apply is_name_row_spec in Hn2 as [_ Hn2]. simpl in *. congruence. }
  assert (Hne : "trunk" ≠ "tags") by discriminate.
  assert (He : select_id "tags" [Row 4 "name" (Some "trunk")] = []) by reflexivity.
  specialize (H1 "tags" _ He). specialize (H3 "trunk" "tags" _ Hf Hne).
  split; [exact Hf|]. split; [exact Hne|]. split; [exact He|].
  destruct (get_repository_id "tags" [Row 4 "name" (Some "trunk")]) as [i t'].
  destruct H1 as [-> _]. reflexivity.
Defined.

(** ** Changesets *)

(** C10: for every repository, revision and date, a [Changeset] constructed
    with a falsy message (or author), that is [None] or the empty string,
    has the empty string as its message (or author); a non-empty string is
    kept; and the two attributes always hold a string, never [None]. *)
Theorem Changeset_init_strings repos rev message author date :
  let c := Changeset_init repos rev message author date in
  (falsy message → cs_message c = Some "") ∧
  (falsy author → cs_author c = Some "") ∧
  (∀ s, message = Some s → cs_message c = Some s) ∧
  (∀ s, author = Some s → cs_author c = Some s) ∧
  cs_message c ≠ None ∧ cs_author c ≠ None.
Proof.
  simpl. repeat split; try done.
  - by intros [->| ->].
  - by intros [->| ->].
  - intros s ->. by destruct s.
  - intros s ->. by destruct s.
Qed.

Lemma Changeset_init_strings_witness :
  falsy None ∧
  cs_message (Changeset_init 0 (PInt 5) None (Some "joe") 0) = Some "" ∧
  cs_author (Changeset_init 0 (PInt 5) None (Some "joe") 0) = Some "joe".
Proof.
  pose proof (Changeset_init_strings 0 (PInt 5) None (Some "joe") 0)
    as (H1 & _ & _ & H4 & _).
  assert (Hf : falsy None) by (by left).
  split; [exact Hf|]. split; [exact (H1 Hf)|]. exact (H4 "joe" eq_refl).
Defined.

(** ** Path matching *)

#[global] Instance match_le_total : Total match_le.
Proof.
  intros [n1 s1] [n2 s2]. unfold match_le, match_leb. simpl.
  destruct (Nat.ltb_spec n1 n2); [by left|].
  destruct (Nat.ltb_spec n2 n1); [by right|].
  assert (n1 = n2) as -> by lia. rewrite Nat.eqb_refl. simpl.
  destruct (String.leb_total s1 s2) as [-> | ->]; [by left|by right].
Qed.

#[global] Instance match_le_trans : Transitive match_le.
Proof.
  intros [n1 s1] [n2 s2] [n3 s3]. unfold match_le, match_leb. simpl.
  intros H12 H23.
  apply Is_true_true, orb_true_iff in H12.
  apply Is_true_true, orb_true_iff in H23.
  apply Is_true_true, orb_true_iff.
  rewrite !andb_true_iff, !Nat.ltb_lt, !Nat.eqb_eq in *.
  destruct H12 as [H12|[-> H12]], H23 as [H23|[-> H23]]; try (left; lia).
  right. split; [done|].
  apply Is_true_true. apply Is_true_true in H12, H23.
  by apply (transitivity (R := String.le) H12).
Qed.

Lemma match_le_spec (a b : nat * string) :
  match_le a b ↔ a.1 < b.1 ∨ (a.1 = b.1 ∧ String.le a.2 b.2).
Proof.
  unfold match_le, match_leb, String.le.
  rewrite orb_True, andb_True, !Is_true_true, Nat.ltb_lt, Nat.eqb_eq.
  done.
Qed.

(** The last element of a sorted list is its greatest. *)
Lemma last_merge_sort_greatest (l : list (nat * string)) (x : nat * string) :
  last (merge_sort match_le l) = Some x →
  x ∈ l ∧ ∀ y, y ∈ l → match_le y x.
Proof.
  intros Hlast.
  pose proof (StronglySorted_merge_sort match_le l) as Hsorted.
  pose proof (merge_sort_Permutation match_le l) as Hperm.
  apply last_Some in Hlast as [l' Hl']. rewrite Hl' in Hsorted, Hperm.
  split.
  - rewrite <- Hperm. apply elem_of_app. right. by left.
  - intros y Hy. rewrite <- Hperm in Hy.
    apply elem_of_app in Hy as [Hy|Hy].
    + apply (StronglySorted_app_1_elem_of match_le l' [x]); [done|done|by left].
    + apply list_elem_of_singleton in Hy as ->.
      destruct (total match_le x x); done.
Qed.

Lemma path_matches_elem (npath : string) (names : list string) (m : nat * string) :
  m ∈ path_matches npath names ↔
  m.2 ∈ names ∧ startswith npath (stripped_reponame m.2) = true ∧
  m.1 = String.length (stripped_reponame m.2).
Proof.
  unfold path_matches. rewrite list_elem_of_fmap. split.
  - intros (n & -> & Hn). apply list_elem_of_In, filter_In in Hn as [Hn Hs].
    simpl. by rewrite list_elem_of_In.
  - intros (Hn & Hs & Hlen). exists m.2. split.
    + destruct m as [k n]. simpl in *. by rewrite Hlen.
    + apply list_elem_of_In, filter_In. by rewrite <- list_elem_of_In.
Qed.

(** What [split_repository_path] settles on. *)
Lemma split_repository_path_spec (names : list string) (path : string) :
  let npath := normalize_path path in
  let len n := String.length (stripped_reponame n) in
  let matching n := n ∈ names ∧ startswith npath (stripped_reponame n) = true in
  let reponame := (split_repository_path names path).1 in
  let rest := (split_repository_path names path).2 in
  ((∃ n, matching n) →
     matching reponame ∧
     (∀ n, matching n →
        len n < len reponame ∨ (len n = len reponame ∧ String.le n reponame)) ∧
     rest = rest_of_path (str_drop (len reponame) npath)) ∧
  ((∀ n, ¬ matching n) → reponame = "" ∧ rest = rest_of_path npath).
Proof.
  intros npath len matching reponame rest.
  subst reponame rest. unfold split_repository_path. fold npath.
  destruct (last (merge_sort match_le (path_matches npath names)))
    as [[k n0]|] eqn:Hlast.
  - apply last_merge_sort_greatest in Hlast as [Hin Hmax].
    apply path_matches_elem in Hin as (Hn0 & Hs0 & Hk). simpl in *.
    split.
    + intros _. split; [done|]. split; [|by rewrite Hk].
      intros n [Hn Hs].
      assert ((len n, n) ∈ path_matches npath names) as Hm.
      { by apply path_matches_elem. }
      apply Hmax, match_le_spec in Hm. simpl in Hm. by rewrite Hk in Hm.
    + intros Hnone. by destruct (Hnone n0).
  - simpl. split; [|done].
    intros [n [Hn Hs]].
    apply last_None in Hlast.
    assert ((len n, n) ∈ path_matches npath names) as Hm.
    { by apply path_matches_elem. }
    rewrite <- (merge_sort_Permutation match_le), Hlast in Hm. inversion Hm.
Qed.

(** ** The database provider *)

Lemma group_rows_snoc (t : table) (r : row) :
  group_rows (t ++ [r]) = group_row (group_rows t) r.
Proof. unfold group_rows. by rewrite foldl_app. Qed.

(** Every attribute of a grouped entry comes from a non-null row. *)
Lemma group_rows_sound (t : table) (i : Z) (info : gmap string pyval)
    (k : string) (v : pyval) :
  group_rows t !! i = Some info → info !! k = Some v →
  ∃ r w, r ∈ t ∧ row_id r = i ∧ row_name r = k ∧ row_value r = Some w ∧
         v = PStr w.
Proof.
  revert info. induction t as [|r t IH] using rev_ind; intros info.
  - unfold group_rows. simpl. by rewrite lookup_empty.
  - rewrite group_rows_snoc. unfold group_row.
    assert (∀ info', group_rows t !! i = Some info' → info' !! k = Some v →
              ∃ r0 w, r0 ∈ t ++ [r] ∧ row_id r0 = i ∧ row_name r0 = k ∧
                      row_value r0 = Some w ∧ v = PStr w) as IH'.
    { intros info' H1 H2. destruct (IH info' H1 H2) as (r0 & w & Hin & Hrest).
      exists r0, w. split; [|done]. apply elem_of_app. by left. }
    case_bool_decide as Hattr; [|apply IH'].
    destruct (row_value r) as [w|] eqn:Hw; [|apply IH'].
    destruct (decide (row_id r = i)) as [Hi|Hi].
    + rewrite Hi, lookup_insert_eq. intros [= <-].
      destruct (decide (row_name r = k)) as [Hk|Hk].
      * rewrite Hk, lookup_insert_eq. intros [= <-].
        exists r, w. split; [|done]. apply elem_of_app. right. by left.
      * rewrite lookup_insert_ne by done.
        destruct (group_rows t !! i) as [info'|] eqn:E; simpl.
        -- by apply IH'.
        -- by rewrite lookup_empty.
    + rewrite lookup_insert_ne by done. apply IH'.
Qed.

(** An attribute on which all the non-null rows of an id agree is found in
    the grouped entry of that id. *)
Lemma group_rows_complete (t : table) (r : row) (w : string) :
  r ∈ t → row_name r ∈ repository_attrs → row_value r = Some w →
  (∀ r' w', r' ∈ t → row_id r' = row_id r → row_name r' = row_name r →
            row_value r' = Some w' → w' = w) →
  ∃ info, group_rows t !! row_id r = Some info ∧
          info !! row_name r = Some (PStr w).
Proof.
  induction t as [|r0 t IH] using rev_ind; intros Hin Hattr Hw Hagree.
  - inversion Hin.
  - rewrite group_rows_snoc. unfold group_row.
    assert (r ∈ t →
            ∃ info, group_rows t !! row_id r = Some info ∧
                    info !! row_name r = Some (PStr w)) as IH'.
    { intros Hin'. apply IH; try done.
      intros r' w' Hr'. apply Hagree. apply elem_of_app. by left. }
    assert (r0 ∈ t ++ [r0]) as Hr0 by (apply elem_of_app; right; by left).
    apply elem_of_app in Hin as [Hin|Hin].
    + destruct (IH' Hin) as (info & Hinfo & Hk).
      case_bool_decide as Hattr0; [|by exists info].
      destruct (row_value r0) as [w0|] eqn:Hw0; [|by exists info].
      destruct (decide (row_id r0 = row_id r)) as [Hi|Hi].
      * rewrite Hi, lookup_insert_eq, Hinfo. simpl. eexists. split; [done|].
        destruct (decide (row_name r0 = row_name r)) as [Hn|Hn].
        -- rewrite Hn, lookup_insert_eq.
           by rewrite (Hagree r0 w0 Hr0 Hi Hn Hw0).
        -- by rewrite lookup_insert_ne.
      * rewrite lookup_insert_ne by done. by exists info.
    + apply list_elem_of_singleton in Hin as ->.
      rewrite bool_decide_eq_true_2 by done. rewrite Hw.
      rewrite lookup_insert_eq. eexists. split; [done|].
      by rewrite lookup_insert_eq.
Qed.







(** ** Merging the providers *)










(** ** The registry *)

Section manager_facts.
Context {store : Type} `{!Backend store}.
Variable env : Env.

Implicit Types s : State store.

Lemma or_empty_Some (n : string) : or_empty (Some n) = n.
Proof. by destruct n. Qed.

Lemma state_eta s :
  mkState (db s) (_cache s) (_connectors s) (_all_repositories s)
    (heap s) (calls s) = s.
Proof. by destruct s. Qed.

(** The first lookup of the registry settles it. *)
Lemma get_all_repositories_first s :
  ∃ t, get_all_repositories env s =
         (Ok (registry_in env s),
          mkState t (_cache s) (_connectors s)
            (Some (registry_in env s)) (heap s) (calls s)).
Proof.
  unfold registry_in, get_all_repositories.
  destruct (_all_repositories s) as [all|] eqn:E.
  - case_bool_decide as Hall.
    + destruct (collect_repositories (providers env) (db s)) as [a t].
      simpl. by exists t.
    + simpl. exists (db s). f_equal. rewrite <- E. symmetry. apply state_eta.
  - destruct (collect_repositories (providers env) (db s)) as [a t].
    simpl. by exists t.
Qed.

(** A settled, non-empty registry is returned as it is. *)
Lemma get_all_repositories_again s all :
  _all_repositories s = Some all → all ≠ ∅ →
  get_all_repositories env s = (Ok all, s).
Proof.
  intros E Hne. unfold get_all_repositories. rewrite E.
  by rewrite bool_decide_eq_false_2.
Qed.

Lemma settled_fields s :
  _cache (settled env s) = _cache s ∧
  _connectors (settled env s) = _connectors s ∧
  heap (settled env s) = heap s ∧ calls (settled env s) = calls s ∧
  _all_repositories (settled env s) = Some (registry_in env s).
Proof.
  unfold settled. destruct (get_all_repositories_first s) as [t ->].
  by simpl.
Qed.

Lemma get_all_repositories_settled s :
  get_all_repositories env s = (Ok (registry_in env s), settled env s).
Proof.
  unfold settled. destruct (get_all_repositories_first s) as [t E].
  by rewrite E.
Qed.

Lemma get_all_repositories_settled_again s reponame info :
  registry_in env s !! reponame = Some info →
  get_all_repositories env (settled env s)
  = (Ok (registry_in env s), settled env s).
Proof.
  intros Hin. apply get_all_repositories_again.
  - apply settled_fields.
  - intros Hempty. rewrite Hempty in Hin. by rewrite lookup_empty in Hin.
Qed.

Lemma get_repository_resolved tid reponame s :
  get_repository env tid (Some reponame) s =
  lookup_resolved env tid (resolve_alias (registry_in env s) reponame)
    (settled env s).
Proof.
  unfold get_repository, bind. rewrite or_empty_Some.
  rewrite get_all_repositories_settled.
  unfold resolve_alias, lookup_resolved.
  destruct (registry_in env s !! reponame) as [info|] eqn:Hin; simpl.
  - destruct (info !! "alias") as [[target|n]|] eqn:Ha; simpl.
    + by rewrite (get_all_repositories_settled_again s reponame info Hin).
    + rewrite (get_all_repositories_settled_again s reponame info Hin).
      by rewrite lookup_empty.
    + done.
  - by rewrite lookup_empty.
Qed.

(** C4: when the name is absent from the registry, or its entry, an alias
    being followed once, has no ['dir'] attribute, [get_repository]
    returns [None]: it does not raise, and no repository object is
    constructed or cached. *)
Theorem get_repository_no_dir tid (reponame : string) s :
  registry_in env s !! reponame = None ∨
  (resolve_alias (registry_in env s) reponame).2 !! "dir" = None →
  (get_repository env tid (Some reponame) s).1 = Ok None ∧
  heap (get_repository env tid (Some reponame) s).2 = heap s ∧
  _cache (get_repository env tid (Some reponame) s).2 = _cache s.
Proof.
  intros Hno.
  assert ((resolve_alias (registry_in env s) reponame).2 !! "dir" = None)
    as Hdir.
  { destruct Hno as [Habs|Hdir]; [|done].
    unfold resolve_alias. rewrite Habs. simpl. by rewrite lookup_empty. }
  rewrite get_repository_resolved. unfold lookup_resolved. rewrite Hdir.
  simpl. destruct (settled_fields s) as (Hc & _ & Hh & _).
  by rewrite Hc, Hh.
Qed.

(** *** Lookup by path *)

Lemma elem_of_keys (all : gmap string (gmap string pyval)) (n : string) :
  n ∈ (map_to_list all).*1 ↔ is_Some (all !! n).
Proof.
  rewrite list_elem_of_fmap. split.
  - intros ([n' info] & -> & Hin). apply elem_of_map_to_list in Hin.
    by exists info.
  - intros [info Hin]. exists (n, info). split; [done|].
    by apply elem_of_map_to_list.
Qed.

(** C2 (as amended): [get_repository_by_path(path)] looks up the
    repository of the name it selects and returns that name with the
    remainder of the path. A registered name matches when its
    slash-stripped form followed by ['/'] is a prefix of the normalised
    path (the slash-stripped path followed by ['/']), that is, when it is
    a prefix made of whole path components. If some registered name
    matches, the name selected is a matching one whose stripped form is of
    greatest length, the greatest name in lexicographic order among those
    of equal stripped length, and the remainder is the normalised path
    after that prefix, without its trailing slashes (['/'] if nothing is
    left); if none matches, the name is [''] and the remainder the whole
    path. With exactly [""] and ["sub"] registered, ["sub/foo"] yields
    ["sub"] and ["foo"]. *)
Theorem get_repository_by_path_longest tid (path : string) s :
  let registered n := is_Some (registry_in env s !! n) in
  let npath := normalize_path path in
  let len n := String.length (stripped_reponame n) in
  let matching n :=
    registered n ∧ startswith npath (stripped_reponame n) = true in
  let sel := split_repository_path (map_to_list (registry_in env s)).*1 path in
  get_repository_by_path env tid path s
  = bind (get_repository env tid (Some sel.1))
      (λ repos, ret (sel.1, repos, sel.2)) (settled env s) ∧
  ((∃ n, matching n) →
     matching sel.1 ∧
     (∀ n, matching n →
        len n < len sel.1 ∨ (len n = len sel.1 ∧ String.le n sel.1)) ∧
     sel.2 = rest_of_path (str_drop (len sel.1) npath)) ∧
  ((∀ n, ¬ matching n) → sel.1 = "" ∧ sel.2 = rest_of_path npath) ∧
  ((∀ n, registered n ↔ n = "" ∨ n = "sub") →
     path = "sub/foo" → sel = ("sub", "foo")).
Proof.
  intros registered npath len matching sel.
  pose proof (split_repository_path_spec
                (map_to_list (registry_in env s)).*1 path) as Hspec.
  simpl in Hspec. fold npath sel in Hspec.
  assert (∀ n, (n ∈ (map_to_list (registry_in env s)).*1 ∧
                startswith npath (stripped_reponame n) = true) ↔ matching n)
    as Hmatch.
  { intros n. unfold matching, registered. by rewrite elem_of_keys. }
  destruct Hspec as [Hsome Hnone].
  assert ((∃ n, matching n) →
          matching sel.1 ∧
          (∀ n, matching n →
             len n < len sel.1 ∨ (len n = len sel.1 ∧ String.le n sel.1)) ∧
          sel.2 = rest_of_path (str_drop (len sel.1) npath)) as Hsome'.
  { intros [n Hn]. destruct Hsome as (H1 & H2 & H3).
    { exists n. by apply Hmatch. }
    split; [by apply Hmatch|]. split; [|done].
    intros n' Hn'. apply H2. by apply Hmatch. }
  split; [|split; [done|split]].
  - unfold get_repository_by_path, bind.
    rewrite get_all_repositories_settled. fold sel.
    by destruct sel as [reponame rest].
  - intros Hno. apply Hnone. intros n Hn. apply (Hno n). by apply Hmatch.
  - intros Hreg Hpath.
    destruct Hsome' as ([Hr Hs] & _ & Hrest).
    { exists "sub". split; [apply Hreg; by right|].
      unfold npath. by rewrite Hpath. }
    apply Hreg in Hr as [Hr|Hr].
    + rewrite Hr in Hs. unfold npath in Hs. rewrite Hpath in Hs.
      by vm_compute in Hs.
    + destruct sel as [reponame rest]. simpl in *. rewrite Hrest, Hr.
      unfold npath. rewrite Hpath. by vm_compute.
Qed.

(** *** Connectors *)

Lemma keep_connector_sound c tbl tps (P : string → Connector → Z → Prop) :
  (∀ t c' p, tbl !! t = Some (c', p) → P t c' p) →
  (∀ t p, (t, p) ∈ tps → P t c p) →
  ∀ t c' p, foldl (keep_connector c) tbl tps !! t = Some (c', p) → P t c' p.
Proof.
  revert tbl. induction tps as [|[t0 p0] tps IH]; intros tbl Htbl Htps; simpl.
  - done.
  - apply IH.
    + intros t c' p. unfold keep_connector.
      destruct (tbl !! t0) as [[c1 p1]|] eqn:E.
      * destruct (p0 <=? p1)%Z; [apply Htbl|].
        destruct (decide (t0 = t)) as [->|Hne].
        -- rewrite lookup_insert_eq. intros [= <- <-]. apply Htps. by left.
        -- rewrite lookup_insert_ne by done. apply Htbl.
      * destruct (decide (t0 = t)) as [->|Hne].
        -- rewrite lookup_insert_eq. intros [= <- <-]. apply Htps. by left.
        -- rewrite lookup_insert_ne by done. apply Htbl.
    + intros t p Hin. apply Htps. by right.
Qed.

Lemma build_connectors_sound cs t c p :
  build_connectors cs !! t = Some (c, p) →
  c ∈ cs ∧ (t, p) ∈ conn_types c.
Proof.
  unfold build_connectors.
  assert (∀ tbl,
    (∀ t c p, tbl !! t = Some (c, p) → c ∈ cs ∧ (t, p) ∈ conn_types c) →
    ∀ l, l ⊆ cs →
    ∀ t c p,
      foldl (λ tbl c, foldl (keep_connector c) tbl (conn_types c)) tbl l !! t
      = Some (c, p) → c ∈ cs ∧ (t, p) ∈ conn_types c) as Hgen.
  { intros tbl Htbl l. revert tbl Htbl.
    induction l as [|c0 l IH]; intros tbl Htbl Hl; simpl; [done|].
    apply IH.
    - apply (keep_connector_sound c0 tbl (conn_types c0)
               (λ t c p, c ∈ cs ∧ (t, p) ∈ conn_types c)); [done|].
      intros t' p' Hin. split; [|done]. apply Hl. by left.
    - intros x Hx. apply Hl. by right. }
  apply (Hgen ∅); [|done]. intros t' c' p'. by rewrite lookup_empty.
Qed.

Lemma keep_connector_mono c tps tbl t c1 p1 :
  tbl !! t = Some (c1, p1) →
  ∃ c2 p2, foldl (keep_connector c) tbl tps !! t = Some (c2, p2)
           ∧ (p1 ≤ p2)%Z.
Proof.
  revert tbl c1 p1. induction tps as [|[t1 q1] tps IH]; intros tbl c1 p1 E.
  - exists c1, p1. by split.
  - simpl.
    assert (∃ c2 p2, keep_connector c tbl (t1, q1) !! t = Some (c2, p2)
                     ∧ (p1 ≤ p2)%Z) as (c2 & p2 & E2 & Hle).
    { unfold keep_connector. destruct (decide (t1 = t)) as [->|Hne].
      - rewrite E. destruct (q1 <=? p1)%Z eqn:Hcmp.
        + exists c1, p1. by split.
        + exists c, q1. rewrite lookup_insert_eq. split; [done|]. lia.
      - destruct (tbl !! t1) as [[c3 p3]|].
        + destruct (q1 <=? p3)%Z.
          * exists c1, p1. by split.
          * exists c1, p1. by rewrite lookup_insert_ne.
        + exists c1, p1. by rewrite lookup_insert_ne. }
    destruct (IH _ c2 p2 E2) as (c3 & p3 & E3 & Hle3).
    exists c3, p3. split; [done|]. lia.
Qed.

Lemma keep_connector_complete c tps tbl t p :
  (t, p) ∈ tps →
  ∃ c2 p2, foldl (keep_connector c) tbl tps !! t = Some (c2, p2)
           ∧ (p ≤ p2)%Z.
Proof.
  revert tbl. induction tps as [|[t1 q1] tps IH]; intros tbl Hin.
  - inversion Hin.
  - simpl. apply elem_of_cons in Hin as [[= <- <-]|Hin]; [|by apply IH].
    assert (∃ c2 p2, keep_connector c tbl (t, p) !! t = Some (c2, p2)
                     ∧ (p ≤ p2)%Z) as (c2 & p2 & E2 & Hle).
    { unfold keep_connector. destruct (tbl !! t) as [[c3 p3]|] eqn:E.
      - destruct (p <=? p3)%Z eqn:Hcmp.
        + exists c3, p3. split; [done|]. lia.
        + exists c, p. by rewrite lookup_insert_eq.
      - exists c, p. by rewrite lookup_insert_eq. }
    destruct (keep_connector_mono c tps _ t c2 p2 E2) as (c3 & p3 & E3 & Hle3).
    exists c3, p3. split; [done|]. lia.
Qed.

Lemma build_connectors_complete cs c t p :
  c ∈ cs → (t, p) ∈ conn_types c →
  ∃ c2 p2, build_connectors cs !! t = Some (c2, p2) ∧ (p ≤ p2)%Z.
Proof.
  unfold build_connectors. generalize (∅ : gmap string (Connector * Z)).
  induction cs as [|c0 cs IH]; intros tbl Hc Ht; [inversion Hc|].
  simpl. apply elem_of_cons in Hc as [->|Hc]; [|by apply IH].
  destruct (keep_connector_complete c0 (conn_types c0) tbl t p Ht)
    as (c2 & p2 & E2 & Hle).
  clear IH. revert E2. generalize (foldl (keep_connector c0) tbl (conn_types c0)).
  revert c2 p2 Hle. induction cs as [|c1 cs IH]; intros c2 p2 Hle tbl' E2.
  - exists c2, p2. by split.
  - simpl.
    destruct (keep_connector_mono c1 (conn_types c1) tbl' t c2 p2 E2)
      as (c3 & p3 & E3 & Hle3).
    apply (IH c3 p3); [lia|done].
Qed.

(** The connector table consulted in state [s]. *)
Lemma _get_connector_settled s (rtype : string) :
  connectors_settled env s →
  _get_connector env (PStr rtype) s =
    (match build_connectors (connectors env) !! rtype with
     | Some (connector, prio) =>
         if (0 <=? prio)%Z then Ok connector
         else Raise (TracError (unsupported_message (PStr rtype)
                                  (conn_error connector)))
     | None =>
         Raise (TracError (unsupported_message (PStr rtype) no_component))
     end,
     set_connectors (Some (build_connectors (connectors env))) s).
Proof.
  intros Hs. unfold _get_connector.
  assert (match _connectors s with
          | Some tbl => tbl
          | None => build_connectors (connectors env)
          end = build_connectors (connectors env)) as ->.
  { destruct (_connectors s) as [tbl|] eqn:E; [by apply Hs|done]. }
  destruct (build_connectors (connectors env) !! rtype) as [[c p]|]; [|done].
  by destruct (0 <=? p)%Z.
Qed.

Lemma _get_connector_unusable s (rtype : pyval) :
  connectors_settled env s →
  (∀ t, rtype = PStr t → ¬ usable_connector env t) →
  ∃ error,
    _get_connector env rtype s =
      (Raise (TracError (unsupported_message rtype error)),
       set_connectors (Some (build_connectors (connectors env))) s).
Proof.
  intros Hs Hun. destruct rtype as [t|n].
  - rewrite (_get_connector_settled s t Hs).
    destruct (build_connectors (connectors env) !! t) as [[c p]|] eqn:E.
    + destruct (0 <=? p)%Z eqn:Hp; [|by eexists].
      exfalso. apply (Hun t eq_refl).
      apply build_connectors_sound in E as [Hc Ht].
      exists c, p. repeat split; [done|done|lia].
    + by eexists.
  - unfold _get_connector.
    assert (match _connectors s with
            | Some tbl => tbl
            | None => build_connectors (connectors env)
            end = build_connectors (connectors env)) as ->.
    { destruct (_connectors s) as [tbl|] eqn:E; [by apply Hs|done]. }
    by eexists.
Qed.

Lemma _get_connector_usable s (rtype : string) :
  connectors_settled env s → usable_connector env rtype →
  ∃ connector,
    _get_connector env (PStr rtype) s =
      (Ok connector,
       set_connectors (Some (build_connectors (connectors env))) s).
Proof.
  intros Hs (c & p & Hc & Ht & Hp).
  rewrite (_get_connector_settled s rtype Hs).
  destruct (build_connectors_complete _ c rtype p Hc Ht) as (c2 & p2 & E & Hle).
  rewrite E. exists c2.
  destruct (0 <=? p2)%Z eqn:Hp2; [done|lia].
Qed.

(** *** The thread-level cache *)

Lemma truthy_PStr (d : string) : d ≠ "" → truthy (PStr d) = true.
Proof. by destruct d. Qed.

Lemma cached_repository_hit tid reponame repoinfo rdir rtype s h :
  default ∅ (_cache s !! tid) !! reponame = Some h →
  cached_repository env tid reponame repoinfo rdir rtype s = (Ok (Some h), s).
Proof.
  intros Hh. unfold cached_repository. rewrite Hh. f_equal.
  destruct (_cache s !! tid) as [m|] eqn:E.
  - simpl. unfold set_cache. rewrite insert_id by done. apply state_eta.
  - simpl in Hh. by rewrite lookup_empty in Hh.
Qed.

(** The state in which a cache miss goes on to look for a connector. *)
Lemma cached_repository_miss tid reponame repoinfo (rdir : string) rtype s :
  default ∅ (_cache s !! tid) !! reponame = None →
  cached_repository env tid reponame repoinfo (PStr rdir) rtype s =
  bind (_get_connector env rtype)
    (λ connector,
       bind (connector_get_repository connector (py_str rtype)
               (if isabs rdir then rdir else path_join (env_path env) rdir)
               repoinfo)
         (λ repos s0,
            (Ok (Some repos),
             set_cache (<[tid := <[reponame := repos]>
                                   (default ∅ (_cache s0 !! tid))]>
                          (_cache s0)) s0)))
    (set_cache (<[tid := default ∅ (_cache s !! tid)]> (_cache s)) s).
Proof. intros Hmiss. unfold cached_repository. by rewrite Hmiss. Qed.

Lemma unsupported_outcome tid (reponame rdir : string) s :
  let target := resolve_alias (registry_in env s) reponame in
  connectors_settled env s →
  target.2 !! "dir" = Some (PStr rdir) → rdir ≠ "" →
  default ∅ (_cache s !! tid) !! target.1 = None →
  (∀ t, effective_type env target.2 = PStr t → ¬ usable_connector env t) →
  ∃ error,
    get_repository env tid (Some reponame) s =
    (Raise (TracError
              (unsupported_message (effective_type env target.2) error)),
     set_connectors (Some (build_connectors (connectors env)))
       (set_cache (<[tid := default ∅ (_cache s !! tid)]> (_cache s))
          (settled env s))).
Proof.
  intros target Hs Hdir Hne Hmiss Hun.
  rewrite get_repository_resolved. fold target.
  unfold lookup_resolved. rewrite Hdir, (truthy_PStr rdir Hne).
  destruct (settled_fields s) as (Hc & Hcn & Hh & _ & _).
  rewrite cached_repository_miss by (by rewrite Hc).
  rewrite Hc.
  set (s1 := set_cache _ (settled env s)).
  assert (connectors_settled env s1) as Hs1.
  { intros tbl. unfold s1. simpl. rewrite Hcn. apply Hs. }
  destruct (_get_connector_unusable s1 (effective_type env target.2) Hs1 Hun)
    as [error Herr].
  exists error. unfold bind. by rewrite Herr.
Qed.

(** C8: when the type in force for the repository a name resolves to has
    no registered connector, or only connectors of negative priority,
    [get_repository] raises a [TracError] whose message carries that type
    name; no repository object is constructed or cached. The name is
    taken to resolve to an entry with a directory and to have no object
    cached for the calling thread, the connector table being the one
    built from the registered connectors. *)
Theorem get_repository_unsupported tid (reponame rdir : string) s :
  let target := resolve_alias (registry_in env s) reponame in
  let outcome := get_repository env tid (Some reponame) s in
  connectors_settled env s →
  target.2 !! "dir" = Some (PStr rdir) → rdir ≠ "" →
  default ∅ (_cache s !! tid) !! target.1 = None →
  (∀ t, effective_type env target.2 = PStr t → ¬ usable_connector env t) →
  ∃ error,
    outcome.1 = Raise (TracError
                  (unsupported_message (effective_type env target.2) error)) ∧
    (∃ pre post,
       unsupported_message (effective_type env target.2) error
       = pre +:+ py_str (effective_type env target.2) +:+ post) ∧
    heap outcome.2 = heap s ∧
    (∀ name, default ∅ (_cache outcome.2 !! tid) !! name
             = default ∅ (_cache s !! tid) !! name).
Proof.
  intros target outcome Hs Hdir Hne Hmiss Hun. subst outcome.
  destruct (unsupported_outcome tid reponame rdir s
              Hs Hdir Hne Hmiss Hun) as [error ->].
  destruct (settled_fields s) as (Hc & Hcn & Hh & _ & _).
  exists error. simpl. split; [done|]. split.
  - by exists ("Unsupported version control system " +:+ dquote),
             (dquote +:+ ": " +:+ error).
  - split; [done|]. intros name. by rewrite lookup_insert_eq.
Qed.

(** What a cache miss leaves behind: an error and no object, or a new
    object at the end of the heap, cached under the name. *)
Lemma cached_repository_miss_inv tid reponame repoinfo (rdir : string)
    rtype s res s1 :
  default ∅ (_cache s !! tid) !! reponame = None →
  cached_repository env tid reponame repoinfo (PStr rdir) rtype s = (res, s1) →
  db s1 = db s ∧ _all_repositories s1 = _all_repositories s ∧
  calls s1 = calls s ∧
  ((∃ e, res = Raise e ∧ heap s1 = heap s ∧
         _cache s1 = <[tid := default ∅ (_cache s !! tid)]> (_cache s)) ∨
   (∃ c r, res = Ok (Some (length (heap s))) ∧ heap s1 = heap s ++ [r] ∧
           Repository_init
             (conn_repos_name c (py_str rtype)
                (if isabs rdir then rdir else path_join (env_path env) rdir))
             repoinfo
             (bk_open (py_str rtype)
                (if isabs rdir then rdir else path_join (env_path env) rdir)
                repoinfo) = Ok r ∧
           (_get_connector env rtype
              (set_cache (<[tid := default ∅ (_cache s !! tid)]> (_cache s)) s)).1
           = Ok c ∧
           _cache s1 = <[tid := <[reponame := length (heap s)]>
                                  (default ∅ (_cache s !! tid))]> (_cache s))).
Proof.
  intros Hmiss. rewrite (cached_repository_miss _ _ _ _ _ _ Hmiss).
  unfold bind. set (s0 := set_cache _ s).
  assert (∃ tbl, (_get_connector env rtype s0).2 = set_connectors (Some tbl) s0)
    as [tbl Htbl].
  { unfold _get_connector.
    exists (match _connectors s0 with
            | Some tbl => tbl
            | None => build_connectors (connectors env)
            end).
    destruct rtype as [t|n]; simpl; [|done].
    destruct (_ !! t) as [[c p]|]; [|done]. by destruct (0 <=? p)%Z. }
  destruct (_get_connector env rtype s0) as [[c|e] s2] eqn:Hget;
    simpl in Htbl; subst s2.
  - unfold connector_get_repository.
    destruct (Repository_init _ repoinfo _) as [r|e] eqn:Hinit.
    + intros [= <- <-]. simpl. repeat split; try done.
      right. exists c, r. repeat split; try done.
      rewrite lookup_insert_eq. simpl. by rewrite insert_insert_eq.
    + intros [= <- <-]. simpl. repeat split; try done. left. by exists e.
  - intros [= <- <-]. simpl. repeat split; try done. left. by exists e.
Qed.

Lemma registry_in_settled s all :
  _all_repositories s = Some all → all ≠ ∅ →
  registry_in env s = all ∧ settled env s = s.
Proof.
  intros E Hne. unfold registry_in, settled.
  by rewrite (get_all_repositories_again s all E Hne).
Qed.

Lemma registry_in_nonempty s reponame info :
  registry_in env s !! reponame = Some info → registry_in env s ≠ ∅.
Proof. intros Hin Hempty. rewrite Hempty in Hin. by rewrite lookup_empty in Hin. Qed.

(** Once a lookup of a name with a directory has returned, it returned an
    object, and any name resolving to the same target returns that object
    from then on, the state staying as it is. *)
Lemma lookup_resolved_returns tid target info (rdir : string) s h s1 :
  registry_in env s !! target = Some info →
  info !! "dir" = Some (PStr rdir) → rdir ≠ "" →
  lookup_resolved env tid (target, info) (settled env s) = (Ok h, s1) →
  is_Some h ∧
  registry_in env s1 = registry_in env s ∧ settled env s1 = s1 ∧
  lookup_resolved env tid (target, info) s1 = (Ok h, s1).
Proof.
  intros Hin Hdir Hne. unfold lookup_resolved. simpl.
  rewrite Hdir, (truthy_PStr rdir Hne).
  destruct (settled_fields s) as (Hc & Hcn & Hh & Hcl & Hall).
  pose proof (registry_in_nonempty s target info Hin) as Hreg.
  destruct (default ∅ (_cache (settled env s) !! tid) !! target) as [h0|] eqn:E.
  - rewrite (cached_repository_hit _ _ _ _ _ _ h0 E). intros [= <- <-].
    destruct (registry_in_settled (settled env s) _ Hall Hreg) as [-> ->].
    split; [by eexists|]. split; [done|]. split; [done|].
    by apply cached_repository_hit.
  - intros Hrun.
    destruct (cached_repository_miss_inv _ _ _ _ _ _ _ _ E Hrun)
      as (Hdb & Hall1 & _ & [(e & [=] & _)|(c & r & [= ->] & _ & _ & _ & Hcache)]).
    rewrite Hall in Hall1.
    destruct (registry_in_settled s1 _ Hall1 Hreg) as [-> ->].
    split; [by eexists|]. split; [done|]. split; [done|].
    apply cached_repository_hit. rewrite Hcache, lookup_insert_eq. simpl.
    by rewrite lookup_insert_eq.
Qed.

(** C1 (as amended): in a registry where [A] has [alias = B] and [B] has
    a directory and no alias of its own, [get_repository('A')] and
    [get_repository('B')] have the same outcome from every state, and
    once either has returned, it returned a repository object and both
    return that same object to the calling thread from then on: the alias
    is followed once and the cache is keyed by the resolved name. *)
Theorem get_repository_alias tid (A B rdir : string) infoA infoB s :
  registry_in env s !! A = Some infoA → infoA !! "alias" = Some (PStr B) →
  registry_in env s !! B = Some infoB →
  infoB !! "dir" = Some (PStr rdir) → rdir ≠ "" →
  infoB !! "alias" = None →
  get_repository env tid (Some A) s = get_repository env tid (Some B) s ∧
  ∀ h s1,
    get_repository env tid (Some A) s = (Ok h, s1) →
    is_Some h ∧
    get_repository env tid (Some A) s1 = (Ok h, s1) ∧
    get_repository env tid (Some B) s1 = (Ok h, s1).
Proof.
  intros HA Halias HB Hdir Hne Hnoalias.
  assert (resolve_alias (registry_in env s) A = (B, infoB)) as HrA.
  { unfold resolve_alias. rewrite HA. simpl. rewrite Halias.
    by rewrite HB. }
  assert (resolve_alias (registry_in env s) B = (B, infoB)) as HrB.
  { unfold resolve_alias. rewrite HB. simpl. by rewrite Hnoalias. }
  split.
  - by rewrite !get_repository_resolved, HrA, HrB.
  - intros h s1. rewrite get_repository_resolved, HrA. intros Hrun.
    destruct (lookup_resolved_returns tid B infoB rdir s h s1 HB Hdir Hne Hrun)
      as (Hsome & Hreg & Hset & Hagain).
    split; [done|].
    by rewrite !get_repository_resolved, Hreg, Hset, HrA, HrB.
Qed.

(** *** Adding a repository *)


Lemma supported_types_usable (type_ : string) :
  type_ ∈ supported_types (connectors env) → usable_connector env type_.
Proof.
  unfold supported_types. rewrite elem_of_list_to_set.
  intros Hin. apply list_elem_of_bind in Hin as (c & Hin & Hc).
  apply list_elem_of_bind in Hin as ([t p] & Hin & Htp). simpl in Hin.
  destruct (0 <=? p)%Z eqn:Hp; [|inversion Hin].
  apply list_elem_of_singleton in Hin as ->.
  exists c, p. repeat split; [done|done|lia].
Qed.




(** *** Shutdown *)

Lemma close_repository_fields s h :
  _cache (close_repository s h) = _cache s ∧
  length (heap (close_repository s h)) = length (heap s).
Proof. unfold close_repository. simpl. by rewrite length_alter. Qed.

Lemma close_repository_closes s h : closed_at (close_repository s h) h.
Proof.
  intros r. unfold close_repository. simpl. rewrite list_lookup_alter_eq.
  destruct (heap s !! h) as [r0|]; simpl; [|done]. by intros [= <-].
Qed.

Lemma close_repository_keeps s h h' :
  closed_at s h → closed_at (close_repository s h') h.
Proof.
  intros Hc. destruct (decide (h' = h)) as [->|Hne].
  - apply close_repository_closes.
  - intros r. unfold close_repository. simpl.
    rewrite list_lookup_alter_ne by done. apply Hc.
Qed.

Lemma close_all_closes hs s h :
  h ∈ hs ∨ closed_at s h → closed_at (foldl close_repository s hs) h.
Proof.
  revert s. induction hs as [|h0 hs IH]; intros s Hh; simpl.
  - destruct Hh as [Hh|Hh]; [inversion Hh|done].
  - apply IH. destruct Hh as [Hh|Hh].
    + apply elem_of_cons in Hh as [->|Hh]; [|by left].
      right. apply close_repository_closes.
    + right. by apply close_repository_keeps.
Qed.

Lemma close_all_fields hs s :
  _cache (foldl close_repository s hs) = _cache s ∧
  length (heap (foldl close_repository s hs)) = length (heap s).
Proof.
  revert s. induction hs as [|h0 hs IH]; intros s; simpl; [done|].
  destruct (IH (close_repository s h0)) as [-> ->].
  apply close_repository_fields.
Qed.

Lemma cached_repository_hit_only tid reponame repoinfo (n : Z) rtype s :
  default ∅ (_cache s !! tid) !! reponame = None →
  cached_repository env tid reponame repoinfo (PInt n) rtype s =
  (Raise TypeError,
   set_cache (<[tid := default ∅ (_cache s !! tid)]> (_cache s)) s).
Proof. intros Hmiss. unfold cached_repository. by rewrite Hmiss. Qed.

Lemma Repository_init_open name params (st : store) (r : Repository store) :
  Repository_init name params st = Ok r → repo_closed r = false.
Proof.
  unfold Repository_init. destruct (params !! "name"); [|done].
  destruct (params !! "id"); [|done]. by intros [= <-].
Qed.

Lemma made_since_touch tid n0 s s1 :
  made_since tid n0 s →
  heap s1 = heap s →
  _cache s1 = _cache s ∨
  _cache s1 = <[tid := default ∅ (_cache s !! tid)]> (_cache s) →
  made_since tid n0 s1.
Proof.
  intros (H1 & H2 & H3) Hh Hc. unfold made_since. rewrite Hh.
  split; [done|]. split; [|done].
  intros name h. destruct Hc as [-> | ->]; [apply H2|].
  rewrite lookup_insert_eq. simpl. apply H2.
Qed.

Lemma lookup_resolved_made_since tid n0 target s res s1 :
  made_since tid n0 s →
  lookup_resolved env tid target s = (res, s1) →
  made_since tid n0 s1 ∧ length (heap s) ≤ length (heap s1) ∧
  ∀ h, res = Ok (Some h) → n0 ≤ h < length (heap s1).
Proof.
  intros Hinv. unfold lookup_resolved.
  destruct target as [target info]. simpl.
  destruct (info !! "dir") as [rdir|].
  2:{ intros [= <- <-]. split; [done|]. split; [done|]. by intros h [=]. }
  destruct (truthy rdir).
  2:{ intros [= <- <-]. split; [done|]. split; [done|]. by intros h [=]. }
  destruct (default ∅ (_cache s !! tid) !! target) as [h0|] eqn:E.
  - rewrite (cached_repository_hit _ _ _ _ _ _ h0 E). intros [= <- <-].
    split; [done|]. split; [done|]. intros h [= <-].
    destruct Hinv as (_ & H2 & _). by apply (H2 target).
  - destruct rdir as [rdir|n].
    + intros Hrun.
      destruct (cached_repository_miss_inv _ _ _ _ _ _ _ _ E Hrun)
        as (_ & _ & _ & [(e & -> & Hheap & Hcache)|
                         (c & r & -> & Hheap & Hinit & _ & Hcache)]).
      * split; [|split; [by rewrite Hheap|by intros h [=]]].
        apply (made_since_touch tid n0 s); [done|done|by right].
      * destruct Hinv as (H1 & H2 & H3).
        assert (length (heap s1) = S (length (heap s))) as Hlen.
        { rewrite Hheap, length_app. simpl. lia. }
        split; [|split; [lia|intros h [= <-]; lia]].
        unfold made_since. rewrite Hlen. split; [lia|]. split.
        -- intros name h. rewrite Hcache, lookup_insert_eq. simpl.
           destruct (decide (target = name)) as [->|Hne].
           ++ rewrite lookup_insert_eq. intros [= <-]. lia.
           ++ rewrite lookup_insert_ne by done. intros Hl.
              specialize (H2 name h Hl). lia.
        -- intros h r0 Hge. rewrite Hheap.
           destruct (decide (h < length (heap s))) as [Hlt|Hnlt].
           ++ rewrite lookup_app_l by done. by apply H3.
           ++ rewrite lookup_app_r by lia.
              destruct (h - length (heap s)) as [|k]; simpl; [|done].
              intros [= <-]. by apply (Repository_init_open _ _ _ _ Hinit).
    + rewrite (cached_repository_hit_only _ _ _ _ _ _ E). intros [= <- <-].
      split; [|split; [done|by intros h [=]]].
      apply (made_since_touch tid n0 s); [done|done|by right].
Qed.

Lemma get_repository_made_since tid n0 reponame s res s1 :
  made_since tid n0 s →
  get_repository env tid (Some reponame) s = (res, s1) →
  made_since tid n0 s1 ∧ length (heap s) ≤ length (heap s1) ∧
  ∀ h, res = Ok (Some h) → n0 ≤ h < length (heap s1).
Proof.
  intros Hinv. rewrite get_repository_resolved.
  destruct (settled_fields s) as (Hc & _ & Hh & _ & _).
  assert (made_since tid n0 (settled env s)) as Hinv1.
  { apply (made_since_touch tid n0 s); [done|done|by left]. }
  rewrite <- Hh. by apply lookup_resolved_made_since.
Qed.

Lemma get_repository_run_made_since tid n0 names s :
  made_since tid n0 s →
  made_since tid n0 (get_repository_run env tid names s).2 ∧
  length (heap s) ≤ length (heap (get_repository_run env tid names s).2) ∧
  ∀ h, Ok (Some h) ∈ (get_repository_run env tid names s).1 →
       n0 ≤ h < length (heap (get_repository_run env tid names s).2).
Proof.
  revert s. induction names as [|reponame names IH]; intros s Hinv; simpl.
  - split; [done|]. split; [done|]. intros h Hh. inversion Hh.
  - destruct (get_repository env tid (Some reponame) s) as [res s1] eqn:E.
    destruct (get_repository_made_since tid n0 reponame s res s1 Hinv E)
      as (Hinv1 & Hlen1 & Hres).
    destruct (IH s1 Hinv1) as (Hinv2 & Hlen2 & Hrest).
    destruct (get_repository_run env tid names s1) as [rs s2]. simpl in *.
    split; [done|]. split; [lia|].
    intros h Hh. apply elem_of_cons in Hh as [Hh|Hh].
    + specialize (Hres h (eq_sym Hh)). lia.
    + by apply Hrest.
Qed.

(** C7: [shutdown(tid)], called by thread [tid], returns having closed
    every repository object cached for that thread and removed the
    thread's entry from the cache; every object a later [get_repository]
    call of that thread returns was constructed after the shutdown (its
    index is one no object had then) and is open, so that a closed object
    is never handed out again. *)
Theorem shutdown_closes_and_evicts tid s :
  let after := (shutdown (Some tid) tid s).2 in
  (shutdown (Some tid) tid s).1 = Ok tt ∧
  (∀ name h, default ∅ (_cache s !! tid) !! name = Some h →
             closed_at after h) ∧
  _cache after !! tid = None ∧
  length (heap after) = length (heap s) ∧
  ∀ names h,
    let run := get_repository_run env tid names after in
    Ok (Some h) ∈ run.1 →
    length (heap s) ≤ h ∧
    ∃ r, heap run.2 !! h = Some r ∧ repo_closed r = false.
Proof.
  unfold shutdown. rewrite bool_decide_eq_true_2 by done. simpl.
  set (hs := (map_to_list (default ∅ (_cache s !! tid))).*2).
  set (s0 := set_cache (delete tid (_cache s)) s).
  destruct (close_all_fields hs s0) as [Hc Hlen].
  split; [done|]. split; [|split; [|split]].
  - intros name h Hh. apply close_all_closes. left.
    unfold hs. apply list_elem_of_fmap. exists (name, h). split; [done|].
    by apply elem_of_map_to_list.
  - rewrite Hc. unfold s0. simpl. apply lookup_delete_eq.
  - by rewrite Hlen.
  - intros names h Hh.
    assert (made_since tid (length (heap s)) (foldl close_repository s0 hs))
      as Hinv.
    { unfold made_since. rewrite Hlen, Hc. unfold s0 at 1 2. simpl.
      rewrite lookup_delete_eq. simpl. split; [done|]. split.
      - intros name h'. by rewrite lookup_empty.
      - intros h' r Hge Hl. apply lookup_lt_Some in Hl.
        rewrite Hlen in Hl. unfold s0 in Hl. simpl in Hl. lia. }
    destruct (get_repository_run_made_since tid _ names _ Hinv)
      as ((_ & _ & Hopen) & _ & Hres).
    destruct (Hres h Hh) as [Hge Hlt]. split; [done|].
    destruct (lookup_lt_is_Some_2 _ _ Hlt) as [r Hr].
    exists r. split; [done|]. by apply (Hopen h).
Qed.

(** *** Notification *)

Lemma quiet_ret {A} (a : A) : quiet (store := store) (ret a).
Proof. done. Qed.

Lemma quiet_raise {A} (e : exn) :
  quiet (store := store) (raise (A := A) e).
Proof. done. Qed.

Lemma quiet_bind {A B} (m : M store A) (f : A → M store B) :
  quiet (store := store) m → (∀ a, quiet (store := store) (f a)) →
  quiet (store := store) (bind m f).
Proof.
  intros Hm Hf s. unfold bind. specialize (Hm s).
  destruct (m s) as [[a|e] s']; simpl in *; [|done].
  by rewrite (Hf a s').
Qed.

Lemma quiet_try_except {A} (m h : M store A) handled :
  quiet (store := store) m → quiet (store := store) h →
  quiet (store := store) (try_except m handled h).
Proof.
  intros Hm Hh s. unfold try_except. specialize (Hm s).
  destruct (m s) as [[a|e] s']; simpl in *; [done|].
  destruct (handled e); [|done]. by rewrite (Hh s').
Qed.

Lemma quiet_get_all_repositories :
  quiet (store := store) (get_all_repositories env).
Proof. intros s. fold (settled env s). apply settled_fields. Qed.

Lemma quiet_lookup_resolved tid target :
  quiet (store := store) (lookup_resolved env tid target).
Proof.
  intros s. unfold lookup_resolved. destruct target as [target info]. simpl.
  destruct (info !! "dir") as [rdir|]; [|done].
  destruct (truthy rdir); [|done].
  destruct (default ∅ (_cache s !! tid) !! target) as [h0|] eqn:E.
  - by rewrite (cached_repository_hit _ _ _ _ _ _ h0 E).
  - destruct rdir as [rdir|n].
    + destruct (cached_repository env tid target info (PStr rdir)
                  (effective_type env info) s) as [res s1] eqn:Hrun.
      by destruct (cached_repository_miss_inv _ _ _ _ _ _ _ _ E Hrun)
        as (_ & _ & ? & _).
    + by rewrite (cached_repository_hit_only _ _ _ _ _ _ E).
Qed.

Lemma quiet_get_repository tid reponame :
  quiet (store := store) (get_repository env tid (Some reponame)).
Proof.
  intros s. rewrite get_repository_resolved, quiet_lookup_resolved.
  apply settled_fields.
Qed.

Lemma quiet_with_repository {A} h (f : Repository store → M store A) :
  (∀ r, quiet (store := store) (f r)) →
  quiet (store := store) (with_repository h f).
Proof.
  intros Hf s. unfold with_repository.
  destruct (heap s !! h) as [r|]; [apply Hf|done].
Qed.

Lemma quiet_get_base h : quiet (store := store) (get_base h).
Proof. apply quiet_with_repository. intros r. apply quiet_ret. Qed.

Lemma quiet_get_repositories_by_dir tid directory :
  quiet (store := store) (get_repositories_by_dir env tid directory).
Proof.
  unfold get_repositories_by_dir.
  apply quiet_bind; [apply quiet_get_all_repositories|]. intros all.
  induction (map_to_list all) as [|[reponame repoinfo] l IH].
  - apply quiet_ret.
  - apply quiet_bind.
    + destruct (repoinfo !! "dir") as [[dir|n]|].
      * destruct (_ && _); [apply quiet_get_repository|apply quiet_ret].
      * destruct (truthy _); [apply quiet_raise|apply quiet_ret].
      * apply quiet_ret.
    + intros found. apply quiet_bind; [apply IH|]. intros rest.
      apply quiet_ret.
Qed.

Lemma quiet_get_real_repositories tid :
  quiet (store := store) (get_real_repositories env tid).
Proof.
  unfold get_real_repositories.
  apply quiet_bind; [apply quiet_get_all_repositories|]. intros all.
  induction ((map_to_list all).*1) as [|reponame l IH].
  - apply quiet_ret.
  - apply quiet_bind.
    + apply quiet_try_except; [apply quiet_get_repository|apply quiet_ret].
    + intros found. apply quiet_bind; [apply IH|]. intros rest.
      apply quiet_ret.
Qed.

Lemma quiet_notify_targets tid reponame :
  quiet (store := store) (notify_targets env tid reponame).
Proof.
  unfold notify_targets.
  apply quiet_bind; [apply quiet_get_repository|]. intros repos.
  apply quiet_bind.
  - destruct repos as [h|].
    + apply quiet_bind; [apply quiet_get_base|]. intros b. apply quiet_ret.
    + apply quiet_bind; [apply quiet_get_repositories_by_dir|].
      intros [|h l]; apply quiet_ret.
  - intros [[[|c b]|] repositories]; try apply quiet_ret.
    apply quiet_bind; [apply quiet_get_real_repositories|]. intros real.
    induction (elements real) as [|h l IH]; [apply quiet_ret|].
    apply quiet_bind; [apply quiet_get_base|]. intros b'.
    apply quiet_bind; [apply IH|]. intros rest. apply quiet_ret.
Qed.

Lemma set_store_fields h (r : Repository store) st s :
  calls (set_store h r st s) = calls s ∧
  (∀ h', h' ≠ h → heap (set_store h r st s) !! h' = heap s !! h').
Proof.
  split; [done|]. intros h' Hne. unfold set_store. simpl.
  by rewrite list_lookup_insert_ne.
Qed.

Lemma get_changeset_missing h (r : Repository store) rev s rev' :
  heap s !! h = Some r →
  bk_get_changeset rev (repo_store r) = Raise (NoSuchChangeset rev') →
  get_changeset h rev s = (Raise (NoSuchChangeset rev'), s).
Proof.
  intros Hr Hget. unfold get_changeset, with_repository.
  by rewrite Hr, Hget.
Qed.

(** The resync attempt finds nothing: the lookup is given up. *)
Lemma fetch_changeset_missing h (r : Repository store) rev s :
  heap s !! h = Some r →
  changeset_missing rev (repo_store r) →
  fetch_changeset h rev s =
    (Ok None, set_store h r (bk_sync_changeset rev (repo_store r)).2 s).
Proof.
  intros Hr [[rev1 Hget1] Hsync].
  unfold fetch_changeset, try_except, bind.
  rewrite (get_changeset_missing h r rev s rev1 Hr Hget1). simpl.
  unfold sync_changeset at 1. unfold with_repository at 1. rewrite Hr.
  destruct (bk_sync_changeset rev (repo_store r)) as [[old|e] st'] eqn:Hsc.
  - destruct Hsync as [rev2 Hget2]. simpl.
    unfold get_changeset, with_repository, set_store. simpl.
    rewrite list_lookup_insert_eq by (by eapply lookup_lt_Some).
    simpl. by rewrite Hget2.
  - simpl. by rewrite Hsync.
Qed.

Lemma notify_rev_missing h (r : Repository store) rev s :
  heap s !! h = Some r →
  changeset_missing rev (repo_store r) →
  notify_rev env "changeset_added" h rev s =
    (Ok tt, set_store h r (bk_sync_changeset rev (repo_store r)).2 s).
Proof.
  intros Hr Hmiss. unfold notify_rev, bind. simpl.
  by rewrite (fetch_changeset_missing h r rev s Hr Hmiss).
Qed.

Lemma notify_repository_missing h (r : Repository store) rev st s :
  heap s !! h = Some r →
  bk_sync (repo_store r) = (Ok tt, st) →
  changeset_missing rev st →
  ∃ s', notify_repository env "changeset_added" [rev] h s = (Ok tt, s') ∧
        calls s' = calls s ∧
        ∀ h', h' ≠ h → heap s' !! h' = heap s !! h'.
Proof.
  intros Hr Hsync Hmiss. unfold notify_repository, bind.
  unfold sync, with_repository. rewrite Hr, Hsync.
  set (r1 := mkRepository (repo_name r) (repo_params r) (reponame r)
               (repo_id r) (repo_closed r) st).
  assert (heap (set_store h r st s) !! h = Some r1) as Hr1.
  { unfold set_store. simpl.
    by rewrite list_lookup_insert_eq by (by eapply lookup_lt_Some). }
  simpl. unfold bind.
  rewrite (notify_rev_missing h r1 rev _ Hr1 Hmiss). simpl.
  eexists. split; [done|]. split; [done|].
  intros h' Hne. simpl. by rewrite !list_lookup_insert_ne.
Qed.

Lemma notify_loop_missing rev (hs : list nat) s :
  NoDup hs →
  (∀ h, h ∈ hs → ∃ r st, heap s !! h = Some r ∧
                         bk_sync (repo_store r) = (Ok tt, st) ∧
                         changeset_missing rev st) →
  ∃ s', for_each hs (notify_repository env "changeset_added" [rev]) s
        = (Ok tt, s') ∧ calls s' = calls s.
Proof.
  revert s. induction hs as [|h hs IH]; intros s Hnd Hall.
  - by exists s.
  - apply NoDup_cons in Hnd as [Hnotin Hnd].
    destruct (Hall h) as (r & st & Hr & Hsync & Hmiss); [by left|].
    destruct (notify_repository_missing h r rev st s Hr Hsync Hmiss)
      as (s1 & Hrun & Hcalls & Hother).
    destruct (IH s1 Hnd) as (s2 & Hrun2 & Hcalls2).
    { intros h' Hin. destruct (Hall h') as (r' & st' & Hr' & Hrest); [by right|].
      exists r', st'. split; [|done].
      rewrite Hother; [done|]. intros ->. by apply Hnotin. }
    exists s2. simpl. unfold bind. rewrite Hrun. split; [done|]. congruence.
Qed.

Lemma with_keys_found (hs : list nat) s :
  (∀ h, h ∈ hs → is_Some (heap s !! h)) →
  ∃ keyed, with_keys hs s = (Ok keyed, s) ∧ keyed.*2 = hs.
Proof.
  induction hs as [|h hs IH]; intros Hall.
  - by exists [].
  - destruct (Hall h) as [r Hr]; [by left|].
    destruct IH as (keyed & Hrun & Hk). { intros h' Hin. apply Hall. by right. }
    exists ((reponame r, h) :: keyed). split.
    + simpl. unfold bind, with_repository. rewrite Hr. simpl.
      by rewrite Hrun.
    + rewrite fmap_cons. simpl. by rewrite Hk.
Qed.

(** C6: for the [changeset_added] event and a revision that
    [get_changeset] reports as unknown both before and after the
    [sync_changeset] resync attempt, the revision is passed over: its
    iteration returns without invoking a listener and the loop goes on
    with the next revision; and [notify('changeset_added', name, [rev])]
    as a whole returns without raising and without invoking any listener
    when this holds for each repository the event concerns (each being
    synchronised without error first). *)
Theorem notify_skips_missing rev :
  (∀ h (r : Repository store) revs s,
     heap s !! h = Some r → changeset_missing rev (repo_store r) →
     ∃ s', notify_rev env "changeset_added" h rev s = (Ok tt, s') ∧
           calls s' = calls s ∧
           for_each (rev :: revs) (notify_rev env "changeset_added" h) s
           = for_each revs (notify_rev env "changeset_added" h) s') ∧
  (∀ tid reponame hs s s1,
     notify_targets env tid reponame s = (Ok hs, s1) →
     NoDup hs →
     (∀ h, h ∈ hs → ∃ r st, heap s1 !! h = Some r ∧
                            bk_sync (repo_store r) = (Ok tt, st) ∧
                            changeset_missing rev st) →
     ∃ s2, notify env tid "changeset_added" reponame [rev] s = (Ok tt, s2) ∧
           calls s2 = calls s).
Proof.
  split.
  - intros h r revs s Hr Hmiss. eexists. split; [|split].
    + by apply (notify_rev_missing h r).
    + done.
    + simpl. unfold bind. by rewrite (notify_rev_missing h r rev s Hr Hmiss).
  - intros tid reponame hs s s1 Htargets Hnd Hall.
    pose proof (quiet_notify_targets tid reponame s) as Hquiet.
    rewrite Htargets in Hquiet. simpl in Hquiet.
    unfold notify, bind. rewrite Htargets.
    destruct hs as [|h0 hs0]; [by exists s1|]. cbv iota.
    remember (h0 :: hs0) as hs eqn:Ehs. clear Ehs.
    destruct (with_keys_found hs s1) as (keyed & -> & Hk).
    { intros h Hin. destruct (Hall h Hin) as (r & _ & -> & _). by eexists. }
    assert ((merge_sort key_le keyed).*2 ≡ₚ hs) as Hperm.
    { rewrite <- Hk. apply fmap_Permutation, merge_sort_Permutation. }
    destruct (notify_loop_missing rev ((merge_sort key_le keyed).*2) s1)
      as (s2 & Hrun & Hcalls).
    { by rewrite Hperm. }
    { intros h Hin. apply Hall. by rewrite <- Hperm. }
    exists s2. split; [done|]. congruence.
Qed.

End manager_facts.

(** ** The sample installation *)

Lemma get_repository_no_dir_witness :
  (get_repository (sample_env plain_ini) 1 (Some "nodir")
     (initial_state [])).1 = Ok None ∧
  (get_repository (sample_env plain_ini) 1 (Some "absent")
     (initial_state [])).1 = Ok None.
Proof.
  split.
  - apply (get_repository_no_dir (sample_env plain_ini) 1 "nodir"
             (initial_state [])).
    right. vm_compute. reflexivity.
  - apply (get_repository_no_dir (sample_env plain_ini) 1 "absent"
             (initial_state [])).
    left. vm_compute. reflexivity.
Defined.

(** C1 (as stated) fails: [A] has [alias = B] and [B] has [dir = /path],
    yet [B] also carries an alias, so that [get_repository('A')] returns
    the object made for [B] while [get_repository('B')] follows [B]'s own
    alias and returns [None]. *)
Lemma get_repository_alias_counterexample :
  let env := sample_env chained_ini in
  let s := initial_state (store := list Z) [] in
  let first := get_repository env 1 (Some "A") s in
  (registry_in env s !! "A" ≫= (.!! "alias")) = Some (PStr "B") ∧
  (registry_in env s !! "B" ≫= (.!! "dir")) = Some (PStr "/path") ∧
  first.1 = Ok (Some 0) ∧
  (get_repository env 1 (Some "B") first.2).1 = Ok None ∧
  (get_repository env 1 (Some "B") s).1 = Ok None.
Proof. vm_compute. done. Qed.

Lemma get_repository_alias_witness :
  get_repository (sample_env plain_ini) 1 (Some "A") (initial_state [])
  = get_repository (sample_env plain_ini) 1 (Some "B") (initial_state []).
Proof.
  apply (get_repository_alias (sample_env plain_ini) 1 "A" "B" "/path"
           (<["id" := PInt 1]> (<["name" := PStr "A"]> {["alias" := PStr "B"]}))
           (<["id" := PInt 2]> (<["name" := PStr "B"]> {["dir" := PStr "/path"]}))
           (initial_state [])).
  - vm_compute. reflexivity.
  - vm_compute. reflexivity.
  - vm_compute. reflexivity.
  - vm_compute. reflexivity.
  - discriminate.
  - vm_compute. reflexivity.
Defined.

Lemma sample_hg_unusable : ¬ usable_connector (sample_env plain_ini) "hg".
Proof.
  intros (c & p & Hc & Ht & Hp). simpl in Hc.
  apply elem_of_cons in Hc as [->|Hc].
  - simpl in Ht. apply list_elem_of_singleton in Ht. discriminate.
  - apply list_elem_of_singleton in Hc as ->. simpl in Ht.
    apply list_elem_of_singleton in Ht. injection Ht as ->. lia.
Qed.

Lemma get_repository_unsupported_witness :
  ∃ error,
    (get_repository (sample_env plain_ini) 1 (Some "hgrepo")
       (initial_state [])).1
    = Raise (TracError (unsupported_message (PStr "hg") error)).
Proof.
  destruct (get_repository_unsupported (sample_env plain_ini) 1 "hgrepo" "/hg"
              (initial_state []))
    as (error & Herr & _).
  - intros tbl Htbl. discriminate.
  - vm_compute. reflexivity.
  - discriminate.
  - vm_compute. reflexivity.
  - intros t Ht. vm_compute in Ht. injection Ht as <-.
    apply sample_hg_unusable.
  - exists error. exact Herr.
Defined.

Lemma shutdown_closes_and_evicts_witness :
  let env := sample_env plain_ini in
  let s := (get_repository env 1 (Some "B") (initial_state [])).2 in
  let after := (shutdown (Some 1%positive) 1 s).2 in
  closed_at after 0 ∧ length (heap s) ≤ 1 ∧
  (get_repository_run env 1 ["A"; "B"] after).1
  = [Ok (Some 1); Ok (Some 1)].
Proof.
  intros env s after.
  destruct (shutdown_closes_and_evicts env 1 s) as (_ & Hclosed & _ & _ & Hrun).
  split; [|split].
  - apply (Hclosed "B" 0). vm_compute. reflexivity.
  - apply (Hrun ["A"; "B"] 1). vm_compute. left.
  - vm_compute. reflexivity.
Defined.

Lemma notify_skips_missing_witness :
  ∃ s2,
    notify (sample_env plain_ini) 1 "changeset_added" "B" [PInt 5]
      (initial_state []) = (Ok tt, s2) ∧
    calls s2 = [].
Proof.
  eapply (proj2 (notify_skips_missing (sample_env plain_ini) (PInt 5))
            1%positive "B" [0]).
  - vm_compute. reflexivity.
  - apply NoDup_singleton.
  - intros h Hh. apply list_elem_of_singleton in Hh as ->.
    eexists _, _. split; [vm_compute; reflexivity|].
    split; [reflexivity|].
    split; [by eexists|]. simpl. by eexists.
Defined.

(** C2 (as stated) fails: the registered name ["trunk"] is a prefix of the
    path ["trunk2/README"], yet the name selected is [''] with the whole
    path as remainder, since ["trunk/"] is not a prefix of
    ["trunk2/README/"]. *)
Lemma get_repository_by_path_counterexample :
  let env := sample_env [("trunk", {["dir" := PStr "/repos/trunk"]})] in
  let s := initial_state (store := list Z) [] in
  is_Some (registry_in env s !! "trunk") ∧
  String.prefix "trunk" "trunk2/README" = true ∧
  (get_repository_by_path env 1 "trunk2/README" s).1
  = Ok ("", None, "trunk2/README").
Proof. vm_compute. split; [by eexists|done]. Qed.

Lemma get_repository_by_path_longest_witness :
  let env := sample_env [("", {["dir" := PStr "/repos/main"]});
                         ("sub", {["dir" := PStr "/repos/sub"]})] in
  let s := initial_state (store := list Z) [] in
  split_repository_path (map_to_list (registry_in env s)).*1 "sub/foo"
  = ("sub", "foo").
Proof.
  intros env s.
  destruct (get_repository_by_path_longest env 1 "sub/foo" s)
    as (_ & _ & _ & Hex).
  apply Hex; [|reflexivity].
  intros n. split.
  - intros [info Hn]. vm_compute in Hn.
    destruct (decide (n = "")) as [->|H1]; [by left|].
    destruct (decide (n = "sub")) as [->|H2]; [by right|].
    exfalso. revert Hn.
    change (registry_in env s !! n ≠ Some info).
    assert (registry_in env s
            = <["sub" := <["id" := PInt 2]> (<["name" := PStr "sub"]>
                           {["dir" := PStr "/repos/sub"]})]>
              (<["" := <["id" := PInt 1]> (<["name" := PStr ""]>
                           {["dir" := PStr "/repos/main"]})]> ∅)) as ->.
    { vm_compute. reflexivity. }
    rewrite lookup_insert_ne by done. rewrite lookup_insert_ne by done.
    by rewrite lookup_empty.
  - intros [-> | ->]; vm_compute; by eexists.
Defined.





(** ** Connectors and supported types *)

Section connector_facts.
Context {store : Type} `{!Backend store}.
Variable env : Env.

Implicit Types s : State store.

Lemma usable_supported_types (type_ : string) :
  usable_connector env type_ → type_ ∈ supported_types (connectors env).
Proof.
  intros (c & p & Hc & Ht & Hp). unfold supported_types.
  apply elem_of_list_to_set. apply list_elem_of_bind. exists c. split; [|done].
  apply list_elem_of_bind. exists (type_, p). split; [|done]. simpl.
  destruct (0 <=? p)%Z eqn:E; [by left|lia].
Qed.

(** [get_supported_types()] lists exactly the types for which
    [_get_connector] finds a connector instead of raising. *)
Theorem supported_types_connector (type_ : string) s :
  connectors_settled env s →
  (type_ ∈ supported_types (connectors env) ↔
   ∃ connector, (_get_connector env (PStr type_) s).1 = Ok connector).
Proof.
  intros Hs. split.
  - intros Hin.
    destruct (_get_connector_usable env s type_ Hs
                (supported_types_usable env type_ Hin)) as [c ->].
    by exists c.
  - intros [c Hc]. apply usable_supported_types.
    rewrite (_get_connector_settled env s type_ Hs) in Hc. simpl in Hc.
    destruct (build_connectors (connectors env) !! type_) as [[c' p]|] eqn:E;
      [|done].
    destruct (0 <=? p)%Z eqn:Hp; [|done].
    apply build_connectors_sound in E as [Hin Ht].
    exists c', p. repeat split; [done|done|lia].
Qed.

(** The connector [_get_connector] returns for a type is registered for
    it with a non-negative priority, and no connector registered for the
    type has a higher one. *)
Theorem _get_connector_highest (type_ : string) s connector s' :
  connectors_settled env s →
  _get_connector env (PStr type_) s = (Ok connector, s') →
  ∃ prio,
    connector ∈ connectors env ∧ (type_, prio) ∈ conn_types connector ∧
    (0 ≤ prio)%Z ∧
    ∀ c' prio', c' ∈ connectors env → (type_, prio') ∈ conn_types c' →
                (prio' ≤ prio)%Z.
Proof.
  intros Hs. rewrite (_get_connector_settled env s type_ Hs).
  destruct (build_connectors (connectors env) !! type_) as [[c p]|] eqn:E;
    [|done].
  destruct (0 <=? p)%Z eqn:Hp; [|done]. intros [= <- _].
  pose proof (build_connectors_sound _ _ _ _ E) as [Hin Ht].
  exists p. repeat split; [done|done|lia|].
  intros c' p' Hc' Ht'.
  destruct (build_connectors_complete _ c' type_ p' Hc' Ht')
    as (c2 & p2 & E2 & Hle).
  rewrite E in E2. by injection E2 as <- <-.
Qed.

End connector_facts.

Lemma supported_types_connector_witness :
  "svn" ∈ supported_types (connectors (sample_env [])) ∧
  "hg" ∉ supported_types (connectors (sample_env [])).
Proof.
  assert (connectors_settled (sample_env []) (initial_state (store := list Z) []))
    as Hs by (intros tbl Htbl; discriminate).
  split.
  - apply (supported_types_connector (sample_env []) "svn" _ Hs).
    vm_compute. by eexists.
  - intros Hin.
    apply (supported_types_connector (sample_env []) "hg" _ Hs) in Hin
      as [c Hc].
    vm_compute in Hc. discriminate.
Defined.

Lemma _get_connector_highest_witness :
  ∃ prio, ("svn", prio) ∈ conn_types svn_connector ∧ (0 ≤ prio)%Z.
Proof.
  destruct (_get_connector_highest (sample_env []) "svn"
              (initial_state (store := list Z) []) svn_connector
              (set_connectors
                 (Some (build_connectors (connectors (sample_env []))))
                 (initial_state [])))
    as (prio & _ & Ht & Hp & _).
  - intros tbl Htbl. discriminate.
  - reflexivity.
  - by exists prio.
Defined.

(** ** What the providers and the registry guarantee *)

Lemma index_by_name_origin (l : list (Z * gmap string pyval))
    (acc : gmap string (gmap string pyval))
    (P : string → gmap string pyval → Prop) :
  (∀ n info, acc !! n = Some info → P n info) →
  (∀ i g n, (i, g) ∈ l → g !! "name" = Some (PStr n) → eligible g →
            P n (<["id" := PInt i]> g)) →
  ∀ n info, foldl index_by_name acc l !! n = Some info → P n info.
Proof.
  revert acc. induction l as [|[i g] l IH]; intros acc Hacc Hl; [done|].
  simpl. apply IH; [|intros i' g' n' Hin; apply Hl; by right].
  intros n info. unfold index_by_name.
  destruct (g !! "name") as [[n'|z]|] eqn:Hname; try apply Hacc.
  case_bool_decide as Hel; [|apply Hacc].
  destruct (decide (n' = n)) as [->|Hne].
  - rewrite lookup_insert_eq. intros [= <-]. apply (Hl i g n); [by left|done|done].
  - rewrite lookup_insert_ne by done. apply Hacc.
Qed.

(** Every entry [DbRepositoryProvider.get_repositories] yields is keyed by
    the name stored in it, carries the id of a [name] row of the table
    holding that name, has a ['dir'] or an ['alias'], and has no attribute
    but the id that is not the text of a non-null row of that id; and no
    name is yielded twice. *)
Theorem db_get_repositories_contract (t : table) :
  NoDup (db_get_repositories t).*1 ∧
  ∀ n info, (n, info) ∈ db_get_repositories t →
    info !! "name" = Some (PStr n) ∧ eligible info ∧
    ∃ i, info !! "id" = Some (PInt i) ∧
         Row i "name" (Some n) ∈ t ∧
         ∀ k v, k ≠ "id" → info !! k = Some v →
                ∃ w, v = PStr w ∧ Row i k (Some w) ∈ t.
Proof.
  split; [apply NoDup_fst_map_to_list|].
  intros n info. unfold db_get_repositories. rewrite elem_of_map_to_list.
  apply (index_by_name_origin (map_to_list (group_rows t)) ∅
           (λ n info,
              info !! "name" = Some (PStr n) ∧ eligible info ∧
              ∃ i, info !! "id" = Some (PInt i) ∧
                   Row i "name" (Some n) ∈ t ∧
                   ∀ k v, k ≠ "id" → info !! k = Some v →
                          ∃ w, v = PStr w ∧ Row i k (Some w) ∈ t));
    [intros n' info'; by rewrite lookup_empty|].
  clear n info. intros i g n Hin Hname Hel.
  apply elem_of_map_to_list in Hin.
  assert (∀ k v, g !! k = Some v → ∃ w, v = PStr w ∧ Row i k (Some w) ∈ t)
    as Hrows.
  { intros k v Hk.
    destruct (group_rows_sound t i g k v Hin Hk)
      as ([i' k' w'] & w & Hr & Hid & Hrn & Hrv & ->).
    simpl in *. subst. by exists w. }
  split; [by rewrite lookup_insert_ne|]. split.
  - destruct Hel as [Hd|Ha]; [left|right]; by rewrite lookup_insert_ne.
  - exists i. rewrite lookup_insert_eq. split; [done|]. split.
    + destruct (Hrows "name" (PStr n) Hname) as (w & [= <-] & Hr). done.
    + intros k v Hk. rewrite lookup_insert_ne by done. apply Hrows.
Qed.

Section registry_facts.
Context {store : Type} `{!Backend store}.
Variable env : Env.

Implicit Types s : State store.

Lemma add_entry_named (acc : gmap string (gmap string pyval) * table)
    (e : string * gmap string pyval) :
  (∀ n info, acc.1 !! n = Some info →
             info !! "name" = Some (PStr n) ∧ is_Some (info !! "id")) →
  ∀ n info, (add_entry acc e).1 !! n = Some info →
            info !! "name" = Some (PStr n) ∧ is_Some (info !! "id").
Proof.
  destruct acc as [all t], e as [n0 info0]. simpl. intros Hacc n info.
  destruct (all !! n0) eqn:E0; [apply Hacc|].
  rewrite lookup_insert_ne by done.
  destruct (info0 !! "id") as [v|] eqn:Hid.
  - simpl. destruct (decide (n0 = n)) as [->|Hne].
    + rewrite lookup_insert_eq. intros [= <-]. rewrite lookup_insert_eq.
      split; [done|]. rewrite lookup_insert_ne by done. by eexists.
    + rewrite lookup_insert_ne by done. apply Hacc.
  - destruct (get_repository_id n0 t) as [i t']. simpl.
    destruct (decide (n0 = n)) as [->|Hne].
    + rewrite lookup_insert_eq. intros [= <-].
      rewrite lookup_insert_eq. rewrite lookup_insert_ne by done.
      rewrite lookup_insert_eq. split; [done|by eexists].
    + rewrite lookup_insert_ne by done. apply Hacc.
Qed.

Lemma collect_repositories_named (ps : list Provider) (t : table) n info :
  (collect_repositories ps t).1 !! n = Some info →
  info !! "name" = Some (PStr n) ∧ is_Some (info !! "id").
Proof.
  unfold collect_repositories.
  assert (∀ acc : gmap string (gmap string pyval) * table,
    (∀ n info, acc.1 !! n = Some info →
               info !! "name" = Some (PStr n) ∧ is_Some (info !! "id")) →
    ∀ n info,
      (foldl (λ acc p, foldl add_entry acc (provider_entries p acc.2)) acc ps).1
        !! n = Some info →
      info !! "name" = Some (PStr n) ∧ is_Some (info !! "id")) as Hgen.
  { induction ps as [|p ps IH]; intros acc Hacc; [done|].
    simpl. apply IH. generalize (provider_entries p acc.2). intros es.
    revert acc Hacc. induction es as [|e es IHes]; intros acc Hacc; [done|].
    simpl. apply IHes. by apply add_entry_named. }
  apply Hgen. intros n' info'. simpl. by rewrite lookup_empty.
Qed.

(** In a manager whose registry is not loaded (after [__init__] or
    [reload_repositories()]), every entry [get_all_repositories()] returns
    carries its own name under ['name'] and an ['id'], so that
    [get_repository] never raises the [KeyError] that
    [Repository.__init__] raises when one of them is missing. *)
Theorem get_repository_no_KeyError tid (name : string) s :
  _all_repositories s = None →
  (∀ n info, registry_in env s !! n = Some info →
             info !! "name" = Some (PStr n) ∧ is_Some (info !! "id")) ∧
  ∀ key, (get_repository env tid (Some name) s).1 ≠ Raise (KeyError key).
Proof.
  intros Hnone.
  assert (∀ n info, registry_in env s !! n = Some info →
            info !! "name" = Some (PStr n) ∧ is_Some (info !! "id")) as Hnamed.
  { intros n info. unfold registry_in, get_all_repositories. rewrite Hnone.
    pose proof (collect_repositories_named (providers env) (db s) n info) as H.
    destruct (collect_repositories (providers env) (db s)). simpl in *.
    exact H. }
  split; [done|]. intros key.
  rewrite get_repository_resolved. unfold lookup_resolved.
  assert ((resolve_alias (registry_in env s) name).2 = ∅ ∨
          ∃ n, registry_in env s !! n
               = Some (resolve_alias (registry_in env s) name).2) as Hinfo.
  { unfold resolve_alias.
    destruct (registry_in env s !! name) as [info|] eqn:E; simpl; [|by left].
    destruct (info !! "alias") as [[target|z]|]; simpl.
    - destruct (registry_in env s !! target) eqn:Et; simpl; [|by left].
      right. by exists target.
    - by left.
    - right. by exists name. }
  destruct (resolve_alias (registry_in env s) name) as [target info].
  simpl in *. destruct Hinfo as [-> | [n Hn]].
  { by rewrite lookup_empty. }
  destruct (Hnamed n info Hn) as [Hname [i Hid]].
  destruct (info !! "dir") as [rdir|]; [|done].
  destruct (truthy rdir); [|done].
  destruct (default ∅ (_cache (settled env s) !! tid) !! target) as [h|] eqn:E.
  - by rewrite (cached_repository_hit env _ _ _ _ _ _ h E).
  - destruct rdir as [rdir|z].
    + rewrite (cached_repository_miss env _ _ _ _ _ _ E). unfold bind.
      destruct (_get_connector env (effective_type env info) _)
        as [[c|e] s1] eqn:Hget.
      * unfold connector_get_repository, Repository_init.
        by rewrite Hname, Hid.
      * simpl. intros [= ->]. revert Hget. unfold _get_connector.
        destruct (effective_type env info) as [ty|z]; simpl.
        -- destruct (_ !! ty) as [[c p]|]; [|done]. by destruct (0 <=? p)%Z.
        -- done.
    + by rewrite (cached_repository_hit_only env _ _ _ _ _ _ E).
Qed.

End registry_facts.

Lemma get_repository_no_KeyError_witness :
  registry_in (sample_env plain_ini) (initial_state (store := list Z) [])
    !! "B" ≫= (.!! "name") = Some (PStr "B").
Proof.
  destruct (get_repository_no_KeyError (sample_env plain_ini) 1 "B"
              (initial_state (store := list Z) []) eq_refl) as [Hnamed _].
  destruct (registry_in (sample_env plain_ini) (initial_state []) !! "B")
    as [info|] eqn:E.
  - simpl. by destruct (Hnamed "B" info E) as [-> _].
  - vm_compute in E. discriminate.
Defined.

Lemma db_get_repositories_contract_witness :
  let t := [Row 1 "name" (Some "trunk"); Row 1 "dir" (Some "/repos/trunk")] in
  let info := <["id" := PInt 1]>
                (<["dir" := PStr "/repos/trunk"]> {["name" := PStr "trunk"]}) in
  ("trunk", info) ∈ db_get_repositories t ∧ eligible info ∧
  Row 1 "name" (Some "trunk") ∈ t.
Proof.
  intros t info.
  assert (("trunk", info) ∈ db_get_repositories t) as Hin.
  { vm_compute. left. }
  destruct (proj2 (db_get_repositories_contract t) "trunk" info Hin)
    as (_ & Hel & i & Hid & Hrow & _).
  split; [done|]. split; [done|].
  vm_compute in Hid. by injection Hid as <-.
Defined.

(** ** Removing and modifying repositories *)

Lemma delete_id_elem (id : Z) (t : table) (r : row) :
  r ∈ delete_id id t ↔ r ∈ t ∧ row_id r ≠ id.
Proof.
  unfold delete_id. rewrite !list_elem_of_In, filter_In, negb_true_iff.
  by rewrite Z.eqb_neq.
Qed.

Lemma delete_id_fresh (id : Z) (t : table) :
  (∀ r, r ∈ t → row_id r ≠ id) → delete_id id t = t.
Proof.
  intros Hfresh. unfold delete_id. induction t as [|r t IH]; [done|].
  simpl. assert (row_id r ≠ id) as Hr by (apply Hfresh; by left).
  apply Z.eqb_neq in Hr. rewrite Hr. simpl. f_equal. apply IH.
  intros r' Hr'. apply Hfresh. by right.
Qed.

Section admin_facts.
Context {store : Type}.

Implicit Types s : State store.

(** [remove_repository(reponame)] returns, having deleted from the three
    tables exactly the rows of the id of the name, the other rows being
    kept in their order, and having dropped the cache and the loaded
    registry; for a name that had no id, the id allocated on the way is
    deleted again and the [repository] table is left as it was. *)
Theorem remove_repository_removes (reponame : string)
    (revision node_change : list cache_row) s :
  let name := if is_default reponame then "" else reponame in
  let id := (get_repository_id name (db s)).1 in
  let '(res, s', (revision', node_change')) :=
    remove_repository reponame revision node_change s in
  res = Ok tt ∧
  db s' = List.filter (λ r, negb (row_id r =? id)%Z) (db s) ∧
  revision' = List.filter (λ r, negb (cr_repos r =? id)%Z) revision ∧
  node_change' = List.filter (λ r, negb (cr_repos r =? id)%Z) node_change ∧
  (∀ r, r ∈ db s' → row_id r ≠ id) ∧
  (select_id name (db s) = [] → db s' = db s) ∧
  _cache s' = ∅ ∧ _all_repositories s' = None.
Proof.
  intros name id. unfold remove_repository. fold name. subst id.
  unfold get_repository_id.
  destruct (select_id name (db s)) as [|i l] eqn:E; simpl.
  - assert (∀ r, r ∈ db s → row_id r ≠ (coalesce_max_id (db s) + 1)%Z)
      as Hfresh.
    { intros r Hr. pose proof (coalesce_max_id_ge (db s) r Hr). lia. }
    assert (delete_id (coalesce_max_id (db s) + 1)
              (db s ++ [Row (coalesce_max_id (db s) + 1) "name" (Some name)])
            = db s) as Hdel.
    { unfold delete_id. rewrite List.filter_app. simpl.
      rewrite Z.eqb_refl. simpl. rewrite app_nil_r.
      by apply delete_id_fresh. }
    rewrite Hdel. split; [done|]. split.
    { symmetry. by apply delete_id_fresh. }
    repeat split; try done.
  - repeat split; try done.
    intros r Hr. by apply delete_id_elem in Hr as [_ Hr].
Qed.

End admin_facts.

Lemma remove_repository_removes_witness :
  let s := initial_state (store := list Z)
             [Row 1 "name" (Some "trunk"); Row 1 "dir" (Some "/repos/trunk");
              Row 2 "name" (Some "tags")] in
  select_id "branches" (db s) = [] ∧
  db (remove_repository "branches" [] [] s).1.2 = db s ∧
  db (remove_repository "trunk" [] [] s).1.2 = [Row 2 "name" (Some "tags")].
Proof.
  intros s. assert (select_id "branches" (db s) = []) as Hsel by reflexivity.
  split; [done|]. split.
  - pose proof (remove_repository_removes "branches" [] [] s) as H.
    destruct (remove_repository "branches" [] [] s) as [[res s'] [r n]].
    simpl in *. destruct H as (_ & _ & _ & _ & _ & Hsame & _). by apply Hsame.
  - pose proof (remove_repository_removes "trunk" [] [] s) as H.
    destruct (remove_repository "trunk" [] [] s) as [[res s'] [r n]].
    simpl in *. by destruct H as (_ & -> & _).
Defined.

Lemma is_attribute_row_spec (id : Z) (k : string) (r : row) :
  is_attribute_row id k r = true ↔ row_id r = id ∧ row_name r = k.
Proof.
  unfold is_attribute_row.
  by rewrite andb_true_iff, Z.eqb_eq, String.eqb_eq.
Qed.

Lemma update_value_elem (id : Z) (k v : string) (t : table) (r : row) :
  r ∈ update_value id k v t ↔
  (r ∈ t ∧ is_attribute_row id k r = false) ∨
  (r = Row id k (Some v) ∧ ∃ r0, r0 ∈ t ∧ is_attribute_row id k r0 = true).
Proof.
  unfold update_value. rewrite list_elem_of_fmap. split.
  - intros (r0 & -> & Hr0).
    destruct (is_attribute_row id k r0) eqn:E.
    + right. apply is_attribute_row_spec in E as Hspec.
      destruct Hspec as [-> ->]. split; [done|]. by exists r0.
    + left. by rewrite E.
  - intros [[Hr E]|(-> & r0 & Hr0 & E)].
    + exists r. by rewrite E.
    + exists r0. rewrite E. split; [|done].
      apply is_attribute_row_spec in E as [-> ->]. done.
Qed.

Lemma has_attribute_spec (id : Z) (k : string) (t : table) :
  has_attribute id k t = true ↔ ∃ r, r ∈ t ∧ is_attribute_row id k r = true.
Proof.
  unfold has_attribute. rewrite existsb_exists.
  split; intros (r & Hr & E); exists r; by rewrite ?list_elem_of_In in *.
Qed.

Lemma is_attribute_row_new (id : Z) (k v : string) :
  is_attribute_row id k (Row id k (Some v)) = true.
Proof. by apply is_attribute_row_spec. Qed.

Lemma is_attribute_row_other (id : Z) (k k' : string) (v : option string) :
  k' ≠ k → is_attribute_row id k (Row id k' v) = false.
Proof.
  intros Hne. apply not_true_is_false. intros E.
  apply is_attribute_row_spec in E as [_ E]. by destruct Hne.
Qed.

(** A step sets its key. *)
Lemma modify_step_sets (id : Z) (t t' : table) (k v : string) :
  k ∈ repository_attrs → modify_step id t (k, v) = Ok t' →
  attribute_is id k (stored_value k v) t'.
Proof.
  intros Hattr. unfold modify_step. rewrite bool_decide_eq_true_2 by done.
  destruct (String.eqb k "dir" && negb (isabs (stored_value k v))); [done|].
  set (w := stored_value k v). intros [= <-].
  assert (∀ r, r ∈ update_value id k w t → is_attribute_row id k r = true →
               row_value r = Some w) as Hupd.
  { intros r Hr E. apply update_value_elem in Hr as [[_ E']|[-> _]].
    - congruence.
    - done. }
  destruct (has_attribute id k (update_value id k w t)) eqn:Hhas.
  - by split.
  - split.
    + apply has_attribute_spec. exists (Row id k (Some w)). split.
      * apply elem_of_app. right. by left.
      * apply is_attribute_row_new.
    + intros r Hr E. apply elem_of_app in Hr as [Hr|Hr]; [by apply Hupd|].
      by apply list_elem_of_singleton in Hr as ->.
Qed.

(** A step for another key keeps the attribute. *)
Lemma modify_step_keeps (id : Z) (t t' : table) (k k' v' w : string) :
  k' ≠ k → modify_step id t (k', v') = Ok t' →
  attribute_is id k w t → attribute_is id k w t'.
Proof.
  intros Hne. unfold modify_step.
  case_bool_decide; [|by intros [= <-]].
  destruct (String.eqb k' "dir" && negb (isabs (stored_value k' v'))); [done|].
  set (w' := stored_value k' v'). intros [= <-] [Hhas Hall].
  assert (∀ r, is_attribute_row id k r = true →
               (r ∈ update_value id k' w' t ↔ r ∈ t)) as Hsame.
  { intros r E. rewrite update_value_elem.
    apply is_attribute_row_spec in E as [Hid Hk]. split.
    - intros [[Hr _]|[-> _]]; [done|]. simpl in Hk. by destruct Hne.
    - intros Hr. left. split; [done|]. apply not_true_is_false. intros E'.
      apply is_attribute_row_spec in E' as [_ E']. destruct Hne. congruence. }
  assert (attribute_is id k w (update_value id k' w' t)) as [Hhas' Hall'].
  { split.
    - apply has_attribute_spec in Hhas as (r & Hr & E).
      apply has_attribute_spec. exists r. split; [by apply Hsame|done].
    - intros r Hr E. apply Hall; [by apply Hsame|done]. }
  destruct (has_attribute id k' (update_value id k' w' t)); [by split|].
  split.
  - apply has_attribute_spec in Hhas' as (r & Hr & E).
    apply has_attribute_spec. exists r. split; [|done].
    apply elem_of_app. by left.
  - intros r Hr E. apply elem_of_app in Hr as [Hr|Hr]; [by apply Hall'|].
    apply list_elem_of_singleton in Hr as ->.
    by rewrite is_attribute_row_other in E.
Qed.

(** A step leaves the rows of the other ids as they are. *)
Lemma modify_step_others (id : Z) (t t' : table) (kv : string * string)
    (r : row) :
  modify_step id t kv = Ok t' → row_id r ≠ id → (r ∈ t' ↔ r ∈ t).
Proof.
  destruct kv as [k v]. unfold modify_step.
  case_bool_decide; [|by intros [= <-]].
  destruct (String.eqb k "dir" && negb (isabs (stored_value k v))); [done|].
  intros [= <-] Hid.
  assert (r ∈ update_value id k (stored_value k v) t ↔ r ∈ t) as Hupd.
  { rewrite update_value_elem. split.
    - intros [[Hr _]|[-> _]]; [done|]. by destruct Hid.
    - intros Hr. left. split; [done|]. apply not_true_is_false. intros E.
      apply is_attribute_row_spec in E as [E _]. by destruct Hid. }
  destruct (has_attribute id k _); [done|].
  rewrite elem_of_app, Hupd, list_elem_of_singleton. split; [|by left].
  intros [Hr| ->]; [done|]. by destruct Hid.
Qed.

Lemma modify_step_ok (id : Z) (t : table) (k v : string) :
  k ≠ "dir" ∨ isabs v = true → ∃ t', modify_step id t (k, v) = Ok t'.
Proof.
  intros Hok. unfold modify_step. case_bool_decide; [|by eexists].
  assert (String.eqb k "dir" && negb (isabs (stored_value k v)) = false) as ->.
  { destruct Hok as [Hne|Habs].
    - apply String.eqb_neq in Hne. by rewrite Hne.
    - destruct (String.eqb_spec k "dir") as [->|Hne]; [|done].
      unfold stored_value. simpl. by rewrite Habs. }
  by eexists.
Qed.

Lemma modify_rows_sets (id : Z) (l : list (string * string)) (t t' : table)
    (k v : string) :
  NoDup l.*1 → (k, v) ∈ l → k ∈ repository_attrs →
  modify_rows id l t = Ok t' → attribute_is id k (stored_value k v) t'.
Proof.
  revert t. induction l as [|[k0 v0] l IH]; intros t Hnd Hin Hattr.
  - inversion Hin.
  - rewrite fmap_cons in Hnd. apply NoDup_cons in Hnd as [Hnotin Hnd].
    cbn [modify_rows].
    destruct (modify_step id t (k0, v0)) as [t1|e] eqn:Hstep; [|done].
    apply elem_of_cons in Hin as [[= <- <-]|Hin].
    + intros Hrest. pose proof (modify_step_sets id t t1 k v Hattr Hstep) as Hset.
      clear IH Hstep. revert t1 Hrest Hset.
      induction l as [|[k1 v1] l IHl]; intros t1 Hrest Hset.
      * by injection Hrest as <-.
      * cbn [modify_rows] in Hrest.
        destruct (modify_step id t1 (k1, v1)) as [t2|e] eqn:Hstep1; [|done].
        rewrite fmap_cons in Hnotin, Hnd.
        apply not_elem_of_cons in Hnotin as [Hne Hnotin].
        apply NoDup_cons in Hnd as [_ Hnd].
        apply (IHl Hnotin Hnd t2 Hrest).
        by apply (modify_step_keeps id t1 t2 k k1 v1).
    + by apply IH.
Qed.

Lemma modify_rows_others (id : Z) (l : list (string * string)) (t t' : table)
    (r : row) :
  modify_rows id l t = Ok t' → row_id r ≠ id → (r ∈ t' ↔ r ∈ t).
Proof.
  revert t. induction l as [|kv l IH]; intros t; cbn [modify_rows].
  - by intros [= <-].
  - destruct (modify_step id t kv) as [t1|e] eqn:Hstep; [|done].
    intros Hrest Hid. rewrite (IH t1 Hrest Hid).
    by apply (modify_step_others id t t1 kv).
Qed.

Lemma modify_rows_ok (id : Z) (l : list (string * string)) (t : table) :
  (∀ v, ("dir", v) ∈ l → isabs v = true) → ∃ t', modify_rows id l t = Ok t'.
Proof.
  revert t. induction l as [|[k v] l IH]; intros t Hok; cbn [modify_rows];
    [by eexists|].
  destruct (modify_step_ok id t k v) as [t1 ->].
  { destruct (decide (k = "dir")) as [->|Hne]; [right|by left].
    apply Hok. by left. }
  apply IH. intros v' Hin. apply Hok. by right.
Qed.

Lemma modify_rows_rejects (id : Z) (l : list (string * string)) (t : table)
    (v : string) :
  NoDup l.*1 → ("dir", v) ∈ l → isabs v = false →
  modify_rows id l t
  = Raise (TracError "The repository directory must be absolute").
Proof.
  revert t. induction l as [|[k0 v0] l IH]; intros t Hnd Hin Habs.
  - inversion Hin.
  - rewrite fmap_cons in Hnd. apply NoDup_cons in Hnd as [Hnotin Hnd].
    cbn [modify_rows]. apply elem_of_cons in Hin as [[= <- <-]|Hin].
    + unfold modify_step. rewrite bool_decide_eq_true_2
        by (unfold repository_attrs; repeat constructor).
      unfold stored_value. simpl. by rewrite Habs.
    + destruct (modify_step_ok id t k0 v0) as [t1 ->]; [|by apply IH].
      left. intros ->. apply Hnotin.
      apply list_elem_of_fmap. by exists ("dir", v).
Qed.

Section modify_facts.
Context {store : Type}.

Implicit Types s : State store.

(** [modify_repository] with a ['dir'] that is not absolute raises a
    [TracError] whatever the other changes are, and leaves the whole state
    as it was: the changes made before the error and the id allocated for
    the name are rolled back, and the repositories are not reloaded. *)
Theorem modify_repository_rejects (reponame : string)
    (changes : gmap string string) (v : string) s :
  changes !! "dir" = Some v → isabs v = false →
  modify_repository reponame changes s
  = (Raise (TracError "The repository directory must be absolute"), s).
Proof.
  intros Hdir Habs. unfold modify_repository.
  destruct (get_repository_id _ (db s)) as [id t].
  rewrite (modify_rows_rejects id (map_to_list changes) t v); try done.
  - apply NoDup_fst_map_to_list.
  - by apply elem_of_map_to_list.
Qed.

(** When every ['dir'] among the changes is absolute, [modify_repository]
    returns, and afterwards each changed key of [repository_attrs] is an
    attribute of the id of the name, with the value given (the empty name
    for a default ['alias'] or ['name']) in every row of it, so that the
    database provider reads that value back; the rows of the other ids
    are the same as before, and the repositories have been reloaded. *)
Theorem modify_repository_sets (reponame : string)
    (changes : gmap string string) s :
  (∀ v, changes !! "dir" = Some v → isabs v = true) →
  let name := if is_default reponame then "" else reponame in
  let id := (get_repository_id name (db s)).1 in
  ∃ s',
    modify_repository reponame changes s = (Ok tt, s') ∧
    (∀ k v, changes !! k = Some v → k ∈ repository_attrs →
       attribute_is id k (stored_value k v) (db s') ∧
       ∃ info, group_rows (db s') !! id = Some info ∧
               info !! k = Some (PStr (stored_value k v))) ∧
    (∀ r, row_id r ≠ id →
          (r ∈ db s' ↔ r ∈ (get_repository_id name (db s)).2)) ∧
    _cache s' = ∅ ∧ _all_repositories s' = None.
Proof.
  intros Hok name id. unfold modify_repository. fold name. subst id.
  destruct (get_repository_id name (db s)) as [id t]. simpl.
  destruct (modify_rows_ok id (map_to_list changes) t) as [t' Hrows].
  { intros v Hin. apply Hok. by apply elem_of_map_to_list. }
  rewrite Hrows. eexists. split; [reflexivity|]. simpl.
  split; [|split; [|done]].
  - intros k v Hk Hattr.
    assert (attribute_is id k (stored_value k v) t') as Hset.
    { apply (modify_rows_sets id (map_to_list changes) t); try done.
      - apply NoDup_fst_map_to_list.
      - by apply elem_of_map_to_list. }
    split; [done|]. destruct Hset as [Hhas Hall].
    apply has_attribute_spec in Hhas as (r & Hr & E).
    pose proof (Hall r Hr E) as Hval.
    apply is_attribute_row_spec in E as [Hid Hname].
    destruct (group_rows_complete t' r (stored_value k v) Hr) as (info & Hg & Hi).
    + by rewrite Hname.
    + done.
    + intros r' w' Hr' Hid' Hname' Hval'.
      assert (row_value r' = Some (stored_value k v)) as Hv.
      { apply Hall; [done|]. apply is_attribute_row_spec. split; congruence. }
      congruence.
    + exists info. rewrite Hid in Hg. rewrite Hname in Hi. by split.
  - intros r Hid. by apply (modify_rows_others id (map_to_list changes) t t').
Qed.

End modify_facts.

Lemma modify_repository_rejects_witness :
  let s := initial_state (store := list Z) [Row 1 "name" (Some "trunk")] in
  modify_repository "trunk"
    (<["dir" := "repos/trunk"]> {["url" := "http://example.org/"]}) s
  = (Raise (TracError "The repository directory must be absolute"), s).
Proof.
  intros s. apply (modify_repository_rejects "trunk" _ "repos/trunk" s).
  - reflexivity.
  - reflexivity.
Defined.

Lemma modify_repository_sets_witness :
  let s := initial_state (store := list Z)
             [Row 1 "name" (Some "trunk"); Row 1 "dir" (Some "/old")] in
  ∃ s', modify_repository "trunk"
          (<["dir" := "/repos/trunk"]> {["alias" := "(default)"]}) s
        = (Ok tt, s') ∧
        attribute_is 1 "dir" "/repos/trunk" (db s') ∧
        attribute_is 1 "alias" "" (db s').
Proof.
  intros s.
  destruct (modify_repository_sets "trunk"
              (<["dir" := "/repos/trunk"]> {["alias" := "(default)"]}) s)
    as (s' & Hrun & Hset & _).
  - intros v Hv. vm_compute in Hv. by injection Hv as <-.
  - exists s'. split; [done|]. split.
    + apply (Hset "dir" "/repos/trunk"); [reflexivity|].
      unfold repository_attrs. repeat constructor.
    + apply (Hset "alias" "(default)"); [reflexivity|].
      unfold repository_attrs. repeat constructor.
Defined.

(** ** Path helpers of [svn_authz.py] *)

Lemma lstrip_slash_not_abs (s : string) : isabs (lstrip_slash s) = false.
Proof.
  induction s as [|c r IH]; [done|]. simpl.
  destruct (is_slash c) eqn:E; [done|]. simpl. exact E.
Qed.

Lemma rstrip_slash_not_ends (s : string) :
  ends_with_slash (rstrip_slash s) = false.
Proof.
  induction s as [|c r IH]; [done|]. simpl.
  destruct (rstrip_slash r) as [|c' r'] eqn:E.
  - destruct (is_slash c) eqn:Ec; [done|]. simpl. exact Ec.
  - exact IH.
Qed.

Lemma rstrip_slash_not_abs (s : string) :
  isabs s = false → isabs (rstrip_slash s) = false.
Proof.
  destruct s as [|c r]; [done|]. simpl. intros Hc.
  destruct (rstrip_slash r); [by rewrite Hc|done].
Qed.

Lemma strip_slash_clean (s : string) :
  isabs (strip_slash s) = false ∧ ends_with_slash (strip_slash s) = false.
Proof.
  unfold strip_slash. split.
  - apply rstrip_slash_not_abs, lstrip_slash_not_abs.
  - apply rstrip_slash_not_ends.
Qed.

Lemma isabs_append (a b : string) :
  nonempty a = true → isabs (a +:+ b) = isabs a.
Proof. by destruct a. Qed.

Lemma ends_with_slash_append (a b : string) :
  nonempty b = true → ends_with_slash (a +:+ b) = ends_with_slash b.
Proof.
  intros Hb. induction a as [|c a IH]; [done|]. simpl.
  destruct (a +:+ b) as [|c' r] eqn:E; [|done].
  destruct a; [|done]. change (b = "") in E. by rewrite E in Hb.
Qed.

Lemma nonempty_append (a b : string) :
  nonempty a = true → nonempty (a +:+ b) = true.
Proof. by destruct a. Qed.

Lemma concat_clean (parts : list string) :
  (∀ x, x ∈ parts → nonempty x = true ∧ isabs x = false ∧
                    ends_with_slash x = false) →
  isabs (String.concat "/" parts) = false ∧
  ends_with_slash (String.concat "/" parts) = false ∧
  (parts ≠ [] → nonempty (String.concat "/" parts) = true).
Proof.
  induction parts as [|x parts IH]; intros Hall; [done|].
  destruct (Hall x) as (Hx1 & Hx2 & Hx3); [by left|].
  destruct IH as (IH1 & IH2 & IH3). { intros y Hy. apply Hall. by right. }
  destruct parts as [|y parts]; [done|].
  change (String.concat "/" (x :: y :: parts))
    with (x +:+ "/" +:+ String.concat "/" (y :: parts)).
  assert (nonempty (String.concat "/" (y :: parts)) = true) as Hne
    by (by apply IH3).
  split; [by rewrite isabs_append|]. split.
  - rewrite ends_with_slash_append by done.
    change ("/" +:+ String.concat "/" (y :: parts))
      with (String slash (String.concat "/" (y :: parts))).
    destruct (String.concat "/" (y :: parts)); [done|]. exact IH2.
  - intros _. by apply nonempty_append.
Qed.

(** [join] never begins or ends with ['/'], whatever slashes its
    arguments carry, and is empty exactly when every argument is empty or
    made of slashes only. *)
Theorem authz_join_clean (args : list string) :
  isabs (authz_join args) = false ∧
  ends_with_slash (authz_join args) = false ∧
  (authz_join args = "" ↔ ∀ a, a ∈ args → strip_slash a = "").
Proof.
  unfold authz_join.
  set (parts := List.filter nonempty (strip_slash <$> args)).
  assert (∀ x, x ∈ parts ↔ nonempty x = true ∧ ∃ a, a ∈ args ∧ x = strip_slash a)
    as Hparts.
  { intros x. unfold parts. rewrite list_elem_of_In, filter_In.
    rewrite <- list_elem_of_In, list_elem_of_fmap. split.
    - intros [(a & -> & Ha) Hne]. split; [done|]. by exists a.
    - intros [Hne (a & Ha & ->)]. split; [|done]. by exists a. }
  destruct (concat_clean parts) as (H1 & H2 & H3).
  { intros x Hx. apply Hparts in Hx as (Hne & a & _ & ->).
    split; [done|]. apply strip_slash_clean. }
  split; [done|]. split; [done|]. split.
  - intros Hempty a Ha.
    destruct (strip_slash a) as [|c r] eqn:E; [done|]. exfalso.
    assert (parts ≠ []) as Hne.
    { intros Hnil. assert (String c r ∈ parts) as Hin.
      { apply Hparts. split; [done|]. by exists a. }
      rewrite Hnil in Hin. inversion Hin. }
    specialize (H3 Hne). by rewrite Hempty in H3.
  - intros Hall. assert (parts = []) as ->; [|done].
    destruct parts as [|x l]; [done|]. exfalso.
    assert (x ∈ x :: l) as Hx by (by left).
    apply Hparts in Hx as (Hne & a & Ha & ->).
    by rewrite (Hall a Ha) in Hne.
Qed.

Lemma authz_join_clean_witness :
  authz_join ["/trunk/"; "//"; "src/"] = "trunk/src" ∧
  authz_join ["/"; ""] = "".
Proof.
  split; [reflexivity|].
  apply (authz_join_clean ["/"; ""]).
  intros a Ha. apply elem_of_cons in Ha as [->|Ha]; [reflexivity|].
  by apply list_elem_of_singleton in Ha as ->.
Defined.

Lemma append_assoc (a b c : string) : (a +:+ b) +:+ c = a +:+ (b +:+ c).
Proof.
  induction a as [|x a IH]; [done|].
  change (String x ((a +:+ b) +:+ c) = String x (a +:+ (b +:+ c))).
  by rewrite IH.
Qed.

Lemma append_nil_r (a : string) : a +:+ "" = a.
Proof.
  induction a as [|x a IH]; [done|].
  change (String x (a +:+ "") = String x a). by rewrite IH.
Qed.

Lemma str_take_drop (n : nat) (s : string) :
  str_take n s +:+ str_drop n s = s.
Proof.
  revert s. induction n as [|n IH]; intros [|c r]; try done.
  change (String c (str_take n r +:+ str_drop n r) = String c r).
  by rewrite IH.
Qed.

Lemma str_take_length (n : nat) (s : string) :
  String.length (str_take n s) ≤ String.length s ∧
  String.length (str_take n s) ≤ n.
Proof.
  revert s. induction n as [|n IH]; intros [|c r]; simpl; try lia.
  destruct (IH r). lia.
Qed.

Lemma isabs_str_take (n : nat) (s : string) :
  isabs (str_take (S n) s) = isabs s.
Proof. by destruct s. Qed.

Lemma isabs_str_take_false (n : nat) (s : string) :
  isabs s = false → isabs (str_take n s) = false.
Proof. destruct n; [done|]. by rewrite isabs_str_take. Qed.

Lemma rfind_slash_abs (s : string) : isabs s = true → (0 ≤ rfind_slash s)%Z.
Proof.
  assert (∀ r, (-1 ≤ rfind_slash r)%Z) as Hlow.
  { induction r as [|c r IH]; simpl; [lia|].
    destruct (0 <=? rfind_slash r)%Z eqn:E; [lia|]. destruct (is_slash c); lia. }
  destruct s as [|c r]; [done|]. simpl. intros ->.
  specialize (Hlow r). destruct (0 <=? rfind_slash r)%Z eqn:E; lia.
Qed.

Lemma parent_iter_ends (fuel : nat) (path : string) :
  isabs path = true → String.length path ≤ fuel →
  ∃ l, parent_iter fuel path = Some l ∧ head l = Some path ∧
       last l = Some "/" ∧
       ∀ x, x ∈ l → isabs x = true ∧ ∃ rest, path = x +:+ rest.
Proof.
  revert path. induction fuel as [|fuel IH]; intros path Habs Hlen.
  - destruct path; [done|]. simpl in Hlen. lia.
  - cbn [parent_iter]. destruct (String.eqb_spec path "/") as [->|Hne].
    + exists ["/"]. repeat split; try done.
      * by apply list_elem_of_singleton in H as ->.
      * apply list_elem_of_singleton in H as ->. by exists "".
    + set (path1 := str_init path).
      set (path2 := str_take (Z.to_nat (rfind_slash path1 + 1)) path1).
      assert (isabs path1 = true ∧ String.length path1 < String.length path)
        as [Habs1 Hlen1].
      { unfold path1, str_init. destruct path as [|c r]; [done|].
        destruct r as [|c' r'].
        - exfalso. apply Hne. simpl in Habs. apply Ascii.eqb_eq in Habs.
          by rewrite Habs.
        - split; [done|].
          pose proof (str_take_length
            (String.length (String c (String c' r')) - 1)
            (String c (String c' r'))) as [_ H2].
          simpl in *. lia. }
      pose proof (rfind_slash_abs path1 Habs1) as Hidx.
      assert (isabs path2 = true) as Habs2.
      { unfold path2.
        replace (Z.to_nat (rfind_slash path1 + 1))
          with (S (Z.to_nat (rfind_slash path1))) by lia.
        by rewrite isabs_str_take. }
      assert (String.length path2 ≤ fuel) as Hlen2.
      { pose proof (str_take_length (Z.to_nat (rfind_slash path1 + 1)) path1)
          as [H1 _]. fold path2 in H1. lia. }
      destruct (IH path2 Habs2 Hlen2) as (l & -> & Hhead & Hlast & Hall).
      exists (path :: path1 :: l). split; [done|]. split; [done|]. split.
      * destruct l as [|y l]; [done|]. exact Hlast.
      * intros x Hx. apply elem_of_cons in Hx as [->|Hx].
        { split; [done|]. exists "". by rewrite append_nil_r. }
        apply elem_of_cons in Hx as [->|Hx].
        { split; [done|]. exists (str_drop (String.length path - 1) path).
          unfold path1, str_init. by rewrite str_take_drop. }
        destruct (Hall x Hx) as [Hax [rest Hrest]]. split; [done|].
        exists (rest +:+ str_drop (Z.to_nat (rfind_slash path1 + 1)) path1
                  +:+ str_drop (String.length path - 1) path).
        rewrite <- append_assoc, <- append_assoc, <- Hrest.
        unfold path2. rewrite str_take_drop.
        unfold path1, str_init. by rewrite str_take_drop.
Qed.

Lemma parent_iter_loops (fuel : nat) (path : string) :
  isabs path = false → parent_iter fuel path = None.
Proof.
  revert path. induction fuel as [|fuel IH]; intros path Habs; [done|].
  cbn [parent_iter]. destruct (String.eqb_spec path "/") as [->|Hne]; [done|].
  rewrite IH; [done|].
  apply isabs_str_take_false. unfold str_init. by apply isabs_str_take_false.
Qed.

(** [parent_iter(path)] ends exactly for the paths that begin with ['/']:
    for such a path the loop ends within as many rounds as the path has
    characters, having yielded the path first and ['/'] last, every path
    yielded beginning with ['/'] and being a prefix of the path given; for
    a path that does not begin with ['/'] (the empty one included) the
    loop never ends, however many rounds it is given. *)
Theorem parent_iter_terminates (path : string) :
  (isabs path = true →
   ∃ l, parent_iter (String.length path) path = Some l ∧
        head l = Some path ∧ last l = Some "/" ∧
        ∀ x, x ∈ l → isabs x = true ∧ ∃ rest, path = x +:+ rest) ∧
  (isabs path = false → ∀ fuel, parent_iter fuel path = None).
Proof.
  split.
  - intros Habs. by apply parent_iter_ends.
  - intros Habs fuel. by apply parent_iter_loops.
Qed.

Lemma parent_iter_terminates_witness :
  parent_iter 7 "/a/b/" = Some ["/a/b/"; "/a/b"; "/a/"; "/a"; "/"] ∧
  parent_iter 7 "a/b" = None.
Proof.
  split; [reflexivity|].
  apply (proj2 (parent_iter_terminates "a/b")). reflexivity.
Defined.

(** ** Nodes *)

Lemma split_slash_nonempty (s : string) : split_slash s ≠ [].
Proof.
  induction s as [|c r IH]; [done|]. simpl.
  destruct (is_slash c); [done|]. by destruct (split_slash r).
Qed.

Lemma split_slash_no_slash (s x : string) :
  x ∈ split_slash s → has_slash x = false.
Proof.
  revert x. induction s as [|c r IH]; intros x; simpl.
  - intros Hx. by apply list_elem_of_singleton in Hx as ->.
  - destruct (is_slash c) eqn:Ec.
    + intros Hx. apply elem_of_cons in Hx as [->|Hx]; [done|by apply IH].
    + destruct (split_slash r) as [|y l] eqn:E.
      * intros Hx. apply list_elem_of_singleton in Hx as ->. simpl.
        by rewrite Ec.
      * intros Hx. apply elem_of_cons in Hx as [->|Hx].
        -- simpl. rewrite Ec. apply IH. by left.
        -- apply IH. by right.
Qed.

Lemma split_slash_concat (s : string) :
  String.concat "/" (split_slash s) = s.
Proof.
  induction s as [|c r IH]; [done|]. simpl.
  destruct (is_slash c) eqn:Ec.
  - apply Ascii.eqb_eq in Ec as ->.
    pose proof (split_slash_nonempty r) as Hne.
    destruct (split_slash r) as [|y l] eqn:E; [done|].
    change (String.concat "/" ("" :: y :: l))
      with (String slash (String.concat "/" (y :: l))).
    by rewrite IH.
  - pose proof (split_slash_nonempty r) as Hne.
    destruct (split_slash r) as [|y l] eqn:E; [done|].
    destruct l as [|z l].
    + simpl in *. by rewrite IH.
    + change (String.concat "/" (String c y :: z :: l))
        with (String c (String.concat "/" (y :: z :: l))).
      by rewrite IH.
Qed.

Lemma concat_snoc (l : list string) (x : string) :
  String.concat "/" (l ++ [x])
  = match l with
    | [] => ""
    | _ => String.concat "/" l +:+ "/"
    end +:+ x.
Proof.
  induction l as [|y l IH]; [done|].
  destruct l as [|z l].
  - change (y +:+ "/" +:+ x = (y +:+ "/") +:+ x). by rewrite append_assoc.
  - change (String.concat "/" ((y :: z :: l) ++ [x]))
      with (y +:+ "/" +:+ String.concat "/" ((z :: l) ++ [x])).
    rewrite IH.
    change (String.concat "/" (y :: z :: l))
      with (y +:+ "/" +:+ String.concat "/" (z :: l)).
    by rewrite !append_assoc.
Qed.

(** A [Node] is constructed for the kinds ["dir"] and ["file"] only, any
    other kind failing the assertion; a constructed node is a directory or
    a file and not both. Its name, the last component of its path, has no
    ['/'] in it, and the path is the name preceded by nothing or by a
    prefix that ends with ['/']; splitting a path at ['/'] and joining the
    components with ['/'] gives the path back. *)
Theorem Node_kind_and_name (repos : nat) (path : string) (rev : pyval)
    (kind : string) :
  (kind ≠ DIRECTORY → kind ≠ FILE →
   Node_init repos path rev kind = Raise AssertionError) ∧
  (∀ n, Node_init repos path rev kind = Ok n →
     node_path n = path ∧ node_kind n = kind ∧ isdir n = negb (isfile n) ∧
     has_slash (get_name n) = false ∧
     ∃ parent, path = parent +:+ get_name n ∧
               (parent = "" ∨ ends_with_slash parent = true)) ∧
  String.concat "/" (split_slash path) = path.
Proof.
  split; [|split; [|apply split_slash_concat]].
  - intros Hd Hf. unfold Node_init. rewrite bool_decide_eq_false_2; [done|].
    intros Hin. apply elem_of_cons in Hin as [->|Hin]; [done|].
    by apply list_elem_of_singleton in Hin as ->.
  - intros n. unfold Node_init. case_bool_decide as Hkind; [|done].
    intros [= <-]. simpl. split; [done|]. split; [done|]. split.
    { unfold isdir, isfile. simpl.
      apply elem_of_cons in Hkind as [->|Hkind]; [done|].
      by apply list_elem_of_singleton in Hkind as ->. }
    unfold get_name. simpl.
    destruct (last (split_slash path)) as [name|] eqn:Hlast.
    2:{ apply last_None in Hlast. by destruct (split_slash_nonempty path). }
    simpl. split.
    + apply (split_slash_no_slash path). by apply last_Some_elem_of.
    + apply last_Some in Hlast as [l Hl].
      pose proof (split_slash_concat path) as Hcat.
      rewrite Hl, concat_snoc in Hcat.
      destruct l as [|y l].
      * exists "". split; [done|by left].
      * exists (String.concat "/" (y :: l) +:+ "/"). split; [done|]. right.
        by rewrite ends_with_slash_append.
Qed.

Lemma Node_kind_and_name_witness :
  Node_init 0 "trunk/src/main.py" (PInt 7) "link" = Raise AssertionError ∧
  get_name (mkNode 0 "trunk/src/main.py" (PInt 7) "file") = "main.py" ∧
  has_slash "main.py" = false.
Proof.
  destruct (Node_kind_and_name 0 "trunk/src/main.py" (PInt 7) "link")
    as (Hbad & _ & _).
  destruct (Node_kind_and_name 0 "trunk/src/main.py" (PInt 7) "file")
    as (_ & Hgood & _).
  split; [apply Hbad; discriminate|].
  split; [reflexivity|].
  by destruct (Hgood (mkNode 0 "trunk/src/main.py" (PInt 7) "file") eq_refl)
    as (_ & _ & _ & Hname & _).
Defined.

(** ** Changesets of a period *)

(** Every changeset [get_changesets(start, stop)] yields is dated within
    the period, [start] included and [stop] excluded, however the run
    ends; and a run that goes on past a revision has found its changeset
    dated at [start] or later: the first changeset older than [start] ends
    the run, the changesets behind it not being looked at. *)
Theorem get_changesets_window (get_changeset_at : pyval → result Changeset)
    (previous_rev : pyval → option pyval) (fuel : nat) (rev : option pyval)
    (start stop : Z) :
  (∀ c, c ∈ (get_changesets get_changeset_at previous_rev fuel rev
               start stop).1 →
        (start ≤ cs_date c < stop)%Z) ∧
  (∀ r c, rev = Some r → truthy r = true → get_changeset_at r = Ok c →
          (cs_date c < start)%Z →
          get_changesets get_changeset_at previous_rev (S fuel) rev start stop
          = ([], Finished)).
Proof.
  split.
  - revert rev. induction fuel as [|fuel IH]; intros rev c; simpl.
    + intros Hc. inversion Hc.
    + destruct rev as [r|]; [|intros Hc; inversion Hc].
      destruct (truthy r); [|intros Hc; inversion Hc].
      destruct (get_changeset_at r) as [chgset|e]; [|intros Hc; inversion Hc].
      destruct (cs_date chgset <? start)%Z eqn:Hstart;
        [intros Hc; inversion Hc|].
      specialize (IH (previous_rev r) c).
      destruct (get_changesets _ _ fuel (previous_rev r) start stop) as [l e].
      simpl in *. destruct (cs_date chgset <? stop)%Z eqn:Hstop; [|done].
      intros Hc. apply elem_of_cons in Hc as [->|Hc]; [lia|by apply IH].
  - intros r c -> Ht Hget Hold. simpl. rewrite Ht, Hget.
    by rewrite (proj2 (Z.ltb_lt _ _) Hold).
Qed.

Lemma get_changesets_window_witness :
  let history rev :=
    match rev with
    | PInt n => Ok (Changeset_init 0 rev None None (10 * n))
    | PStr _ => Raise (NoSuchChangeset rev)
    end in
  let previous rev :=
    match rev with
    | PInt n => Some (PInt (n - 1))
    | PStr _ => None
    end in
  cs_date <$> (get_changesets history previous 10 (Some (PInt 5)) 20 40).1
  = [30; 20]%Z ∧
  (20 ≤ 30 < 40)%Z.
Proof.
  intros history previous. split; [reflexivity|].
  apply (proj1 (get_changesets_window history previous 10 (Some (PInt 5)) 20 40)
           (Changeset_init 0 (PInt 3) None None 30)).
  vm_compute. left.
Defined.

(** ** Notifying the listeners *)

Section listener_facts.
Context {store : Type} `{!Backend store}.
Variable env : Env.

Implicit Types s : State store.

(** The calls recorded when the listeners [ls], numbered from [idx], are
    invoked in turn. *)
Lemma call_listeners_all (ls : list Listener) (idx : nat) (event : string)
    (h : nat) (cs : Changeset) (args : list (option Changeset)) s :
  (∀ l, l ∈ ls → listener_call l event h cs args = None) →
  ∃ s', call_listeners ls idx event h cs args s = (Ok tt, s') ∧
        calls s' = calls s ++ imap (λ i _, mkCall (idx + i) event h cs args) ls ∧
        heap s' = heap s.
Proof.
  revert idx s. induction ls as [|l ls IH]; intros idx s Hall.
  - exists s. simpl. by rewrite app_nil_r.
  - simpl. rewrite (Hall l) by (by left).
    destruct (IH (S idx) (set_calls (calls s ++ [mkCall idx event h cs args]) s))
      as (s' & -> & Hcalls & Hheap).
    { intros l' Hl'. apply Hall. by right. }
    exists s'. split; [done|]. split; [|done].
    rewrite Hcalls. simpl. rewrite <- app_assoc. simpl.
    rewrite Nat.add_0_r. do 2 f_equal.
    apply imap_ext. intros i x _. simpl. f_equal. lia.
Qed.

Lemma call_listeners_raises (before after : list Listener) (l : Listener)
    (e : exn) (idx : nat) (event : string) (h : nat) (cs : Changeset)
    (args : list (option Changeset)) s :
  (∀ l', l' ∈ before → listener_call l' event h cs args = None) →
  listener_call l event h cs args = Some e →
  ∃ s', call_listeners (before ++ l :: after) idx event h cs args s
        = (Raise e, s') ∧
        calls s' = calls s ++ imap (λ i _, mkCall (idx + i) event h cs args)
                                (before ++ [l]).
Proof.
  revert idx s. induction before as [|l0 before IH]; intros idx s Hall Hl.
  - simpl. rewrite Hl. eexists. split; [done|]. simpl.
    by rewrite Nat.add_0_r.
  - simpl. rewrite (Hall l0) by (by left).
    destruct (IH (S idx) (set_calls (calls s ++ [mkCall idx event h cs args]) s))
      as (s' & -> & Hcalls); [|done|].
    { intros l' Hl'. apply Hall. by right. }
    exists s'. split; [done|]. rewrite Hcalls. simpl. rewrite <- app_assoc.
    simpl. rewrite Nat.add_0_r. do 2 f_equal.
    apply imap_ext. intros i x _. simpl. f_equal. lia.
Qed.

(** For an event other than [changeset_modified] and a revision whose
    changeset the repository has, the iteration of [notify] invokes every
    registered listener once, in registration order, with the repository,
    the changeset and no further argument, and returns when none of them
    raises; when a listener raises, the exception leaves [notify], the
    listeners registered before it having been invoked and those after it
    not. *)
Theorem notify_rev_invokes (event : string) (h : nat) (r : Repository store)
    (rev : pyval) (cs : Changeset) s :
  event ≠ "changeset_modified" →
  heap s !! h = Some r →
  bk_get_changeset rev (repo_store r) = Ok cs →
  let invoked ls := imap (λ i _, mkCall i event h cs []) ls in
  ((∀ l, l ∈ change_listeners env → listener_call l event h cs [] = None) →
   ∃ s', notify_rev env event h rev s = (Ok tt, s') ∧
         calls s' = calls s ++ invoked (change_listeners env) ∧
         heap s' = heap s) ∧
  (∀ before l after e,
     change_listeners env = before ++ l :: after →
     (∀ l', l' ∈ before → listener_call l' event h cs [] = None) →
     listener_call l event h cs [] = Some e →
     ∃ s', notify_rev env event h rev s = (Raise e, s') ∧
           calls s' = calls s ++ invoked (before ++ [l])).
Proof.
  intros Hev Hr Hget invoked.
  assert (notify_rev env event h rev s
          = call_listeners (change_listeners env) 0 event h cs [] s) as ->.
  { unfold notify_rev, bind. apply String.eqb_neq in Hev. rewrite Hev. simpl.
    unfold fetch_changeset, try_except, bind, get_changeset, with_repository.
    by rewrite Hr, Hget. }
  split.
  - intros Hall.
    destruct (call_listeners_all (change_listeners env) 0 event h cs [] s Hall)
      as (s' & -> & Hcalls & Hheap).
    by exists s'.
  - intros before l after e -> Hall Hl.
    destruct (call_listeners_raises before after l e 0 event h cs [] s Hall Hl)
      as (s' & -> & Hcalls).
    by exists s'.
Qed.

End listener_facts.

Lemma notify_rev_invokes_witness :
  let env := sample_env plain_ini in
  let s := (get_repository env 1 (Some "B") (initial_state [])).2 in
  ∃ s', notify_rev env "changeset_added" 0 (PInt 2) s = (Ok tt, s') ∧
        length (calls s') = 1.
Proof.
  intros env s.
  destruct (notify_rev_invokes env "changeset_added" 0
              (mkRepository "svn:/path"
                 (<["id" := PInt 2]> (<["name" := PStr "B"]>
                    {["dir" := PStr "/path"]}))
                 (PStr "B") (PInt 2) false [1; 2; 3]%Z)
              (PInt 2) (Changeset_init 0 (PInt 2) None None 0) s)
    as [Hall _].
  - discriminate.
  - vm_compute. reflexivity.
  - reflexivity.
  - destruct Hall as (s' & Hrun & Hcalls & _).
    + intros l Hl. apply list_elem_of_singleton in Hl as ->. reflexivity.
    + exists s'. split; [done|]. rewrite Hcalls. reflexivity.
Defined.

(** ** Adding an alias *)







Section alias_facts.
Context {store : Type} `{!Backend store}.
Variable env : Env.

Implicit Types s : State store.


End alias_facts.


(** ** The [trac.ini] provider *)

Lemma str_drop_length_append (a b : string) :
  str_drop (String.length a) (a +:+ b) = b.
Proof. induction a as [|c a IH]; [done|]. simpl. exact IH. Qed.

Lemma str_take_length_append (a b : string) :
  str_take (String.length a) (a +:+ b) = a.
Proof.
  induction a as [|c a IH]; [by destruct b|].
  change (String c a +:+ b) with (String c (a +:+ b)). simpl. by rewrite IH.
Qed.

Lemma length_append (a b : string) :
  String.length (a +:+ b) = String.length a + String.length b.
Proof.
  induction a as [|c a IH]; [done|].
  change (String c a +:+ b) with (String c (a +:+ b)). simpl. by rewrite IH.
Qed.

Lemma endswith_spec (s suffix : string) :
  endswith s suffix = true ↔
  s = str_take (String.length s - String.length suffix) s +:+ suffix.
Proof.
  unfold endswith. rewrite andb_true_iff, Nat.leb_le, String.eqb_eq. split.
  - intros [_ Heq].
    pose proof (str_take_drop
                  (String.length s - String.length suffix) s) as Hs.
    by rewrite Heq in Hs.
  - intros Heq.
    assert (String.length suffix ≤ String.length s) as Hle.
    { rewrite Heq, length_append. lia. }
    split; [done|].
    pose proof (str_take_drop
                  (String.length s - String.length suffix) s) as Hs.
    rewrite <- Hs in Heq at 1.
    revert Heq. generalize (str_drop (String.length s - String.length suffix) s).
    generalize (str_take (String.length s - String.length suffix) s).
    intros a. induction a as [|c a IH]; intros b Hb; [done|].
    change (String c a +:+ b) with (String c (a +:+ b)) in Hb.
    change (String c a +:+ suffix) with (String c (a +:+ suffix)) in Hb.
    injection Hb as Hb. by apply IH.
Qed.

Lemma endswith_append (a suffix : string) :
  endswith (a +:+ suffix) suffix = true.
Proof.
  unfold endswith. rewrite length_append.
  replace (String.length a + String.length suffix - String.length suffix)
    with (String.length a) by lia.
  rewrite str_drop_length_append, String.eqb_refl.
  rewrite andb_true_r. apply Nat.leb_le. lia.
Qed.

Lemma has_dot_append (a b : string) :
  has_dot (a +:+ b) = has_dot a || has_dot b.
Proof.
  induction a as [|c a IH]; [done|].
  change (String c a +:+ b) with (String c (a +:+ b)). simpl.
  by rewrite IH, orb_assoc.
Qed.

Lemma rsplit_dot_None (s : string) :
  rsplit_dot s = None ↔ has_dot s = false.
Proof.
  induction s as [|c s IH]; [done|]. simpl.
  destruct (rsplit_dot s) as [[a b]|].
  - split; [done|]. intros [_ H]%orb_false_iff. by apply IH in H.
  - destruct IH as [IH _]. rewrite (IH eq_refl), orb_false_r.
    by destruct (is_dot c).
Qed.

(** Splitting at the last dot undoes appending a dot and a suffix that
    has none. *)
Lemma rsplit_dot_append (a b : string) :
  has_dot b = false →
  rsplit_dot (a +:+ "." +:+ b) = Some (a, b).
Proof.
  intros Hb. induction a as [|c a IH].
  - change ("" +:+ "." +:+ b) with (String "."%char b). simpl.
    apply rsplit_dot_None in Hb. by rewrite Hb.
  - change (String c a +:+ "." +:+ b) with (String c (a +:+ "." +:+ b)).
    simpl. by rewrite IH.
Qed.

Lemma rsplit_dot_spec (s name detail : string) :
  rsplit_dot s = Some (name, detail) →
  s = name +:+ "." +:+ detail ∧ has_dot detail = false.
Proof.
  revert name. induction s as [|c s IH]; intros name; [done|]. simpl.
  destruct (rsplit_dot s) as [[a b]|] eqn:E.
  - intros [= <- <-]. destruct (IH a eq_refl) as [-> Hb]. done.
  - destruct (is_dot c) eqn:Hc; [|done]. intros [= <- <-].
    apply Ascii.eqb_eq in Hc as ->. split; [done|].
    by apply rsplit_dot_None.
Qed.


Section ini_provider.
Variable repository_dir : string.
Variable section : list (string * string).

Lemma gather_dir_gathered (l : list string)
    (m : gmap string (gmap string pyval)) :
  (∀ o, o ∈ l → o ∈ section.*1) →
  (∀ n info, m !! n = Some info →
     info !! "alias" = None ∧
     (eligible info ∨ (n +:+ ".dir") ∈ section.*1) ∧
     (∀ v, info !! "dir" = Some v → dir_origin repository_dir section n v)) →
  ∀ n info, foldl gather_dir m l !! n = Some info →
     info !! "alias" = None ∧
     (eligible info ∨ (n +:+ ".dir") ∈ section.*1) ∧
     (∀ v, info !! "dir" = Some v → dir_origin repository_dir section n v).
Proof.
  revert m. induction l as [|o l IH]; intros m Hl Hm; [done|]. simpl.
  apply IH; [intros o' Ho'; apply Hl; by right|].
  intros n info. unfold gather_dir.
  destruct (endswith o ".dir") eqn:E; [|apply Hm].
  apply endswith_spec in E.
  destruct (decide (n = str_take (String.length o - String.length ".dir") o))
    as [->|Hn].
  - rewrite lookup_insert_eq. intros [= <-].
    split; [done|]. split; [|by intros v; rewrite lookup_empty].
    right. rewrite <- E. apply Hl. by left.
  - rewrite lookup_insert_ne by done. apply Hm.
Qed.

Lemma gather_alias_gathered (m : gmap string (gmap string pyval))
    (o : string) :
  o ∈ section.*1 → gathered repository_dir section section.*1 m →
  gathered repository_dir section section.*1 (gather_alias section m o).
Proof.
  intros Ho Hm. unfold gather_alias.
  set (alias := section_get section o).
  set (opt := if has_dot o then o else o +:+ ".alias").
  destruct (endswith opt ".alias") eqn:E; [|done].
  destruct (bool_decide (is_Some (m !! alias))) eqn:Ha; [|done]. simpl.
  apply bool_decide_eq_true in Ha. apply endswith_spec in E.
  change (String.length opt - 6)
    with (String.length opt - String.length ".alias").
  set (name := str_take (String.length opt - String.length ".alias") opt)
    in *.
  assert (∀ w, is_Some (m !! w) →
               is_Some (<[name := <["alias" := PStr alias]>
                                    (default ∅ (m !! name))]> m !! w)) as Hmono.
  { intros w Hw. destruct (decide (w = name)) as [->|Hne].
    - rewrite lookup_insert_eq. by eexists.
    - by rewrite lookup_insert_ne. }
  intros n info. destruct (decide (n = name)) as [->|Hn].
  - rewrite lookup_insert_eq. intros [= <-]. split; [|split].
    + left. right. rewrite lookup_insert_eq. by eexists.
    + intros v. rewrite lookup_insert_ne by done.
      destruct (m !! name) as [old|] eqn:Hold; simpl.
      * apply (Hm name old Hold).
      * by rewrite lookup_empty.
    + intros t. rewrite lookup_insert_eq. intros [= <-].
      exists alias. split; [done|]. split; [by apply Hmono|].
      subst opt. destruct (has_dot o) eqn:Hdot.
      * left. rewrite <- E. done.
      * right. assert (name = o) as ->; [|done].
        subst name. rewrite length_append. simpl.
        replace (String.length o + 6 - 6) with (String.length o) by lia.
        apply str_take_length_append.
  - rewrite lookup_insert_ne by done. intros Hlk.
    destruct (Hm n info Hlk) as (HA & HC & HB). split; [done|].
    split; [done|]. intros t Ht.
    destruct (HB t Ht) as (w & -> & Hw & Horigin).
    exists w. split; [done|]. split; [by apply Hmono|done].
Qed.

Lemma gathered_skip (l : list string) (m : gmap string (gmap string pyval))
    (o : string) :
  gathered repository_dir section (o :: l) m →
  (∀ n, is_Some (m !! n) → n +:+ ".dir" ≠ o) →
  gathered repository_dir section l m.
Proof.
  intros Hm Hne n info Hlk. destruct (Hm n info Hlk) as (HA & HC & HB).
  split; [|done]. destruct HA as [HA|HA]; [by left|].
  apply elem_of_cons in HA as [HA|HA]; [|by right].
  destruct (Hne n); [by eexists|done].
Qed.

Lemma gather_detail_gathered (l : list string)
    (m : gmap string (gmap string pyval)) (o : string) :
  o ∈ section.*1 → gathered repository_dir section (o :: l) m →
  gathered repository_dir section l (gather_detail section m o).
Proof.
  intros Ho Hm.
  assert (∀ n, n +:+ ".dir" = o →
               has_dot o = true ∧ rsplit_dot o = Some (n, "dir")) as Hdir.
  { intros n <-. split.
    - rewrite has_dot_append. apply orb_true_r.
    - by apply (rsplit_dot_append n "dir"). }
  unfold gather_detail.
  destruct (has_dot o) eqn:Hdot.
  2: { apply (gathered_skip l m o Hm). intros n _ Hn.
       by destruct (Hdir n Hn). }
  destruct (rsplit_dot o) as [[name detail]|] eqn:Hsplit.
  2: { apply (gathered_skip l m o Hm). intros n _ Hn.
       by destruct (Hdir n Hn). }
  destruct (bool_decide (is_Some (m !! name)) &&
            negb (String.eqb detail "alias")) eqn:Hcond.
  2: { apply (gathered_skip l m o Hm). intros n Hin Hn.
       destruct (Hdir n Hn) as [_ [= -> ->]].
       by rewrite bool_decide_eq_true_2 in Hcond. }
  apply andb_true_iff in Hcond as [Hin Hdetail].
  apply bool_decide_eq_true in Hin.
  apply negb_true_iff, String.eqb_neq in Hdetail.
  apply rsplit_dot_spec in Hsplit as Ho'. destruct Ho' as [Ho' _].
  set (v := PStr (section_get section o)).
  assert (∀ w, is_Some (m !! w) →
               is_Some (alter (insert detail v) name m !! w)) as Hmono.
  { intros w [x Hw]. destruct (decide (w = name)) as [->|Hne].
    - rewrite lookup_alter_eq, Hw. by eexists.
    - rewrite lookup_alter_ne by done. by eexists. }
  intros n info'. destruct (decide (n = name)) as [->|Hn].
  - rewrite lookup_alter_eq. destruct Hin as [info Hlk]. rewrite Hlk.
    simpl. intros [= <-].
    destruct (Hm name info Hlk) as (HA & HC & HB). split; [|split].
    + destruct HA as [[HA|HA]|HA].
      * left. left. destruct (decide (detail = "dir")) as [Hd|Hd].
        -- rewrite Hd, lookup_insert_eq. by eexists.
        -- by rewrite lookup_insert_ne.
      * left. right. by rewrite lookup_insert_ne.
      * apply elem_of_cons in HA as [HA|HA]; [|by right].
        destruct (Hdir name HA) as [_ [= ->]]. left. left.
        rewrite lookup_insert_eq. by eexists.
    + intros v0. destruct (decide (detail = "dir")) as [Hd|Hd].
      * rewrite Hd, lookup_insert_eq. intros [= <-]. right.
        change (name +:+ ".dir") with (name +:+ "." +:+ "dir").
        rewrite <- Hd, <- Ho'. done.
      * rewrite lookup_insert_ne by done. apply HC.
    + intros t. rewrite lookup_insert_ne by done. intros Ht.
      destruct (HB t Ht) as (w & -> & Hw & Horigin).
      exists w. split; [done|]. split; [by apply Hmono|done].
  - rewrite lookup_alter_ne by done. intros Hlk.
    destruct (Hm n info' Hlk) as (HA & HC & HB). split; [|split; [done|]].
    + destruct HA as [HA|HA]; [by left|].
      apply elem_of_cons in HA as [HA|HA]; [|by right].
      by destruct (Hdir n HA) as [_ [= -> ->]].
    + intros t Ht. destruct (HB t Ht) as (w & -> & Hw & Horigin).
      exists w. split; [done|]. split; [by apply Hmono|done].
Qed.

Lemma gather_details_gathered (l : list string)
    (m : gmap string (gmap string pyval)) :
  (∀ o, o ∈ l → o ∈ section.*1) →
  gathered repository_dir section l m →
  gathered repository_dir section []
    (foldl (gather_detail section) m l).
Proof.
  revert m. induction l as [|o l IH]; intros m Hl Hm; [done|]. simpl.
  apply IH; [intros o' Ho'; apply Hl; by right|].
  apply gather_detail_gathered; [|done]. apply Hl. by left.
Qed.

Lemma gather_aliases_gathered (l : list string)
    (m : gmap string (gmap string pyval)) :
  (∀ o, o ∈ l → o ∈ section.*1) →
  gathered repository_dir section section.*1 m →
  gathered repository_dir section section.*1
    (foldl (gather_alias section) m l).
Proof.
  revert m. induction l as [|o l IH]; intros m Hl Hm; [done|]. simpl.
  apply IH; [intros o' Ho'; apply Hl; by right|].
  apply gather_alias_gathered; [|done]. apply Hl. by left.
Qed.

Lemma ini_reponames_gathered :
  gathered repository_dir section [] (ini_reponames repository_dir section).
Proof.
  unfold ini_reponames.
  apply gather_details_gathered; [done|].
  apply gather_aliases_gathered; [done|].
  intros n info Hlk.
  destruct (gather_dir_gathered section.*1
              (if nonempty repository_dir
               then {[ "" := {[ "dir" := PStr repository_dir ]} ]} else ∅)
              (λ _ H, H)) with (n := n) (info := info)
    as (Hal & HA & HC); [|done|].
  { intros n' info'. destruct (nonempty repository_dir) eqn:Hrd.
    - destruct (decide (n' = "")) as [->|Hn'].
      + rewrite lookup_singleton_eq. intros [= <-]. split; [done|]. split.
        * left. left. rewrite lookup_singleton_eq. by eexists.
        * intros v. rewrite lookup_singleton_eq. intros [= <-]. by left.
      + by rewrite lookup_singleton_ne.
    - by rewrite lookup_empty. }
  split; [done|]. split; [done|]. intros t. by rewrite Hal.
Qed.

(** The entries the [trac.ini] provider yields meet the contract of
    [IRepositoryProvider.get_repositories]: each has a directory or an
    alias; the names are distinct; a directory is the [repository_dir]
    option, for the default repository, or the value of the option
    [<name>.dir]; an alias is the value of the option [<name>.alias] or of
    the option [<name>] without a dot, and names an entry that is yielded
    as well. *)
Theorem ini_get_repositories_contract (name : string)
    (info : gmap string pyval) :
  (name, info) ∈ ini_get_repositories repository_dir section →
  eligible info ∧
  (∀ v, info !! "dir" = Some v → dir_origin repository_dir section name v) ∧
  (∀ t, info !! "alias" = Some t →
        ∃ target, t = PStr target ∧ alias_origin section name target ∧
                  ∃ info', (target, info')
                           ∈ ini_get_repositories repository_dir section) ∧
  (∀ info', (name, info') ∈ ini_get_repositories repository_dir section →
            info' = info).
Proof.
  unfold ini_get_repositories. intros Hin.
  apply elem_of_map_to_list in Hin.
  destruct (ini_reponames_gathered name info Hin) as (HA & HC & HB).
  split; [|split; [done|split]].
  - destruct HA as [HA|HA]; [done|inversion HA].
  - intros t Ht. destruct (HB t Ht) as (w & -> & [info' Hw] & Horigin).
    exists w. split; [done|]. split; [done|]. exists info'.
    by apply elem_of_map_to_list.
  - intros info' Hin'. apply elem_of_map_to_list in Hin'. congruence.
Qed.

End ini_provider.

Lemma ini_get_repositories_contract_witness :
  let section := [("proj.dir", "/repos/proj"); ("main", "proj");
                  ("proj.type", "svn"); ("old.alias", "main")] in
  let info : gmap string pyval := {[ "alias" := PStr "proj" ]} in
  ("main", info) ∈ ini_get_repositories "/repos/default" section ∧
  eligible info ∧
  ∃ info', ("proj", info') ∈ ini_get_repositories "/repos/default" section.
Proof.
  intros section info.
  assert (("main", info) ∈ ini_get_repositories "/repos/default" section)
    as Hin.
  { apply elem_of_map_to_list. vm_compute. reflexivity. }
  split; [done|].
  destruct (ini_get_repositories_contract "/repos/default" section
              "main" info Hin) as (He & _ & Ha & _).
  split; [done|].
  destruct (Ha (PStr "proj")) as (target & [= <-] & _ & Hex).
  - vm_compute. reflexivity.
  - done.
Defined.

(** ** The remainder of a path *)

Lemma normalize_path_strip (path : string) :
  normalize_path path = strip_slash path +:+ "/".
Proof. by destruct path. Qed.

Lemma startswith_drop (s p : string) :
  startswith s p = true → s = p +:+ str_drop (String.length p) s.
Proof.
  unfold startswith. revert s. induction p as [|c p IH]; intros s; [done|].
  destruct s as [|c' s]; [done|]. simpl.
  destruct (Ascii.ascii_dec c c') as [->|]; [|done].
  intros Hp. change (String c' s = String c' (p +:+ str_drop (String.length p) s)).
  by rewrite <- IH.
Qed.

Lemma append_inv_r (a b c : string) : a +:+ c = b +:+ c → a = b.
Proof.
  intros Heq.
  assert (String.length a = String.length b) as Hlen.
  { apply (f_equal String.length) in Heq.
    rewrite !length_append in Heq. lia. }
  revert b Heq Hlen. induction a as [|x a IH]; intros [|y b]; try done.
  change (String x (a +:+ c) = String y (b +:+ c) → S (String.length a) = S (String.length b) → String x a = String y b).
  intros [= -> Heq] [= Hlen]. by rewrite (IH b).
Qed.

(** A string that ends with a slash, split in two: the second part is
    empty or ends with the slash. *)
Lemma append_slash_inv (a b x : string) :
  a +:+ b = x +:+ "/" →
  (b = "" ∧ a = x +:+ "/") ∨ (∃ y, b = y +:+ "/" ∧ x = a +:+ y).
Proof.
  revert x. induction a as [|c a IH]; intros x.
  - change ("" +:+ b) with b. intros ->. right. by exists x.
  - change (String c a +:+ b) with (String c (a +:+ b)).
    destruct x as [|c' x].
    + change ("" +:+ "/") with "/". intros [= -> Hab].
      destruct a; [|done]. destruct b; [|done]. by left.
    + change (String c' x +:+ "/") with (String c' (x +:+ "/")).
      intros [= -> Hab]. destruct (IH x Hab) as [[-> ->]|(y & -> & ->)].
      * by left.
      * right. by exists y.
Qed.

Lemma rstrip_slash_clean (s : string) :
  ends_with_slash s = false → rstrip_slash s = s.
Proof.
  induction s as [|c s IH]; [done|]. simpl.
  destruct s as [|c' s].
  - simpl. by intros ->.
  - intros Hs. rewrite (IH Hs). done.
Qed.

Lemma rstrip_slash_append_slash (s : string) :
  rstrip_slash (s +:+ "/") = rstrip_slash s.
Proof.
  induction s as [|c s IH]; [done|].
  change (String c s +:+ "/") with (String c (s +:+ "/")). simpl.
  by rewrite IH.
Qed.

(** The name and the remainder put together give the path back. *)
Lemma split_repository_path_joins (names : list string) (path : string) :
  let reponame := (split_repository_path names path).1 in
  let rest := (split_repository_path names path).2 in
  (rest = "/" ∧ strip_slash path = strip_slash reponame) ∨
  (rest ≠ "/" ∧ nonempty rest = true ∧ ends_with_slash rest = false ∧
   strip_slash path
   = if nonempty (strip_slash reponame)
     then strip_slash reponame +:+ "/" +:+ rest else rest).
Proof.
  intros reponame rest. subst reponame rest.
  unfold split_repository_path. rewrite normalize_path_strip.
  destruct (strip_slash_clean path) as [Habs Hends].
  set (x := strip_slash path) in *. clearbody x.
  assert (∀ y, ends_with_slash y = false →
               rest_of_path (y +:+ "/") = (if nonempty y then y else "/") ∧
               (nonempty y = true → y ≠ "/")) as Hrest.
  { intros y Hy. unfold rest_of_path.
    rewrite rstrip_slash_append_slash, (rstrip_slash_clean y Hy).
    split; [by destruct y|]. intros _ ->. done. }
  destruct (last (merge_sort match_le (path_matches (x +:+ "/") names)))
    as [[k n0]|] eqn:Hlast; simpl.
  - apply last_merge_sort_greatest in Hlast as [Hin _].
    apply path_matches_elem in Hin as (_ & Hs & Hk). simpl in Hs, Hk.
    subst k.
    apply startswith_drop in Hs.
    set (rest0 := str_drop (String.length (stripped_reponame n0))
                    (x +:+ "/")) in *.
    unfold stripped_reponame in Hs. symmetry in Hs.
    apply append_slash_inv in Hs as [[-> Hx]|(y & -> & Hx)].
    + left. split; [done|]. symmetry. by apply append_inv_r in Hx.
    + rewrite append_assoc in Hx.
      assert (nonempty y = true) as Hy.
      { destruct y; [|done]. subst x.
        rewrite ends_with_slash_append in Hends; done. }
      assert (ends_with_slash y = false) as Hy'.
      { subst x. rewrite <- append_assoc in Hends.
        by rewrite ends_with_slash_append in Hends. }
      destruct (Hrest y Hy') as [-> Hne]. rewrite Hy.
      right. split; [by apply Hne|]. split; [done|]. split; [done|].
      destruct (strip_slash n0) eqn:E; [by subst x|done].
  - destruct (Hrest x Hends) as [-> Hne].
    destruct (nonempty x) eqn:Hx.
    + right. split; [by apply Hne|]. done.
    + left. by destruct x.
Qed.

Section path_facts.
Context {store : Type} `{!Backend store}.
Variable env : Env.

Implicit Types s : State store.

(** What [get_repository_by_path(path)] returns fits together again: the
    repository is the one [get_repository] gives for the name returned;
    the remainder is ['/'] when the stripped path is the stripped name,
    and otherwise is not empty, has no trailing slash and, appended to the
    stripped name and a slash (to nothing, when the stripped name is
    empty), gives the stripped path back. *)
Theorem get_repository_by_path_joins tid (path : string) s
    (reponame : string) (repos : option nat) (rest : string) :
  (get_repository_by_path env tid path s).1 = Ok (reponame, repos, rest) →
  (get_repository env tid (Some reponame) (settled env s)).1 = Ok repos ∧
  ((rest = "/" ∧ strip_slash path = strip_slash reponame) ∨
   (rest ≠ "/" ∧ nonempty rest = true ∧ ends_with_slash rest = false ∧
    strip_slash path
    = if nonempty (strip_slash reponame)
      then strip_slash reponame +:+ "/" +:+ rest else rest)).
Proof.
  unfold get_repository_by_path, bind.
  rewrite get_all_repositories_settled.
  pose proof (split_repository_path_joins
                (map_to_list (registry_in env s)).*1 path) as Hjoin.
  simpl in Hjoin.
  destruct (split_repository_path (map_to_list (registry_in env s)).*1 path)
    as [n r]. simpl in Hjoin.
  destruct (get_repository env tid (Some n) (settled env s))
    as [[h|e] s'] eqn:Hget; [|done].
  simpl. intros [= <- <- <-]. split; [|exact Hjoin].
  change (settled env s) with (get_all_repositories env s).2.
  unfold settled in Hget. by rewrite Hget.
Qed.

End path_facts.

Lemma get_repository_by_path_joins_witness :
  let env := sample_env [("", {["dir" := PStr "/repos/main"]});
                         ("sub", {["dir" := PStr "/repos/sub"]})] in
  let s := initial_state (store := list Z) [] in
  (get_repository_by_path env 1 "/sub/foo/bar/" s).1
  = Ok ("sub", Some 0, "foo/bar") ∧
  strip_slash "/sub/foo/bar/" = strip_slash "sub" +:+ "/" +:+ "foo/bar".
Proof.
  intros env s.
  assert ((get_repository_by_path env 1 "/sub/foo/bar/" s).1
          = Ok ("sub", Some 0, "foo/bar")) as Hrun.
  { vm_compute. reflexivity. }
  split; [done|].
  destruct (get_repository_by_path_joins env 1 "/sub/foo/bar/" s
              "sub" (Some 0) "foo/bar" Hrun) as [_ [[[=] _]|(_ & _ & _ & H)]].
  exact H.
Defined.

Section real_facts.
Context {store : Type} `{!Backend store}.
Variable env : Env.

Implicit Types s : State store.

(** ** Real repositories *)

(** A resolved lookup leaves the table and the registry alone, keeps what
    the thread has cached, and returns a repository only for an entry
    with a directory, cached under the name looked up. *)
Lemma lookup_resolved_cache tid target info s res s1 :
  lookup_resolved env tid (target, info) s = (res, s1) →
  db s1 = db s ∧ _all_repositories s1 = _all_repositories s ∧
  (∀ n h, default ∅ (_cache s !! tid) !! n = Some h →
          default ∅ (_cache s1 !! tid) !! n = Some h) ∧
  (∀ h, res = Ok (Some h) →
        ∃ rdir, info !! "dir" = Some rdir ∧ truthy rdir = true ∧
                default ∅ (_cache s1 !! tid) !! target = Some h).
Proof.
  unfold lookup_resolved. simpl.
  destruct (info !! "dir") as [rdir|] eqn:Hdir.
  2:{ intros [= <- <-]. repeat split; done. }
  destruct (truthy rdir) eqn:Htruthy.
  2:{ intros [= <- <-]. repeat split; done. }
  destruct (default ∅ (_cache s !! tid) !! target) as [h0|] eqn:E.
  - rewrite (cached_repository_hit _ _ _ _ _ _ _ h0 E). intros [= <- <-].
    split; [done|]. split; [done|]. split; [done|].
    intros h [= <-]. by exists rdir.
  - destruct rdir as [rdir|n].
    + intros Hrun.
      destruct (cached_repository_miss_inv _ _ _ _ _ _ _ _ _ E Hrun)
        as (Hdb & Hall & _ & [(e & -> & _ & Hcache)|
                              (c & r & -> & _ & _ & _ & Hcache)]).
      * split; [done|]. split; [done|]. split; [|by intros h [=]].
        intros n h. by rewrite Hcache, lookup_insert_eq.
      * split; [done|]. split; [done|]. split.
        -- intros n h Hn. rewrite Hcache, lookup_insert_eq. simpl.
           rewrite lookup_insert_ne; [done|]. intros <-. congruence.
        -- intros h [= <-]. exists (PStr rdir). split; [done|].
           split; [done|]. rewrite Hcache, lookup_insert_eq. simpl.
           by rewrite lookup_insert_eq.
    + rewrite (cached_repository_hit_only _ _ _ _ _ _ _ E).
      intros [= <- <-]. split; [done|]. split; [done|].
      split; [|by intros h [=]].
      intros n' h. simpl. by rewrite lookup_insert_eq.
Qed.

Lemma get_repository_cache tid reponame s res s1 :
  get_repository env tid (Some reponame) s = (res, s1) →
  _all_repositories s1 = Some (registry_in env s) ∧
  (∀ n h, default ∅ (_cache s !! tid) !! n = Some h →
          default ∅ (_cache s1 !! tid) !! n = Some h) ∧
  (∀ h, res = Ok (Some h) →
        ∃ rdir, (resolve_alias (registry_in env s) reponame).2 !! "dir"
                = Some rdir ∧ truthy rdir = true ∧
                default ∅ (_cache s1 !! tid)
                  !! (resolve_alias (registry_in env s) reponame).1 = Some h).
Proof.
  rewrite get_repository_resolved.
  destruct (settled_fields env s) as (Hc & _ & _ & _ & Hall).
  destruct (resolve_alias (registry_in env s) reponame) as [target info].
  intros Hrun. apply lookup_resolved_cache in Hrun as (_ & Hall1 & Hkeep & Hres).
  rewrite Hall1, Hall. rewrite Hc in Hkeep. done.
Qed.

(** [get_real_repositories()] skips the repositories that raise a
    [TracError] instead of raising it itself; each repository it returns
    was found for a registered name, is cached for the thread under the
    name that the alias, if any, stands for, whose entry has a directory;
    and in a thread whose cached repositories are open, it is an open
    repository object. *)
Theorem get_real_repositories_real tid (n0 : nat) s :
  made_since tid n0 s →
  let out := get_real_repositories env tid s in
  made_since tid n0 out.2 ∧
  (∀ e, out.1 = Raise e → is_TracError e = false) ∧
  (∀ hs h, out.1 = Ok hs → h ∈ hs →
     (∃ r, heap out.2 !! h = Some r ∧ repo_closed r = false) ∧
     ∃ name rdir,
       is_Some (registry_in env s !! name) ∧
       (resolve_alias (registry_in env s) name).2 !! "dir" = Some rdir ∧
       truthy rdir = true ∧
       default ∅ (_cache out.2 !! tid)
         !! (resolve_alias (registry_in env s) name).1 = Some h).
Proof.
  intros Hmade out. subst out. unfold get_real_repositories, bind.
  rewrite get_all_repositories_settled.
  set (reg := registry_in env s).
  set (go := fix go (l : list string) : M store (gset nat) := _).
  destruct (settled_fields env s) as (Hc & _ & Hh & _ & Hall).
  assert (made_since tid n0 (settled env s)) as Hmade1.
  { apply (made_since_touch tid n0 s); [done|done|by left]. }
  assert (∀ l s0,
    (∀ n, n ∈ l → is_Some (reg !! n)) →
    _all_repositories s0 = Some reg → made_since tid n0 s0 →
    made_since tid n0 (go l s0).2 ∧
    length (heap s0) ≤ length (heap (go l s0).2) ∧
    (∀ n h, default ∅ (_cache s0 !! tid) !! n = Some h →
            default ∅ (_cache (go l s0).2 !! tid) !! n = Some h) ∧
    (∀ e, (go l s0).1 = Raise e → is_TracError e = false) ∧
    (∀ hs h, (go l s0).1 = Ok hs → h ∈ hs →
       n0 ≤ h < length (heap (go l s0).2) ∧
       ∃ name rdir,
         is_Some (reg !! name) ∧
         (resolve_alias reg name).2 !! "dir" = Some rdir ∧
         truthy rdir = true ∧
         default ∅ (_cache (go l s0).2 !! tid)
           !! (resolve_alias reg name).1 = Some h)) as Hgo.
  { induction l as [|name l IH]; intros s0 Hl Hreg Hm0.
    - simpl. split; [done|]. split; [done|]. split; [done|].
      split; [done|].
      intros hs h [= <-] Hin. by apply elem_of_empty in Hin.
    - assert (reg ≠ ∅) as Hne.
      { destruct (Hl name) as [info Hinfo]; [by left|].
        intros Hempty. rewrite Hempty in Hinfo.
        by rewrite lookup_empty in Hinfo. }
      destruct (registry_in_settled env s0 reg Hreg Hne) as [Hreg0 _].
      destruct (get_repository env tid (Some name) s0) as [res s1] eqn:Hget.
      destruct (get_repository_made_since env tid n0 name s0 res s1 Hm0 Hget)
        as (Hm1 & Hlen1 & Hvalid).
      destruct (get_repository_cache tid name s0 res s1 Hget)
        as (Hreg1 & Hkeep1 & Hres). rewrite Hreg0 in Hreg1, Hres.
      assert (∀ n, n ∈ l → is_Some (reg !! n)) as Hl'.
      { intros n Hn. apply Hl. by right. }
      assert (∀ found s2,
        (∀ h, found = Some h → res = Ok (Some h)) →
        s2 = s1 →
        let out := bind (go l)
              (λ rest, ret (match found with
                            | Some h => {[h]} ∪ rest
                            | None => rest
                            end)) s2 in
        made_since tid n0 out.2 ∧
        length (heap s0) ≤ length (heap out.2) ∧
        (∀ n h, default ∅ (_cache s0 !! tid) !! n = Some h →
                default ∅ (_cache out.2 !! tid) !! n = Some h) ∧
        (∀ e, out.1 = Raise e → is_TracError e = false) ∧
        (∀ hs h, out.1 = Ok hs → h ∈ hs →
           n0 ≤ h < length (heap out.2) ∧
           ∃ name rdir,
             is_Some (reg !! name) ∧
             (resolve_alias reg name).2 !! "dir" = Some rdir ∧
             truthy rdir = true ∧
             default ∅ (_cache out.2 !! tid)
               !! (resolve_alias reg name).1 = Some h)) as Hrest.
      { intros found s2 Hfound -> out. subst out. unfold bind.
        destruct (IH s1 Hl' Hreg1 Hm1)
          as (Hm2 & Hlen2 & Hkeep2 & Hraise2 & Hok2).
        destruct (go l s1) as [[rest|e] s3] eqn:Hgo; simpl in *.
        - split; [done|]. split; [lia|].
          split; [by intros n h Hn; apply Hkeep2, Hkeep1|].
          split; [done|]. intros hs h [= <-] Hin.
          destruct found as [h0|].
          + apply elem_of_union in Hin as [Hin|Hin].
            * apply elem_of_singleton in Hin as ->.
              specialize (Hfound h0 eq_refl).
              split; [specialize (Hvalid h0 Hfound); lia|].
              destruct (Hres h0 Hfound) as (rdir & Hdir & Ht & Hcached).
              exists name, rdir. split; [apply Hl; by left|].
              split; [done|]. split; [done|]. by apply Hkeep2.
            * by apply (Hok2 rest).
          + by apply (Hok2 rest).
        - split; [done|]. split; [lia|].
          split; [by intros n h Hn; apply Hkeep2, Hkeep1|].
          split; [|done]. intros e' [= <-]. by apply Hraise2. }
      assert (go (name :: l) s0
              = match res with
                | Ok found =>
                    bind (go l)
                      (λ rest, ret (match found with
                                    | Some h => {[h]} ∪ rest
                                    | None => rest
                                    end)) s1
                | Raise e =>
                    if is_TracError e then
                      bind (go l) (λ rest, ret rest) s1
                    else (Raise e, s1)
                end) as Hstep.
      { simpl. unfold try_except, bind. rewrite Hget.
        destruct res as [found|e]; [done|].
        by destruct (is_TracError e). }
      rewrite Hstep. clear Hstep.
      destruct res as [found|e].
      + apply Hrest; [by intros h ->|done].
      + destruct (is_TracError e) eqn:He.
        * apply (Hrest None); [done|done].
        * simpl. split; [done|]. split; [done|]. split; [done|].
          split; [|done]. by intros e' [= <-]. }
  assert (∀ n, n ∈ (map_to_list reg).*1 → is_Some (reg !! n)) as Hkeys.
  { intros n. by rewrite elem_of_keys. }
  destruct (Hgo (map_to_list reg).*1 (settled env s) Hkeys Hall Hmade1)
    as (Hm & _ & _ & Hraise & Hok).
  split; [done|]. split; [done|]. intros hs h Hhs Hin.
  destruct (Hok hs h Hhs Hin) as (Hbound & Hname). split; [|done].
  destruct Hm as (_ & _ & Hopen).
  destruct (lookup_lt_is_Some_2 (heap (go (map_to_list reg).*1 (settled env s)).2) h)
    as [r Hr]; [lia|].
  exists r. split; [done|]. apply (Hopen h r); [lia|done].
Qed.

End real_facts.

Lemma get_real_repositories_real_witness :
  let env := sample_env plain_ini in
  let s := initial_state (store := list Z) [] in
  let out := get_real_repositories env 1 s in
  out.1 = Ok {[0]} ∧
  (∃ r, heap out.2 !! 0 = Some r ∧ repo_closed r = false) ∧
  default ∅ (_cache out.2 !! 1%positive) !! "B" = Some 0.
Proof.
  intros env s out.
  assert (made_since 1 0 s) as Hmade.
  { split; [simpl; lia|]. split.
    - intros name h. simpl. by rewrite !lookup_empty.
    - intros h r _ Hr. simpl in Hr. by rewrite lookup_nil in Hr. }
  assert (out.1 = Ok {[0]}) as Hout by (vm_compute; reflexivity).
  split; [done|].
  destruct (get_real_repositories_real env 1 0 s Hmade) as (_ & _ & Hreal).
  destruct (Hreal {[0]} 0 Hout) as [Hopen _].
  { by apply elem_of_singleton. }
  split; [exact Hopen|]. vm_compute. reflexivity.
Defined.

(** ** Synchronisation on each request *)

Section request_facts.
Context {store : Type} `{!Backend store}.
Variable env : Env.

Implicit Types s : State store.




End request_facts.


(** ** Path checks of the authz policy *)

Lemma section_result_Some (section : gmap string bool) (usernames : list string)
    (result : bool) :
  section_result section usernames = Some result →
  ∃ user, user ∈ usernames ∧ section !! user = Some result.
Proof.
  induction usernames as [|u us IH]; [done|]. simpl.
  destruct (section !! u) as [r|] eqn:E.
  - intros [= <-]. exists u. split; [by left|done].
  - intros H. destruct (IH H) as (user & Hin & Hu).
    exists user. split; [by right|done].
Qed.

Lemma section_result_is_Some (section : gmap string bool)
    (usernames : list string) (user : string) :
  user ∈ usernames → is_Some (section !! user) →
  is_Some (section_result section usernames).
Proof.
  induction usernames as [|u us IH]; intros Hin Hu; [inversion Hin|].
  simpl. destruct (section !! u) as [r|] eqn:E; [by eexists|].
  apply IH; [|done]. apply elem_of_cons in Hin as [->|Hin]; [|done].
  rewrite E in Hu. by destruct Hu.
Qed.

Lemma modules_result_Some (authz : authz_rules) (modules usernames : list string)
    (spath : string) (result : bool) :
  modules_result authz modules usernames spath = Some result →
  authz_rule authz modules usernames spath result.
Proof.
  induction modules as [|m ms IH]; [done|]. simpl.
  assert (modules_result authz ms usernames spath = Some result →
          authz_rule authz (m :: ms) usernames spath result) as Hnext.
  { intros H. destruct (IH H) as (m' & paths & section & user & Hm & Hrest).
    exists m', paths, section, user. split; [by right|done]. }
  destruct (authz !! m) as [paths|] eqn:Em; simpl.
  2: { by rewrite lookup_empty. }
  destruct (paths !! spath) as [section|] eqn:Es; [|done].
  destruct (bool_decide (section ≠ ∅)); [|done].
  destruct (section_result section usernames) as [r|] eqn:Er; [|done].
  intros [= ->]. apply section_result_Some in Er as (user & Hin & Hu).
  exists m, paths, section, user. split; [by left|done].
Qed.

Lemma modules_result_is_Some (authz : authz_rules)
    (modules usernames : list string) (spath : string) (result : bool) :
  authz_rule authz modules usernames spath result →
  is_Some (modules_result authz modules usernames spath).
Proof.
  intros (m & paths & section & user & Hm & Hu & Hpaths & Hsection & Hrule).
  induction modules as [|m0 ms IH]; [inversion Hm|]. simpl.
  destruct (decide (m0 = m)) as [->|Hne].
  - rewrite Hpaths. simpl. rewrite Hsection.
    rewrite bool_decide_eq_true_2.
    + destruct (section_result_is_Some section usernames user Hu)
        as [r ->]; [by eexists|by eexists].
    + intros ->. by rewrite lookup_empty in Hrule.
  - apply elem_of_cons in Hm as [->|Hm]; [done|].
    specialize (IH Hm).
    destruct (default ∅ (authz !! m0) !! spath) as [section0|]; [|done].
    destruct (bool_decide (section0 ≠ ∅)); [|done].
    by destruct (section_result section0 usernames); [eexists|].
Qed.

Lemma parents_result_Some (authz : authz_rules)
    (modules usernames spaths : list string) (result : bool) :
  parents_result authz modules usernames spaths = Some result →
  ∃ spath, spath ∈ spaths ∧ authz_rule authz modules usernames spath result.
Proof.
  induction spaths as [|x l IH]; [done|]. simpl.
  destruct (modules_result authz modules usernames x) as [r|] eqn:E.
  - intros [= ->]. exists x. split; [by left|].
    by apply modules_result_Some.
  - intros H. destruct (IH H) as (spath & Hin & Hrule).
    exists spath. split; [by right|done].
Qed.

Lemma parents_result_is_Some (authz : authz_rules)
    (modules usernames spaths : list string) (spath : string) (result : bool) :
  spath ∈ spaths → authz_rule authz modules usernames spath result →
  is_Some (parents_result authz modules usernames spaths).
Proof.
  intros Hin Hrule. induction spaths as [|x l IH]; [inversion Hin|]. simpl.
  destruct (modules_result authz modules usernames x) as [r|] eqn:E;
    [by eexists|].
  apply IH. apply elem_of_cons in Hin as [->|Hin]; [|done].
  apply modules_result_is_Some in Hrule. rewrite E in Hrule.
  by destruct Hrule.
Qed.

Lemma allowed_below_rule (authz : authz_rules) (modules usernames : list string)
    (path : string) :
  allowed_below authz modules usernames path = true ↔
  ∃ spath, startswith spath path = true ∧
           authz_rule authz modules usernames spath true.
Proof.
  unfold allowed_below. rewrite existsb_exists. split.
  - intros (m & Hm & Hex). apply existsb_exists in Hex as ([sp sec] & He & Hc).
    apply andb_true_iff in Hc as [Hsp Hc].
    apply existsb_exists in Hc as (u & Hu & Hc).
    apply bool_decide_eq_true in Hc. simpl in *.
    apply list_elem_of_In, elem_of_map_to_list in He.
    destruct (authz !! m) as [paths|] eqn:Em; simpl in He.
    2: { by rewrite lookup_empty in He. }
    exists sp. split; [done|]. exists m, paths, sec, u.
    rewrite <- !list_elem_of_In in *. done.
  - intros (sp & Hsp & m & paths & sec & u & Hm & Hu & Hp & Hs & Hr).
    exists m. split; [by apply list_elem_of_In|].
    apply existsb_exists. exists (sp, sec). split.
    + apply list_elem_of_In, elem_of_map_to_list. by rewrite Hp.
    + simpl. rewrite Hsp. simpl. apply existsb_exists. exists u.
      split; [by apply list_elem_of_In|]. by apply bool_decide_eq_true.
Qed.

Lemma isabs_scoped_path (scope path : string) :
  isabs (scoped_path scope path) = true.
Proof.
  unfold scoped_path.
  by destruct (String.eqb ("/" +:+ authz_join [scope; path]) "/").
Qed.

(** [check_path] always comes to an end. What it returns is backed by a
    rule of the file, for one of the modules and one of the users: [True]
    by a granting rule on a path that the resource's path is a prefix of,
    and otherwise the result by a rule with that result on a prefix of
    the resource's path. It returns [None] only if no such rule gives
    anything, and never when a rule on ['/'] applies. *)
Theorem check_path_decides (authz : authz_rules)
    (modules usernames : list string) (scope path : string) :
  let npath := scoped_path scope path in
  ∃ r, check_path authz modules usernames scope path = Some r ∧
    (∀ result, r = Some result →
       ∃ spath, authz_rule authz modules usernames spath result ∧
                ((result = true ∧ startswith spath npath = true) ∨
                 (isabs spath = true ∧ startswith npath spath = true))) ∧
    (r = None →
       (∀ spath, startswith spath npath = true →
                 ¬ authz_rule authz modules usernames spath true) ∧
       (∀ result, ¬ authz_rule authz modules usernames "/" result)).
Proof.
  intros npath. unfold check_path. fold npath.
  destruct (parent_iter_ends (String.length npath) npath
              (isabs_scoped_path scope path) (le_n _))
    as (spaths & Hiter & _ & Hlast & Hprefix).
  rewrite Hiter.
  destruct (allowed_below authz modules usernames npath) eqn:Hbelow.
  - exists (Some true). split; [done|]. split; [|done].
    intros result [= <-]. apply allowed_below_rule in Hbelow as (sp & Hsp & Hr).
    exists sp. split; [done|]. by left.
  - exists (parents_result authz modules usernames spaths).
    split; [done|]. split.
    + intros result Hres.
      apply parents_result_Some in Hres as (sp & Hin & Hrule).
      exists sp. split; [done|]. right.
      destruct (Hprefix sp Hin) as [Habs [rest Hrest]]. split; [done|].
      unfold startswith. rewrite Hrest. clear.
      induction sp as [|c sp IH]; [by destruct rest|]. simpl.
      by destruct (Ascii.ascii_dec c c).
    + intros Hnone. split.
      * intros sp Hsp Hrule.
        assert (allowed_below authz modules usernames npath = true) as H.
        { apply allowed_below_rule. by exists sp. }
        congruence.
      * intros result Hrule.
        destruct (parents_result_is_Some authz modules usernames spaths
                    "/" result) as [r Hr]; [|done|congruence].
        apply last_Some in Hlast as [l' ->]. apply elem_of_app. right.
        by left.
Qed.


Lemma check_path_decides_witness :
  let authz : authz_rules :=
    {[ "" := {[ "/" := {[ "*" := false ]};
                "/trunk/src/" := {[ "joe" := true ]} ]} ]} in
  let modules := authz_modules "" "" in
  let usernames := authz_usernames "joe" in
  check_path authz modules usernames "/" "trunk" = Some (Some true) ∧
  check_path authz modules usernames "/" "tags/1.0" = Some (Some false) ∧
  ∃ spath, authz_rule authz modules usernames spath false ∧
           startswith (scoped_path "/" "tags/1.0") spath = true.
Proof.
  intros authz modules usernames.
  assert (check_path authz modules usernames "/" "tags/1.0"
          = Some (Some false)) as Hrun by (vm_compute; reflexivity).
  split; [vm_compute; reflexivity|]. 
  split; [exact Hrun|].
  destruct (check_path_decides authz modules usernames "/" "tags/1.0")
    as (r & Hr & Hrule & _).
  rewrite Hrun in Hr. 
  injection Hr as <-.
  destruct (Hrule false eq_refl) as (spath & Hspath & Hcase).
  destruct Hcase as [[Hf _]|[_ Hpre]].
  - discriminate Hf.
  - exists spath. split; [exact Hspath|exact Hpre].
Defined.

(** Whoever asks and for whatever repository, the users checked include
    ['*'] and the modules the global one; so a rule for ['*'] on ['/'] in
    the global module makes [check_path] decide every path. *)
Theorem check_path_global_default (authz : authz_rules)
    (paths : gmap string (gmap string bool)) (section : gmap string bool)
    (result : bool) (username parent_id authz_module_name scope path : string) :
  authz !! "" = Some paths → paths !! "/" = Some section →
  section !! "*" = Some result →
  "*" ∈ authz_usernames username ∧
  "" ∈ authz_modules parent_id authz_module_name ∧
  ∃ b, check_path authz (authz_modules parent_id authz_module_name)
         (authz_usernames username) scope path = Some (Some b).
Proof.
  intros Hpaths Hsection Hresult.
  assert ("*" ∈ authz_usernames username) as Huser.
  { unfold authz_usernames. destruct (String.eqb username "anonymous").
    - right. left.
    - right. right. left. }
  assert ("" ∈ authz_modules parent_id authz_module_name) as Hmodule.
  { unfold authz_modules.
    destruct (if nonempty parent_id then parent_id else authz_module_name)
      as [|c r]; simpl.
    - left.
    - right. left. }
  split; [exact Huser|]. split; [exact Hmodule|].
  unfold check_path.
  set (npath := scoped_path scope path).
  destruct (allowed_below authz _ _ npath).
  { exists true. reflexivity. }
  destruct (parent_iter_ends (String.length npath) npath
              (isabs_scoped_path scope path) (le_n _))
    as (spaths & Hiter & _ & Hlast & _).
  rewrite Hiter.
  destruct (parents_result_is_Some authz
              (authz_modules parent_id authz_module_name)
              (authz_usernames username) spaths "/" result)
    as [b Hb].
  - apply last_Some in Hlast as [l' Hl']. rewrite Hl'.
    apply elem_of_app. right. left.
  - exists "", paths, section, "*".
    split; [exact Hmodule|]. split; [exact Huser|].
    split; [exact Hpaths|]. split; [exact Hsection|exact Hresult].
  - exists b. rewrite Hb. reflexivity.
Qed.

Lemma check_path_global_default_witness :
  let authz : authz_rules :=
    {[ "" := {[ "/" := {[ "*" := false ]};
                "/trunk/src/" := {[ "joe" := true ]} ]} ]} in
  ∃ b, check_path authz (authz_modules "proj" "") (authz_usernames "anonymous")
         "/" "branches/x" = Some (Some b).
Proof.
  intros authz.
  destruct (check_path_global_default authz
              {[ "/" := {[ "*" := false ]};
                 "/trunk/src/" := {[ "joe" := true ]} ]}
              {[ "*" := false ]} false "anonymous" "proj" "" "/" "branches/x")
    as (_ & _ & Hb).
  - vm_compute. reflexivity.
  - vm_compute. reflexivity.
  - vm_compute. reflexivity.
  - exact Hb.
Defined.
